(** * ChittyRSS (ModernFeed): the feed ingestion pipeline of server/routes.ts
      and server/storage.ts, over the tables of shared/schema.ts, embedded
      in Rocq.

    JavaScript strings are sequences of UTF-16 code units; the regular
    expressions of the source are kept as syntax trees and run by a
    backtracking matcher that follows the ECMAScript matching order
    (greedy quantifiers, leftmost alternative first). *)

From Stdlib Require Import String Ascii.
From Stdlib Require Import List ZArith NArith Lia Bool Arith Permutation.
From Stdlib Require Import Sorted.
Import ListNotations.

Set Implicit Arguments.

(* ===================================================================== *)
(** ** JavaScript strings *)
(* ===================================================================== *)

Module Js.

(** A string is the list of its UTF-16 code units. *)
Definition str := list N.

(** An ASCII literal of the source as a JavaScript string. *)
Fixpoint lit (s : string) : str :=
  match s with
  | EmptyString => []
  | String a s' => N_of_ascii a :: lit s'
  end.

Arguments lit s%_string.

Definition dq : N := 34.   (* the double quote *)
Definition sq : N := 39.   (* the single quote *)

Definition str_eqb (a b : str) : bool :=
  if list_eq_dec N.eq_dec a b then true else false.

(** [s || d] on strings: the empty string is falsy. *)
Definition truthy (s : str) : bool :=
  match s with [] => false | _ => true end.

(** [a || b] where [a] may be undefined or empty. *)
Definition or_else (a : option str) (b : option str) : option str :=
  match a with
  | Some (_ :: _) => a
  | _ => b
  end.

(** [a || d] with a string default. *)
Definition or_str (a : option str) (d : str) : str :=
  match a with
  | Some (x :: s) => x :: s
  | _ => d
  end.

(** [a || null]: an empty string becomes null as well. *)
Definition or_null (a : option str) : option str := or_else a None.

(** White space and line terminators of ECMAScript: what [\s] matches and
    what [String.prototype.trim] removes. *)
Definition is_space (c : N) : bool :=
  ((9 <=? c) && (c <=? 13) || (c =? 32) || (c =? 160) || (c =? 5760)
   || (8192 <=? c) && (c <=? 8202) || (c =? 8232) || (c =? 8233)
   || (c =? 8239) || (c =? 8287) || (c =? 12288) || (c =? 65279))%N.

Fixpoint drop_while (p : N -> bool) (s : str) : str :=
  match s with
  | [] => []
  | c :: s' => if p c then drop_while p s' else s
  end.

(** [s] without its longest suffix of units satisfying [p] *)
Fixpoint drop_while_end (p : N -> bool) (s : str) : str :=
  match s with
  | [] => []
  | c :: s' => if forallb p s then [] else c :: drop_while_end p s'
  end.

(** [s.trim()] *)
Definition trim (s : str) : str :=
  drop_while_end is_space (drop_while is_space s).

(** [s.startsWith(p)] *)
Fixpoint startsWith (p s : str) : bool :=
  match p, s with
  | [], _ => true
  | _ :: _, [] => false
  | a :: p', b :: s' => (a =? b)%N && startsWith p' s'
  end.

(** [s.includes(p)] *)
Fixpoint includes (p s : str) : bool :=
  startsWith p s ||
  match s with
  | [] => false
  | _ :: s' => includes p s'
  end.

(** [s.substring(0, n)] for [0 <= n]. *)
Definition substring0 (n : nat) (s : str) : str := firstn n s.

(** [s.lastIndexOf(c, from)] for a one-unit search string: the largest
    index [i <= from] with [s[i] = c], or -1. *)
Fixpoint lastIndexOf_aux (c : N) (s : str) (i : nat) (from : nat)
                         (best : Z) : Z :=
  match s with
  | [] => best
  | x :: s' =>
      if (from <? i)%nat then best
      else lastIndexOf_aux c s' (S i) from
             (if (x =? c)%N then Z.of_nat i else best)
  end.

Definition lastIndexOf (c : N) (from : nat) (s : str) : Z :=
  lastIndexOf_aux c s 0 from (-1).

(** [c.toLowerCase()] on one code unit, for the ASCII letters. *)
Definition lower (c : N) : N :=
  if ((65 <=? c) && (c <=? 90))%N then (c + 32)%N else c.

(** Equality of strings after [toLowerCase()] of both, on ASCII letters. *)
Definition eq_lower (a b : str) : bool :=
  str_eqb (map lower a) (map lower b).

End Js.

(* ===================================================================== *)
(** ** Regular expressions *)
(* ===================================================================== *)

Module Regex.
Import Js.

Inductive re : Type :=
| Eps                         (* the empty pattern *)
| Chr (p : N -> bool)         (* one code unit satisfying [p] *)
| Seq (a b : re)              (* ab *)
| Alt (a b : re)              (* a|b *)
| Star (a : re)               (* a*, greedy *)
| Opt (a : re)                (* a?, greedy *)
| Group (i : nat) (a : re)    (* the i-th capturing group *)
| Bol                         (* ^ without the m flag *)
| Eol.                        (* $ without the m flag *)

Definition Plus (a : re) : re := Seq a (Star a).

(** Captures: the most recent binding of a group number comes first. *)
Definition caps := list (nat * str).

Fixpoint cap (i : nat) (c : caps) : option str :=
  match c with
  | [] => None
  | (j, v) :: c' => if Nat.eqb i j then Some v else cap i c'
  end.

Section Matcher.
Variable A : Type.
(** length of the whole subject, to recognise its start *)
Variable total : nat.

(** The iterations of a greedy star over a matcher [ma] of its body:
    one more iteration is tried first and has to consume input, then the
    continuation [k] at the current position. *)
Definition star_loop
    (ma : str -> caps -> (str -> caps -> option A) -> option A)
    (k : str -> caps -> option A)
  : nat -> str -> caps -> option A :=
  fix loop (fuel : nat) (s : str) (c : caps) {struct fuel} : option A :=
    match fuel with
    | O => k s c
    | S fuel' =>
        match ma s c (fun s' c' =>
                        if (length s' <? length s)%nat
                        then loop fuel' s' c' else None) with
        | Some x => Some x
        | None => k s c
        end
    end.

(** [mt r s c k]: match [r] at the front of the remaining input [s] with
    captures [c], then continue with [k]; the first success in
    backtracking order wins. *)
Fixpoint mt (r : re) (s : str) (c : caps)
            (k : str -> caps -> option A) {struct r} : option A :=
  match r with
  | Eps => k s c
  | Chr p =>
      match s with
      | x :: s' => if p x then k s' c else None
      | [] => None
      end
  | Seq a b => mt a s c (fun s' c' => mt b s' c' k)
  | Alt a b =>
      match mt a s c k with
      | Some x => Some x
      | None => mt b s c k
      end
  | Star a => star_loop (mt a) k (length s) s c
  | Opt a =>
      match mt a s c k with
      | Some x => Some x
      | None => k s c
      end
  | Group i a =>
      mt a s c
         (fun s' c' => k s' ((i, firstn (length s - length s') s) :: c'))
  | Bol => if Nat.eqb (length s) total then k s c else None
  | Eol => match s with [] => k s c | _ :: _ => None end
  end.
End Matcher.

(** the numbers of the capturing groups of a pattern *)
Fixpoint groups_of (r : re) : list nat :=
  match r with
  | Eps | Chr _ | Bol | Eol => []
  | Seq a b | Alt a b => groups_of a ++ groups_of b
  | Star a | Opt a => groups_of a
  | Group i a => i :: groups_of a
  end.

(** The greedy star of a class by recursion on the input: the longest run
    first, then one unit less, down to the empty run. *)
Fixpoint star_chr (A : Type) (p : N -> bool) (k : str -> caps -> option A)
                  (s : str) (c : caps) : option A :=
  match s with
  | x :: s' =>
      if p x then
        match star_chr p k s' c with
        | Some r => Some r
        | None => k s c
        end
      else k s c
  | [] => k [] c
  end.

(** One match: the input skipped before it, what it matched, the captures
    and the input left after it. *)
Record result := {
  pre : str;
  matched : str;
  groups : caps;
  rest : str
}.

Definition skip (x : N) (m : result) : result :=
  {| pre := x :: pre m; matched := matched m; groups := groups m;
     rest := rest m |}.

(** Match [r] exactly at the front of [s], [s] being a suffix of a subject
    of length [total]. *)
Definition match_here (total : nat) (r : re) (s : str)
  : option (str * caps) :=
  mt total r s [] (fun s' c' => Some (s', c')).

(** Search for the leftmost match in [s], trying the start positions from
    the front of [s] on. *)
Fixpoint search (total : nat) (r : re) (s : str) : option result :=
  match match_here total r s with
  | Some (s', c) =>
      Some {| pre := [];
              matched := firstn (length s - length s') s;
              groups := c;
              rest := s' |}
  | None =>
      match s with
      | [] => None
      | x :: s' => option_map (skip x) (search total r s')
      end
  end.

(** [r.exec(s)] / [s.match(r)] without the g flag. *)
Definition exec (r : re) (s : str) : option result :=
  search (length s) r s.

(** [r.test(s)], also the truth value of [s.match(r)] *)
Definition test (r : re) (s : str) : bool :=
  match exec r s with Some _ => true | None => false end.

(** All matches of a global regex in order: [s.match(/r/g)], or the
    sequence of results of [while ((m = r.exec(s)) !== null)].  After a
    match the search resumes where it ended (one unit further after an
    empty match). *)
Fixpoint match_all_from (fuel : nat) (total : nat) (r : re) (s : str)
  : list result :=
  match fuel with
  | O => []
  | S fuel' =>
      match search total r s with
      | None => []
      | Some m =>
          m :: match matched m, rest m with
               | [], [] => []
               | [], _ :: s' => match_all_from fuel' total r s'
               | _ :: _, s' => match_all_from fuel' total r s'
               end
      end
  end.

Definition match_all (r : re) (s : str) : list result :=
  match_all_from (S (length s)) (length s) r s.

(** [s.replace(/r/g, by)] with a constant replacement. *)
Fixpoint replace_from (fuel : nat) (total : nat) (r : re) (by_ : str)
                      (s : str) : str :=
  match fuel with
  | O => s
  | S fuel' =>
      match search total r s with
      | None => s
      | Some m =>
          pre m ++ by_ ++
          match matched m, rest m with
          | [], [] => []
          | [], x :: s' => x :: replace_from fuel' total r by_ s'
          | _ :: _, s' => replace_from fuel' total r by_ s'
          end
      end
  end.

Definition replace_all (r : re) (by_ : str) (s : str) : str :=
  replace_from (S (length s)) (length s) r by_ s.

(** *** Building blocks for the literals of the source *)

(** the test of [ch] *)
Definition same (ci : bool) (c x : N) : bool :=
  if ci then (lower x =? lower c)%N else (x =? c)%N.

(** a literal code unit; with the i flag both letter cases match *)
Definition ch (ci : bool) (c : N) : re := Chr (same ci c).

(** [s] begins with the literal [wd], letter case aside when [ci] *)
Fixpoint starts (ci : bool) (wd s : str) : bool :=
  match wd, s with
  | [], _ => true
  | _ :: _, [] => false
  | a :: wd', b :: s' => same ci a b && starts ci wd' s'
  end.

(** a literal string *)
Fixpoint word (ci : bool) (s : str) : re :=
  match s with
  | [] => Eps
  | [c] => ch ci c
  | c :: s' => Seq (ch ci c) (word ci s')
  end.

Definition w (ci : bool) (s : string) : re := word ci (lit s).
Arguments w ci s%_string.

(** any unit but the greater-than sign: the class written [^>] *)
Definition not_gt : re := Chr (fun x => negb (x =? 62)%N).
(** a double or a single quote *)
Definition quote : re := Chr (fun x => (x =? dq)%N || (x =? sq)%N).
(** any unit but a double or a single quote *)
Definition not_quote : re :=
  Chr (fun x => negb ((x =? dq)%N || (x =? sq)%N)).
(** white space or the zero-width space U+200B *)
Definition space_or_zwsp : re :=
  Chr (fun x => is_space x || (x =? 8203)%N).

Fixpoint seq (l : list re) : re :=
  match l with
  | [] => Eps
  | [a] => a
  | a :: l' => Seq a (seq l')
  end.

End Regex.

(* ===================================================================== *)
(** ** server/routes.ts: the pure helpers *)
(* ===================================================================== *)

Module Routes.
Import Js Regex.

(** *** extractSummary *)

(** The regex that matches one markup tag: a less-than sign, any units but
    greater-than, a greater-than sign. *)
Definition tagRe : re := seq [ch false 60; Star not_gt; ch false 62].

Definition ellipsis : str := lit "...".

(** [extractSummary(content, maxLength)]; [None] is null.  An undefined or
    empty [content] is falsy. *)
Definition extractSummary (content : option str) (maxLength : nat)
  : option str :=
  match content with
  | None | Some [] => None
  | Some content =>
      let text := trim (replace_all tagRe [] content) in
      if (length text <=? maxLength)%nat then Some text
      else
        let lastSpace := lastIndexOf 32 maxLength text in
        Some (substring0 (if (lastSpace >? 0)%Z then Z.to_nat lastSpace
                          else maxLength) text ++ ellipsis)
  end.

(** the default value of [maxLength] *)
Definition maxLengthDefault : nat := 200.

(** *** normalizeUrl *)

(** leading or trailing run of white space and zero-width spaces *)
Definition edgeRe : re :=
  Alt (Seq Bol (Plus space_or_zwsp)) (Seq (Plus space_or_zwsp) Eol).

(** a leading http:// or https://, i flag *)
Definition schemeRe : re :=
  seq [Bol; w true "http"; Opt (ch true 115); w true "://"].

Definition normalizeUrl (input : str) : str :=
  let url := trim input in
  let url := replace_all edgeRe [] url in
  if negb (test schemeRe url) then lit "https://" ++ url else url.

(** *** escapeXml *)

Definition replace_char (c : N) (by_ : str) (s : str) : str :=
  replace_all (ch false c) by_ s.

Definition escapeXml (s : str) : str :=
  replace_char sq (lit "&apos;")
    (replace_char dq (lit "&quot;")
      (replace_char 62 (lit "&gt;")
        (replace_char 60 (lit "&lt;")
          (replace_char 38 (lit "&amp;") s)))).

(** *** discoverFeeds *)

(** the MIME alternatives of a feed link, captured as group [i] *)
Definition mimeRe (i : nat) : re :=
  Group i (Alt (seq [w true "application/";
                     Alt (w true "rss") (w true "atom");
                     w true "+xml"])
               (w true "text/xml")).

(** the optional title attribute, captured as group 3 *)
Definition titleOptRe : re :=
  Opt (seq [w true "title="; quote; Group 3 (Plus not_quote); quote]).

(** the common tail of both patterns *)
Definition tailRe : list re :=
  [Star not_gt; titleOptRe; Star not_gt; Opt (ch true 47); ch true 62].

(** that tail behind its first greedy run *)
Definition tailBody : re :=
  seq [titleOptRe; Star not_gt; Opt (ch true 47); ch true 62].

(** Pattern 1: type before href; groups: 1 type, 2 href, 3 title. *)
Definition pattern1 : re :=
  seq ([w true "<link"; Plus not_gt; w true "type="; quote; mimeRe 1; quote;
        Star not_gt; w true "href="; quote; Group 2 (Plus not_quote); quote]
       ++ tailRe).

(** Pattern 2: href before type; groups: 1 href, 2 type, 3 title. *)
Definition pattern2 : re :=
  seq ([w true "<link"; Star not_gt; w true "href="; quote;
        Group 1 (Plus not_quote); quote; Star not_gt; w true "type=";
        quote; mimeRe 2; quote]
       ++ tailRe).

Record candidate := {
  c_url : str;
  c_title : str;
  c_type : str
}.

(** the items of a parsed feed, as rss-parser delivers them *)
Record item := {
  i_guid : option str;
  i_link : option str;
  i_title : option str;
  i_contentEncoded : option str;
  i_content : option str;
  i_contentSnippet : option str;
  i_creator : option str;
  i_author : option str;
  i_enclosureUrl : option str;
  i_pubDate : option str
}.

Record parsedFeed := {
  pf_title : option str;
  pf_link : option str;
  pf_description : option str;
  pf_items : option (list item)
}.

(** what [fetch] gave: it threw, or a response with its [ok] flag and
    body *)
Inductive fetched :=
| FetchThrew
| Response (ok : bool) (body : str).

Definition commonPaths : list str :=
  [lit "/feed"; lit "/feed/"; lit "/rss"; lit "/rss.xml"; lit "/atom.xml";
   lit "/feed.xml"; lit "/index.xml"; lit "/blog/feed"; lit "/blog/rss"].

Section Discover.
(** [new URL(href, base).toString()], [None] when it throws *)
Variable resolveUrl : str -> str -> option str.
(** [parseFeed(url)]: the parsed feed when [success] *)
Variable parseFeed : str -> option parsedFeed.

Definition feedKind (type : str) : str :=
  if includes (lit "atom") type then lit "Atom" else lit "RSS".

(** The body of both while loops over the matches of a pattern, [gh] and
    [gt] being the group numbers of href and type.  [None] when
    [new URL] throws.  State: the feeds found and the processed URLs. *)
Definition linkStep (base : str) (gh gt : nat) (m : result)
                    (st : list candidate * list str)
  : option (list candidate * list str) :=
  let '(feeds, processedUrls) := st in
  let type := or_str (cap gt (groups m)) [] in
  let href := or_str (cap gh (groups m)) [] in
  let title := or_str (cap 3 (groups m)) (lit "RSS Feed") in
  let resolved :=
    if negb (startsWith (lit "http") href) then resolveUrl href base
    else Some href in
  match resolved with
  | None => None
  | Some href =>
      if negb (existsb (str_eqb href) processedUrls) then
        Some (feeds ++ [{| c_url := href; c_title := title;
                           c_type := feedKind type |}],
              processedUrls ++ [href])
      else Some st
  end.

(** A while loop over the matches; on an exception the feeds gathered so
    far are what the enclosing catch leaves in [feeds]. *)
Fixpoint linkLoop (base : str) (gh gt : nat) (ms : list result)
                  (st : list candidate * list str)
  : (list candidate * list str) * bool :=
  match ms with
  | [] => (st, false)
  | m :: ms' =>
      match linkStep base gh gt m st with
      | None => (st, true)
      | Some st' => linkLoop base gh gt ms' st'
      end
  end.

(** the probe of the conventional paths; the first that parses wins *)
Fixpoint probe (base : str) (paths : list str) : list candidate :=
  match paths with
  | [] => []
  | path :: paths' =>
      match resolveUrl path base with
      | None => probe base paths'
      | Some feedUrl =>
          match parseFeed feedUrl with
          | Some feed =>
              [{| c_url := feedUrl;
                  c_title := or_str (pf_title feed) (lit "RSS Feed");
                  c_type := lit "RSS" |}]
          | None => probe base paths'
          end
      end
  end.

(** the candidates of the two while loops over the link tags of [html] *)
Definition declaredFeeds (url : str) (html : str) : list candidate * bool :=
  let '(st1, threw1) :=
    linkLoop url 2 1 (match_all pattern1 html) ([], []) in
  if threw1 then (fst st1, true)
  else
    let '(st2, threw2) :=
      linkLoop url 1 2 (match_all pattern2 html) st1 in
    (fst st2, threw2).

(** [discoverFeeds(url)], given what [fetch(url)] returned and whether
    [new URL(url)] succeeds. *)
Definition discoverFeeds (url : str) (validBase : bool) (resp : fetched)
  : list candidate :=
  match resp with
  | FetchThrew => []
  | Response false _ => []
  | Response true html =>
      if negb validBase then []
      else
        match declaredFeeds url html with
        | (feeds, true) => feeds
        | ([], false) => probe url commonPaths
        | (feeds, false) => feeds
        end
  end.
End Discover.

End Routes.

(* ===================================================================== *)
(** ** server/storage.ts: the persistence layer *)
(* ===================================================================== *)

Module Storage.
Import Js.

(** The tables are those of shared/schema.ts.  A column without
    [notNull()] may hold null, [None] here.  The keys of the rows are
    [varchar] columns filled by [gen_random_uuid()]; here they are drawn
    from a counter.  A timestamp is a number of milliseconds. *)
Definition id := nat.
Definition time := Z.

(** the table [feeds]: [url] is unique, [category_id] references
    [categories.id], [error_count] is an [integer] with default 0,
    [is_active] a [boolean] with default true *)
Record Feed := {
  f_id : id;
  f_url : str;
  f_siteUrl : option str;
  f_title : str;
  f_description : option str;
  f_favicon : option str;
  f_categoryId : option id;
  f_lastFetched : option time;
  f_errorCount : option Z;
  f_isActive : option bool
}.

(** the table [articles]: [feed_id] references [feeds.id]; [is_read] and
    [is_bookmarked] are [boolean] columns with default false *)
Record Article := {
  a_id : id;
  a_feedId : id;
  a_title : str;
  a_url : str;
  a_content : option str;
  a_summary : option str;
  a_author : option str;
  a_imageUrl : option str;
  a_publishedAt : option time;
  a_isRead : option bool;
  a_isBookmarked : option bool;
  a_guid : str
}.

(** the table [categories]: [color] has the default "#6366f1", [order] is
    an [integer] with default 0 *)
Record Category := {
  c_id : id;
  c_name : str;
  c_color : option str;
  c_order : option Z
}.

(** what [createFeed] is given: the routes name every field of
    [InsertFeed], null being [None] *)
Record InsertFeed := {
  if_title : str;
  if_url : str;
  if_siteUrl : option str;
  if_description : option str;
  if_favicon : option str;
  if_categoryId : option id;
  if_isActive : option bool
}.

(** what [createArticle] is given: the routes name every field of
    [InsertArticle], null being [None] *)
Record InsertArticle := {
  ia_feedId : id;
  ia_title : str;
  ia_url : str;
  ia_content : option str;
  ia_summary : option str;
  ia_author : option str;
  ia_imageUrl : option str;
  ia_publishedAt : option time;
  ia_isRead : option bool;
  ia_isBookmarked : option bool;
  ia_guid : str
}.

(** the fields the routes pass to [updateFeed] *)
Record FeedPatch := {
  p_lastFetched : option time;
  p_errorCount : option Z
}.

(** the three tables and the source of fresh identities *)
Record db := {
  feeds : list Feed;
  articles : list Article;
  categories : list Category;
  nextId : id
}.

Definition empty : db :=
  {| feeds := []; articles := []; categories := []; nextId := 0 |}.

(** what makes the database refuse a statement of the routes below *)
Inductive violation :=
| UniqueUrl        (* a second feed with the same url *)
| CategoryKey      (* a feed whose category_id no category has *)
| FeedKey          (* an article whose feed_id no feed has *)
| IntegerRange.    (* a number that an integer column cannot hold *)

(** an exception that reaches a route: a statement refused by the
    database, or any other exception, with its message *)
Inductive exn :=
| Violation (v : violation)
| Exn (message : str).

(** the values of an [integer] column: 32 bits, signed *)
Definition int4 (n : Z) : bool :=
  (-2147483648 <=? n)%Z && (n <=? 2147483647)%Z.

(** a nullable boolean that is true: what JavaScript takes as true and
    what [eq(column, true)] selects *)
Definition is_true (b : option bool) : bool :=
  match b with Some true => true | _ => false end.

(** what [eq(column, false)] selects: null is not false *)
Definition is_false (b : option bool) : bool :=
  match b with Some false => true | _ => false end.

(** the order of strings by code units: the collation C *)
Fixpoint str_leb (a b : str) : bool :=
  match a, b with
  | [], _ => true
  | _ :: _, [] => false
  | x :: a', y :: b' =>
      if (x <? y)%N then true
      else if (y <? x)%N then false
      else str_leb a' b'
  end.

Section Sort.
Variable A : Type.
Variable leb : A -> A -> bool.

Fixpoint insert_sorted (x : A) (l : list A) : list A :=
  match l with
  | [] => [x]
  | y :: l' => if leb x y then x :: l else y :: insert_sorted x l'
  end.

Definition order_by (l : list A) : list A :=
  fold_right insert_sorted [] l.
End Sort.

(** ascending order of a nullable integer column: null comes last; [tie]
    decides between equal values *)
Definition asc_nulls_last (a b : option Z) (tie : bool) : bool :=
  match a, b with
  | Some x, Some y =>
      if (x <? y)%Z then true else if (y <? x)%Z then false else tie
  | Some _, None => true
  | None, Some _ => false
  | None, None => tie
  end.

(** descending order of a nullable timestamp column: null comes first *)
Definition desc_nulls_first (a b : option time) : bool :=
  match a, b with
  | None, _ => true
  | Some _, None => false
  | Some x, Some y => (y <=? x)%Z
  end.

(** [getCategories()]: ordered by order, then name.  [collate a b] says
    that [a] is not after [b] in the order the database gives to text. *)
Definition getCategories (collate : str -> str -> bool) (d : db)
  : list Category :=
  order_by (fun a b => asc_nulls_last (c_order a) (c_order b)
                                      (collate (c_name a) (c_name b)))
           (categories d).

(** [getCategory(id)] *)
Definition getCategory (d : db) (i : id) : option Category :=
  find (fun c => Nat.eqb (c_id c) i) (categories d).

(** [createCategory({ name })]; color and order take their defaults *)
Definition createCategory (d : db) (name : str) : db * Category :=
  let c := {| c_id := nextId d; c_name := name;
              c_color := Some (lit "#6366f1"); c_order := Some 0%Z |} in
  ({| feeds := feeds d; articles := articles d;
      categories := categories d ++ [c]; nextId := S (nextId d) |}, c).

(** [getFeeds()]: ordered by title.  The joined category and the unread
    count of each row are added by [getFeedsWithCategory] below. *)
Definition getFeeds (collate : str -> str -> bool) (d : db) : list Feed :=
  order_by (fun a b => collate (f_title a) (f_title b)) (feeds d).

(** [getFeedByUrl(url)] *)
Definition getFeedByUrl (d : db) (url : str) : option Feed :=
  find (fun f => str_eqb (f_url f) url) (feeds d).

(** [getFeed(id)] *)
Definition getFeed (d : db) (i : id) : option Feed :=
  find (fun f => Nat.eqb (f_id f) i) (feeds d).

(** the row of an accepted insert into [feeds] joins the table:
    lastFetched starts null, errorCount at its default 0 *)
Definition appendFeed (d : db) (f : InsertFeed) : db * Feed :=
  let row := {| f_id := nextId d; f_url := if_url f;
                f_siteUrl := if_siteUrl f; f_title := if_title f;
                f_description := if_description f;
                f_favicon := if_favicon f;
                f_categoryId := if_categoryId f;
                f_lastFetched := None; f_errorCount := Some 0%Z;
                f_isActive := if_isActive f |} in
  ({| feeds := feeds d ++ [row]; articles := articles d;
      categories := categories d; nextId := S (nextId d) |}, row).

(** [createFeed(feed)]: the insert is refused when a feed has the url, or
    when no category has the category named *)
Definition createFeed (d : db) (f : InsertFeed) : violation + db * Feed :=
  if existsb (fun g => str_eqb (f_url g) (if_url f)) (feeds d)
  then inl UniqueUrl
  else
    match if_categoryId f with
    | Some c =>
        if existsb (fun k => Nat.eqb (c_id k) c) (categories d)
        then inr (appendFeed d f)
        else inl CategoryKey
    | None => inr (appendFeed d f)
    end.

Definition patch (p : FeedPatch) (f : Feed) : Feed :=
  {| f_id := f_id f; f_url := f_url f; f_siteUrl := f_siteUrl f;
     f_title := f_title f; f_description := f_description f;
     f_favicon := f_favicon f; f_categoryId := f_categoryId f;
     f_lastFetched :=
       match p_lastFetched p with Some t => Some t
                                | None => f_lastFetched f end;
     f_errorCount :=
       match p_errorCount p with Some n => Some n
                               | None => f_errorCount f end;
     f_isActive := f_isActive f |}.

(** an accepted update of [feeds]: the rows with this id take the fields
    of the patch; no row, no change *)
Definition setFeed (d : db) (i : id) (p : FeedPatch) : db :=
  {| feeds := map (fun f => if Nat.eqb (f_id f) i then patch p f else f)
                  (feeds d);
     articles := articles d; categories := categories d;
     nextId := nextId d |}.

(** [updateFeed(id, patch)]: the update is refused when the errorCount of
    the patch is no value of the column *)
Definition updateFeed (d : db) (i : id) (p : FeedPatch) : violation + db :=
  match p_errorCount p with
  | Some n => if int4 n then inr (setFeed d i p) else inl IntegerRange
  | None => inr (setFeed d i p)
  end.

(** [getArticleByGuid(feedId, guid)] *)
Definition getArticleByGuid (d : db) (feedId : id) (guid : str)
  : option Article :=
  find (fun a => Nat.eqb (a_feedId a) feedId && str_eqb (a_guid a) guid)
       (articles d).

Definition row_of (i : id) (a : InsertArticle) : Article :=
  {| a_id := i; a_feedId := ia_feedId a; a_title := ia_title a;
     a_url := ia_url a; a_content := ia_content a;
     a_summary := ia_summary a; a_author := ia_author a;
     a_imageUrl := ia_imageUrl a; a_publishedAt := ia_publishedAt a;
     a_isRead := ia_isRead a; a_isBookmarked := ia_isBookmarked a;
     a_guid := ia_guid a |}.

(** the row of an accepted insert into [articles] joins the table *)
Definition appendArticle (d : db) (a : InsertArticle) : db :=
  {| feeds := feeds d;
     articles := articles d ++ [row_of (nextId d) a];
     categories := categories d; nextId := S (nextId d) |}.

(** [createArticle(article)].  The insert is refused when no feed has the
    feed_id.  It is also the call of the item loops whose outcome depends
    on the values it is given (a date that does not parse cannot be
    written, a text with a NUL unit is not accepted): [refuses] gives the
    message of the exception then.  The text of a row is stored as it is
    given: how the connection encodes a lone surrogate is not modelled. *)
Definition createArticle (refuses : InsertArticle -> option str)
                         (d : db) (a : InsertArticle) : exn + db :=
  match refuses a with
  | Some msg => inl (Exn msg)
  | None =>
      if existsb (fun f => Nat.eqb (f_id f) (ia_feedId a)) (feeds d)
      then inr (appendArticle d a)
      else inl (Violation FeedKey)
  end.

(** [feed.errorCount || 0] *)
Definition errorCountOr0 (f : Feed) : Z :=
  match f_errorCount f with Some n => n | None => 0%Z end.

Record health := {
  totalFeeds : nat;
  failingFeeds : nat;
  feedsWithErrors : list Feed
}.

(** [getFeedHealthStats()] *)
Definition getFeedHealthStats (d : db) : health :=
  let allFeeds := feeds d in
  let feedsWithErrors :=
    filter (fun feed => (errorCountOr0 feed >=? 3)%Z) allFeeds in
  {| totalFeeds := length allFeeds;
     failingFeeds := length feedsWithErrors;
     feedsWithErrors := feedsWithErrors |}.

(** SELECT feedId, count() FROM articles WHERE isRead = false GROUP BY
    feedId: one row for every feed that has an unread article *)
Fixpoint countInto (k : id) (m : list (id * nat)) : list (id * nat) :=
  match m with
  | [] => [(k, 1)]
  | (k', n) :: m' =>
      if Nat.eqb k k' then (k', S n) :: m' else (k', n) :: countInto k m'
  end.

Definition unreadCounts (d : db) : list (id * nat) :=
  fold_left (fun m a => countInto (a_feedId a) m)
            (filter (fun a => is_false (a_isRead a)) (articles d)) [].

(** [unreadMap.get(id) || 0] *)
Definition unreadOf (unreadMap : list (id * nat)) (i : id) : nat :=
  match find (fun uc => Nat.eqb (fst uc) i) unreadMap with
  | Some (_, n) => n
  | None => 0
  end.

(** a row of [getFeeds()]: the feed, its category and its unread count *)
Record FeedWithCategory := {
  fw_feed : Feed;
  fw_category : option Category;
  fw_unreadCount : nat
}.

(** [getFeeds()] with the joined category and the unread count of every
    row; [getFeeds] above gives the feeds themselves *)
Definition getFeedsWithCategory (collate : str -> str -> bool) (d : db)
  : list FeedWithCategory :=
  let unreadMap := unreadCounts d in
  map (fun feed =>
         {| fw_feed := feed;
            fw_category :=
              match f_categoryId feed with
              | Some c => getCategory d c
              | None => None
              end;
            fw_unreadCount := unreadOf unreadMap (f_id feed) |})
      (getFeeds collate d).

(** the options of [getArticles]; [o_feedId] and [o_search] are undefined
    or empty when [None], and a limit of 0 is falsy like an undefined
    one *)
Record articleOptions := {
  o_feedId : option id;
  o_unread : bool;
  o_bookmarked : bool;
  o_search : option str;
  o_limit : option nat;
  o_offset : option nat
}.

Section Articles.
(** [column ILIKE pattern] of the database *)
Variable ilike : str -> str -> bool.

(** the WHERE clause: the conditions pushed, joined by AND *)
Definition whereClause (options : articleOptions) (a : Article) : bool :=
  match o_feedId options with
  | Some feedId => Nat.eqb (a_feedId a) feedId
  | None => true
  end
  && (if o_unread options then is_false (a_isRead a) else true)
  && (if o_bookmarked options then is_true (a_isBookmarked a) else true)
  && match o_search options with
     | Some (x :: s) =>
         let searchPattern := lit "%" ++ (x :: s) ++ lit "%" in
         ilike (a_title a) searchPattern
         || match a_summary a with
            | Some summary => ilike summary searchPattern
            | None => false
            end
     | _ => true
     end.

(** [getArticles(options)]: the rows that satisfy the conditions, newest
    first, from [offset || 0] on and at most [limit || 100] of them, each
    with its feed *)
Definition getArticles (options : articleOptions) (d : db)
  : list (Article * option Feed) :=
  let rows :=
    order_by (fun a b => desc_nulls_first (a_publishedAt a)
                                          (a_publishedAt b))
             (filter (whereClause options) (articles d)) in
  let limit := match o_limit options with
               | Some (S n) => S n
               | _ => 100
               end in
  let offset := match o_offset options with
                | Some n => n
                | None => 0
                end in
  map (fun a => (a, getFeed d (a_feedId a)))
      (firstn limit (skipn offset rows)).
End Articles.

(** [getArticle(id)]: the row with its feed *)
Definition getArticle (d : db) (i : id) : option (Article * option Feed) :=
  match find (fun a => Nat.eqb (a_id a) i) (articles d) with
  | Some a => Some (a, getFeed d (a_feedId a))
  | None => None
  end.

(** the fields PATCH /api/articles/:id passes to [updateArticle], each a
    boolean when present.  An update needs a field to set: what the query
    builder does with a patch that has none is not part of the properties
    below *)
Record ArticlePatch := {
  ap_isRead : option bool;
  ap_isBookmarked : option bool
}.

Definition patchArticle (p : ArticlePatch) (a : Article) : Article :=
  {| a_id := a_id a; a_feedId := a_feedId a; a_title := a_title a;
     a_url := a_url a; a_content := a_content a; a_summary := a_summary a;
     a_author := a_author a; a_imageUrl := a_imageUrl a;
     a_publishedAt := a_publishedAt a;
     a_isRead :=
       match ap_isRead p with Some b => Some b | None => a_isRead a end;
     a_isBookmarked :=
       match ap_isBookmarked p with Some b => Some b
                                  | None => a_isBookmarked a end;
     a_guid := a_guid a |}.

(** [updateArticle(id, patch)]: the rows with this id take the fields of
    the patch, and the first of them is returned; no row, undefined *)
Definition updateArticle (d : db) (i : id) (p : ArticlePatch)
  : db * option Article :=
  ({| feeds := feeds d;
      articles := map (fun a => if Nat.eqb (a_id a) i then patchArticle p a
                                else a) (articles d);
      categories := categories d; nextId := nextId d |},
   option_map (patchArticle p)
              (find (fun a => Nat.eqb (a_id a) i) (articles d))).

(** [markAllArticlesRead(feedId)]: the articles of the feed, or all when
    [feedId] is absent or empty, are set read *)
Definition markAllArticlesRead (d : db) (feedId : option id) : db :=
  let read := patchArticle {| ap_isRead := Some true;
                              ap_isBookmarked := None |} in
  {| feeds := feeds d;
     articles :=
       map (fun a =>
              match feedId with
              | Some i => if Nat.eqb (a_feedId a) i then read a else a
              | None => read a
              end) (articles d);
     categories := categories d; nextId := nextId d |}.

Record articleStats := {
  unread : nat;
  bookmarked : nat
}.

(** [getArticleStats()] *)
Definition getArticleStats (d : db) : articleStats :=
  {| unread := length (filter (fun a => is_false (a_isRead a)) (articles d));
     bookmarked :=
       length (filter (fun a => is_true (a_isBookmarked a)) (articles d)) |}.

End Storage.

(* ===================================================================== *)
(** ** server/routes.ts: the handlers over the store *)
(* ===================================================================== *)

Module Handlers.
Import Js Regex Routes Storage.

Section Sync.
(** [new Date(s)] *)
Variable parseDate : str -> time.
(** the exception of a refused insert, see [createArticle] *)
Variable refuses : InsertArticle -> option str.

(** [item.guid || item.link || item.title || ""] *)
Definition guidOf (it : item) : str :=
  or_str (or_else (i_guid it) (or_else (i_link it) (i_title it))) [].

(** the object one item gives to [createArticle]; [now] is [new Date()] *)
Definition articleOf (feedId : id) (now : time) (it : item)
  : InsertArticle :=
  {| ia_feedId := feedId;
     ia_title := or_str (i_title it) (lit "Untitled");
     ia_url := or_str (i_link it) [];
     ia_content := or_else (i_contentEncoded it) (or_null (i_content it));
     ia_summary :=
       extractSummary (or_else (i_contentSnippet it) (i_content it))
                      maxLengthDefault;
     ia_author := or_else (i_creator it) (or_null (i_author it));
     ia_imageUrl := or_null (i_enclosureUrl it);
     ia_publishedAt :=
       Some match i_pubDate it with
            | Some (x :: s) => parseDate (x :: s)
            | _ => now
            end;
     ia_isRead := Some false;
     ia_isBookmarked := Some false;
     ia_guid := guidOf it |}.

(** The loop over the items of a parsed feed, one item after the other in
    the order delivered: look the guid up, skip when an article has it,
    create the article otherwise.  The result is the store, the number of
    articles created and, when [createArticle] threw, the exception; what
    was created before stays.  [clock k] is the clock read at the k-th
    item. *)
Fixpoint itemLoop (feedId : id) (clock : nat -> time) (k : nat)
                  (items : list item) (d : db) (created : nat)
  : db * nat * option exn :=
  match items with
  | [] => (d, created, None)
  | it :: items' =>
      let guid := guidOf it in
      match getArticleByGuid d feedId guid with
      | Some _ => itemLoop feedId clock (S k) items' d created
      | None =>
          match createArticle refuses d (articleOf feedId (clock k) it) with
          | inl msg => (d, created, Some msg)
          | inr d' => itemLoop feedId clock (S k) items' d' (S created)
          end
      end
  end.

(** [feed.items || []] and [items.slice(0, n)] *)
Definition itemsOf (n : nat) (pf : parsedFeed) : list item :=
  firstn n (match pf_items pf with Some l => l | None => [] end).

(** [{ errorCount: (feed.errorCount || 0) + 1 }] *)
Definition oneMoreError (feed : Feed) : FeedPatch :=
  {| p_lastFetched := None;
     p_errorCount := Some (errorCountOr0 feed + 1)%Z |}.

(** the catch branch of the callback: one more update, outside any try;
    an exception of it is the exception of the callback *)
Definition catchFeedError (feed : Feed) (d : db) (n : nat)
  : db * nat * option exn :=
  match updateFeed d (f_id feed) (oneMoreError feed) with
  | inr d' => (d', n, None)
  | inl v => (d, n, Some (Violation v))
  end.

(** The callback of POST /api/feeds/refresh for one feed: [feed] is the row
    read by [getFeeds()] when the refresh began, [parsed] what
    [parseFeed(feed.url)] gave, [now] the clock at the last update.  The
    result is the store, what the feed adds to [totalNewArticles] and,
    when the callback throws, its exception. *)
Definition syncFeed (clock : nat -> time) (now : time)
                    (parsed : option parsedFeed) (feed : Feed) (d : db)
  : db * nat * option exn :=
  match parsed with
  | None =>
      match updateFeed d (f_id feed) (oneMoreError feed) with
      | inr d' => (d', 0, None)
      | inl _ => catchFeedError feed d 0
      end
  | Some pf =>
      match itemLoop (f_id feed) clock 0 (itemsOf 50 pf) d 0 with
      | (d', n, None) =>
          match updateFeed d' (f_id feed)
                  {| p_lastFetched := Some now;
                     p_errorCount := Some 0%Z |} with
          | inr d'' => (d'', n, None)
          | inl _ => catchFeedError feed d' n
          end
      | (d', n, Some _) => catchFeedError feed d' n
      end
  end.

(** the store a sync leaves *)
Definition storeOf (r : db * nat * option exn) : db := fst (fst r).

(** the articles a sync counted *)
Definition countOf (r : db * nat * option exn) : nat := snd (fst r).

(** The sync of feed [i] within one refresh: the row the refresh read for it
    and what its callback does to the store. *)
Definition refreshOne (clock : nat -> time) (now : time)
                      (parsed : option parsedFeed) (i : id) (d : db) : db :=
  match getFeed d i with
  | Some feed => storeOf (syncFeed clock now parsed feed d)
  | None => d
  end.

(** [getFaviconUrl(siteUrl)]; [hostname] is [new URL(siteUrl).hostname],
    [None] when the URL does not parse *)
Definition getFaviconUrl (hostname : str -> option str) (siteUrl : str)
  : option str :=
  match hostname siteUrl with
  | Some h =>
      Some (lit "https://www.google.com/s2/favicons?domain=" ++ h
            ++ lit "&sz=32")
  | None => None
  end.

(** the outcomes of POST /api/feeds *)
Inductive addResult :=
| Created (f : Feed)          (* 201 *)
| UrlRequired                 (* 400 *)
| InvalidFeed                 (* 400, with the message of the parser *)
| Conflict                    (* 409 *)
| ServerError.                (* 500 *)

(** POST /api/feeds with body [{ url, categoryId }], the url a string;
    every exception ends in the one catch of the route *)
Definition addFeed (hostname : str -> option str)
                   (parseFeed : str -> option parsedFeed)
                   (clock : nat -> time) (now : time)
                   (url : str) (categoryId : option id) (d : db)
  : db * addResult :=
  match url with
  | [] => (d, UrlRequired)
  | _ =>
      let url := normalizeUrl url in
      match getFeedByUrl d url with
      | Some _ => (d, Conflict)
      | None =>
          match parseFeed url with
          | None => (d, InvalidFeed)
          | Some parsedFeed =>
              let siteUrl := or_str (pf_link parsedFeed) url in
              let favicon := getFaviconUrl hostname siteUrl in
              match createFeed d
                      {| if_title := or_str (pf_title parsedFeed)
                                            (lit "Untitled Feed");
                         if_url := url;
                         if_siteUrl := or_null (pf_link parsedFeed);
                         if_description :=
                           or_null (pf_description parsedFeed);
                         if_favicon := favicon;
                         if_categoryId := categoryId;
                         if_isActive := Some true |} with
              | inl _ => (d, ServerError)
              | inr (d1, feed) =>
                  match itemLoop (f_id feed) clock 0
                                 (itemsOf 50 parsedFeed) d1 0 with
                  | (d2, _, None) =>
                      match updateFeed d2 (f_id feed)
                              {| p_lastFetched := Some now;
                                 p_errorCount := None |} with
                      | inr d3 => (d3, Created feed)
                      | inl _ => (d2, ServerError)
                      end
                  | (d2, _, Some _) => (d2, ServerError)
                  end
              end
          end
      end
  end.

End Sync.

(** *** OPML export *)

(** a template literal of the source, the single quote standing for the
    double quote *)
Definition tpl (s : string) : str :=
  map (fun c => if (c =? sq)%N then dq else c) (lit s).
Arguments tpl s%_string.

Definition nl : str := [10%N].

(** [feedsByCategory]: a Map from category id (or null) to feeds, in
    insertion order *)
Definition feedMap := list (option id * list Feed).

Definition key_eqb (a b : option id) : bool :=
  match a, b with
  | None, None => true
  | Some x, Some y => Nat.eqb x y
  | _, _ => false
  end.

Fixpoint map_get (m : feedMap) (k : option id) : option (list Feed) :=
  match m with
  | [] => None
  | (k', v) :: m' => if key_eqb k k' then Some v else map_get m' k
  end.

(** [if (!m.has(k)) m.set(k, []); m.get(k).push(f)] *)
Fixpoint map_push (m : feedMap) (k : option id) (f : Feed) : feedMap :=
  match m with
  | [] => [(k, [f])]
  | (k', v) :: m' =>
      if key_eqb k k' then (k', v ++ [f]) :: m'
      else (k', v) :: map_push m' k f
  end.

Definition groupFeeds (fs : list Feed) : feedMap :=
  fold_left (fun m f => map_push m (f_categoryId f) f) fs [].

(** [m.get(k) || []] *)
Definition map_get_or_empty (m : feedMap) (k : option id) : list Feed :=
  match map_get m k with Some v => v | None => [] end.

(** one feed outline, after the indentation *)
Definition feedOutline (feed : Feed) : str :=
  tpl "<outline type='rss' text='" ++ escapeXml (f_title feed)
  ++ tpl "' title='" ++ escapeXml (f_title feed)
  ++ tpl "' xmlUrl='" ++ escapeXml (f_url feed) ++ tpl "'"
  ++ match f_siteUrl feed with
     | Some (x :: s) => tpl " htmlUrl='" ++ escapeXml (x :: s) ++ tpl "'"
     | _ => []
     end
  ++ tpl " />".

Definition categoryOutline (category : Category) (categoryFeeds : list Feed)
  : str :=
  match categoryFeeds with
  | [] => []
  | _ =>
      nl ++ tpl "    <outline text='" ++ escapeXml (c_name category)
      ++ tpl "' title='" ++ escapeXml (c_name category) ++ tpl "'>"
      ++ concat (map (fun feed => nl ++ tpl "      " ++ feedOutline feed)
                     categoryFeeds)
      ++ nl ++ tpl "    </outline>"
  end.

(** GET /api/opml/export; [isoNow] is [new Date().toISOString()] *)
Definition exportOpml (collate : str -> str -> bool) (isoNow : str) (d : db)
  : str :=
  let feeds := getFeeds collate d in
  let categories := getCategories collate d in
  let feedsByCategory := groupFeeds feeds in
  tpl "<?xml version='1.0' encoding='UTF-8'?>" ++ nl
  ++ tpl "<opml version='2.0'>" ++ nl
  ++ tpl "  <head>" ++ nl
  ++ tpl "    <title>ModernFeed RSS Subscriptions</title>" ++ nl
  ++ tpl "    <dateCreated>" ++ isoNow ++ tpl "</dateCreated>" ++ nl
  ++ tpl "  </head>" ++ nl
  ++ tpl "  <body>"
  ++ concat (map (fun category =>
                    categoryOutline category
                      (map_get_or_empty feedsByCategory
                                        (Some (c_id category))))
                 categories)
  ++ concat (map (fun feed => nl ++ tpl "    " ++ feedOutline feed)
                 (map_get_or_empty feedsByCategory None))
  ++ nl ++ tpl "  </body>" ++ nl ++ tpl "</opml>".

(** *** OPML import *)

Definition outlineRegex : re :=
  seq [w true "<outline"; Star not_gt; ch true 62].

(** an attribute with a quoted non-empty value, i flag, value in group 1 *)
Definition attrRe (name : string) : re :=
  seq [w true name; ch true 61; quote; Group 1 (Plus not_quote); quote].

(** [m.match(re)?.[1]] *)
Definition attr (name : string) (tag : str) : option str :=
  match exec (attrRe name) tag with
  | Some m => cap 1 (groups m)
  | None => None
  end.

Record feedInfo := {
  fi_url : str;
  fi_title : option str;
  fi_category : option str
}.

(** the loop over the outline tags: the feed references found and the
    current category *)
Definition outlineStep (st : list feedInfo * option str) (tag : str)
  : list feedInfo * option str :=
  let '(feedUrls, currentCategory) := st in
  let xmlUrlMatch := attr "xmlUrl" tag in
  let textMatch := attr "text" tag in
  let titleMatch := attr "title" tag in
  let typeMatch := attr "type" tag in
  match xmlUrlMatch with
  | Some url =>
      (feedUrls ++ [{| fi_url := url;
                       fi_title := or_else titleMatch textMatch;
                       fi_category := or_null currentCategory |}],
       currentCategory)
  | None =>
      match typeMatch, textMatch with
      | None, Some text => (feedUrls, Some text)
      | _, _ => st
      end
  end.

Definition parseOutlines (opml : str) : list feedInfo :=
  fst (fold_left outlineStep (map matched (match_all outlineRegex opml))
                 ([], None)).

Record importResult := {
  imported : nat;
  skipped : nat;
  total : nat;
  errors : list str
}.

Section OpmlImport.
Variable parseDate : str -> time.
Variable refuses : InsertArticle -> option str.
Variable hostname : str -> option str.
Variable parseFeed : str -> option parsedFeed.
(** [s.toLowerCase()] *)
Variable toLowerCase : str -> str.
Variable clock : nat -> time.
Variable now : time.
(** the order of text in the database, see [getCategories] *)
Variable collate : str -> str -> bool.
(** the message of a statement refused by the database *)
Variable pgMessage : violation -> str.

(** [err.message] *)
Definition messageOf (e : exn) : str :=
  match e with
  | Violation v => pgMessage v
  | Exn message => message
  end.

(** the category of an imported feed: the first one with the same name in
    lower case, else a new one *)
Definition resolveCategory (d : db) (category : option str)
  : db * option id :=
  match category with
  | Some (x :: s) =>
      let name := x :: s in
      match find (fun c => str_eqb (toLowerCase (c_name c))
                                   (toLowerCase name))
                 (getCategories collate d) with
      | Some existingCategory => (d, Some (c_id existingCategory))
      | None =>
          let '(d', newCategory) := createCategory d name in
          (d', Some (c_id newCategory))
      end
  | _ => (d, None)
  end.

(** the counters and the error list of the import *)
Record tally := {
  t_imported : nat;
  t_skipped : nat;
  t_errors : list str
}.

(** the catch of the loop: the error joins the list *)
Definition failed (t : tally) (info : feedInfo) (err : exn) : tally :=
  {| t_imported := t_imported t; t_skipped := t_skipped t;
     t_errors := t_errors t
                 ++ [lit "Error importing " ++ fi_url info
                     ++ lit ": " ++ messageOf err] |}.

(** the body of the loop over the feed references *)
Definition importOne (st : db * tally) (info : feedInfo) : db * tally :=
  let '(d, t) := st in
  match getFeedByUrl d (fi_url info) with
  | Some _ =>
      (d, {| t_imported := t_imported t; t_skipped := S (t_skipped t);
             t_errors := t_errors t |})
  | None =>
      match parseFeed (fi_url info) with
      | None =>
          (d, {| t_imported := t_imported t; t_skipped := t_skipped t;
                 t_errors := t_errors t
                             ++ [lit "Failed to parse: " ++ fi_url info] |})
      | Some parsedFeed =>
          let siteUrl := or_str (pf_link parsedFeed) (fi_url info) in
          let favicon := getFaviconUrl hostname siteUrl in
          let '(d1, categoryId) := resolveCategory d (fi_category info) in
          match createFeed d1
                  {| if_title :=
                       or_str (or_else (fi_title info) (pf_title parsedFeed))
                              (lit "Untitled Feed");
                     if_url := fi_url info;
                     if_siteUrl := or_null (pf_link parsedFeed);
                     if_description := or_null (pf_description parsedFeed);
                     if_favicon := favicon;
                     if_categoryId := categoryId;
                     if_isActive := Some true |} with
          | inl v => (d1, failed t info (Violation v))
          | inr (d2, feed) =>
              match itemLoop parseDate refuses (f_id feed) clock 0
                             (itemsOf 20 parsedFeed) d2 0 with
              | (d3, _, None) =>
                  match updateFeed d3 (f_id feed)
                          {| p_lastFetched := Some now;
                             p_errorCount := None |} with
                  | inr d4 =>
                      (d4, {| t_imported := S (t_imported t);
                              t_skipped := t_skipped t;
                              t_errors := t_errors t |})
                  | inl v => (d3, failed t info (Violation v))
                  end
              | (d3, _, Some err) => (d3, failed t info err)
              end
          end
      end
  end.

(** POST /api/opml/import with body [{ opml }]; [None] is the answer 400
    to an absent or empty document *)
Definition importOpml (opml : str) (d : db) : option (db * importResult) :=
  match opml with
  | [] => None
  | _ =>
      let feedUrls := parseOutlines opml in
      let '(d', t) :=
        fold_left importOne feedUrls
                  (d, {| t_imported := 0; t_skipped := 0;
                         t_errors := [] |}) in
      Some (d', {| imported := t_imported t; skipped := t_skipped t;
                   total := length feedUrls; errors := t_errors t |})
  end.

End OpmlImport.

(** *** Feed discovery *)

(** the answers of POST /api/feeds/discover *)
Inductive discoverResult :=
| DiscoverUrlRequired                                       (* 400 *)
| Discovered (directFeed : bool) (feeds : list candidate).  (* 200 *)

(** POST /api/feeds/discover with body [{ url }]; [validBase url] says
    whether [new URL(url)] succeeds and [fetch url] what [fetch] gave *)
Definition discoverRoute (resolveUrl : str -> str -> option str)
                         (parseFeed : str -> option parsedFeed)
                         (validBase : str -> bool) (fetch : str -> fetched)
                         (rawUrl : str) : discoverResult :=
  match rawUrl with
  | [] => DiscoverUrlRequired
  | _ =>
      let url := normalizeUrl rawUrl in
      match parseFeed url with
      | Some feed =>
          Discovered true
            [{| c_url := url;
                c_title := or_str (pf_title feed) (lit "RSS Feed");
                c_type := lit "RSS" |}]
      | None =>
          Discovered false
            (discoverFeeds resolveUrl parseFeed url (validBase url)
                           (fetch url))
      end
  end.

End Handlers.

(* ===================================================================== *)
(** ** server/routes.ts: the refresh, callback by callback *)
(* ===================================================================== *)

(** POST /api/feeds/refresh runs the callback of mapConcurrency for every
    active feed, several of them at a time.  A callback runs from one await
    to the next; in between the callbacks of other feeds may run.  Every
    await of the callback is a step here, the store being read or written
    at that step, and a schedule says whose step comes next: the runs of
    the route are among the schedules. *)

Module Refresh.
Import Js Routes Storage Handlers.

Section Refresh.
Variable parseDate : str -> time.
Variable refuses : InsertArticle -> option str.
(** [parseFeed(url)]: the parsed feed when [success] *)
Variable parseFeed : str -> option parsedFeed.
(** [new Date()] in the callback of a feed: at its k-th item, and at its
    last update *)
Variable clock : id -> nat -> time.
Variable now : id -> time.
(** the order of text in the database, see [getFeeds] *)
Variable collate : str -> str -> bool.

(** where the callback of a feed stands: the await it is at, or how it
    ended *)
Inductive phase :=
| Parsing                                   (* parseFeed(feed.url) *)
| Looking (k : nat) (it : item) (rest : list item)
                                            (* getArticleByGuid of [it] *)
| Creating (k : nat) (it : item) (rest : list item)
                                            (* createArticle of [it] *)
| Resetting       (* updateFeed with lastFetched and errorCount 0 *)
| Failed          (* updateFeed with errorCount + 1, the parse failed *)
| Counting        (* updateFeed with errorCount + 1, in the catch *)
| Done            (* the callback has returned *)
| Threw (e : exn).   (* the callback has thrown *)

(** the head of the for loop over the items left *)
Definition toItems (k : nat) (items : list item) : phase :=
  match items with
  | [] => Resetting
  | it :: rest => Looking k it rest
  end.

(** One step of the callback of [feed], the row read by [getFeeds()] when
    the refresh began: the phase after it, the store and the counter
    [totalNewArticles]; [None] when the callback has ended. *)
Definition advance (feed : Feed) (ph : phase) (d : db) (total : nat)
  : option (phase * db * nat) :=
  match ph with
  | Parsing =>
      match parseFeed (f_url feed) with
      | None => Some (Failed, d, total)
      | Some pf => Some (toItems 0 (itemsOf 50 pf), d, total)
      end
  | Looking k it rest =>
      match getArticleByGuid d (f_id feed) (guidOf it) with
      | Some _ => Some (toItems (S k) rest, d, total)
      | None => Some (Creating k it rest, d, total)
      end
  | Creating k it rest =>
      match createArticle refuses d
              (articleOf parseDate (f_id feed) (clock (f_id feed) k) it) with
      | inl _ => Some (Counting, d, total)
      | inr d' => Some (toItems (S k) rest, d', S total)
      end
  | Resetting =>
      match updateFeed d (f_id feed)
              {| p_lastFetched := Some (now (f_id feed));
                 p_errorCount := Some 0%Z |} with
      | inr d' => Some (Done, d', total)
      | inl _ => Some (Counting, d, total)
      end
  | Failed =>
      match updateFeed d (f_id feed) (oneMoreError feed) with
      | inr d' => Some (Done, d', total)
      | inl _ => Some (Counting, d, total)
      end
  | Counting =>
      match updateFeed d (f_id feed) (oneMoreError feed) with
      | inr d' => Some (Done, d', total)
      | inl v => Some (Threw (Violation v), d, total)
      end
  | Done | Threw _ => None
  end.

Record state := {
  store : db;
  callbacks : list (Feed * phase);
  totalNewArticles : nat
}.

Fixpoint set_phase (cs : list (Feed * phase)) (j : nat) (ph : phase)
  : list (Feed * phase) :=
  match cs, j with
  | [], _ => []
  | (f, _) :: cs', O => (f, ph) :: cs'
  | c :: cs', S j' => c :: set_phase cs' j' ph
  end.

(** the callback of the j-th active feed takes its next step *)
Definition step (j : nat) (st : state) : option state :=
  match nth_error (callbacks st) j with
  | Some (feed, ph) =>
      match advance feed ph (store st) (totalNewArticles st) with
      | Some (ph', d', total') =>
          Some {| store := d'; callbacks := set_phase (callbacks st) j ph';
                  totalNewArticles := total' |}
      | None => None
      end
  | None => None
  end.

Fixpoint run (schedule : list nat) (st : state) : option state :=
  match schedule with
  | [] => Some st
  | j :: schedule' =>
      match step j st with
      | Some st' => run schedule' st'
      | None => None
      end
  end.

(** the refresh begins: [getFeeds()], the active feeds, and a callback for
    each that has not taken a step *)
Definition begin (d : db) : state :=
  {| store := d;
     callbacks := map (fun feed => (feed, Parsing))
                      (filter (fun f => is_true (f_isActive f))
                              (getFeeds collate d));
     totalNewArticles := 0 |}.

(** the steps a callback has before it at most *)
Definition stepsLeft (ph : phase) : nat :=
  match ph with
  | Parsing => 102
  | Looking k it rest => 2 * length rest + 3
  | Creating k it rest => 2 * length rest + 2
  | Failed => 2
  | Resetting | Counting => 1
  | Done | Threw _ => 0
  end.

Definition allStepsLeft (st : state) : nat :=
  list_sum (map (fun c => stepsLeft (snd c)) (callbacks st)).

(** the identities of the feeds of the callbacks *)
Definition feedIds (cs : list (Feed * phase)) : list id :=
  map (fun c => f_id (fst c)) cs.

(** what the callback does once the item loop has ended, or thrown: the
    last update, the articles counted and the exception if it throws *)
Definition afterItems (feed : Feed) (r : db * nat * option exn)
  : db * nat * option exn :=
  match r with
  | (d, n, None) =>
      match updateFeed d (f_id feed)
              {| p_lastFetched := Some (now (f_id feed));
                 p_errorCount := Some 0%Z |} with
      | inr d' => (d', n, None)
      | inl _ => catchFeedError feed d n
      end
  | (d, n, Some _) => catchFeedError feed d n
  end.

(** how a callback that has ended ended *)
Definition endOf (ph : phase) : option exn :=
  match ph with
  | Threw e => Some e
  | _ => None
  end.

(** the callback has returned or thrown *)
Definition ended (ph : phase) : bool :=
  match ph with
  | Done | Threw _ => true
  | _ => false
  end.

(** the callback of one feed on its own, [n] steps *)
Fixpoint alone (feed : Feed) (n : nat) (ph : phase) (d : db) (total : nat)
  : phase * db * nat :=
  match n with
  | O => (ph, d, total)
  | S n' =>
      match advance feed ph d total with
      | Some (ph', d', total') => alone feed n' ph' d' total'
      | None => (ph, d, total)
      end
  end.

End Refresh.

End Refresh.

(* ===================================================================== *)
(** ** server/routes.ts: mapConcurrency on the event loop *)
(* ===================================================================== *)

(** JavaScript runs one job at a time: the body of the async function from
    one await to the next, and the reactions of the promises.  A state is
    what the program holds between two jobs; a step runs one job that is
    ready.  Which ready job runs next, and when the promise of an operation
    settles, is left to the schedule, so that the reachable states cover
    every order the event loop can produce. *)

Module Executor.

Section MapConcurrency.
Variables T R : Type.
(** how the promise of [fn(item)] settles: fulfilled with a value, or
    rejected (also when [fn] throws); when it settles is up to the event
    loop *)
Variable fn : T -> option R.
(** the limit, an integer; nothing in the source keeps it positive *)
Variable limit : Z.

(** The life of one admitted item [i], along the chain
    [p = Promise.resolve().then(() => fn(item)).then(push)],
    [e = p.then(splice)]. *)
Inductive status :=
| Queued               (* admitted; the job that calls fn(item) is queued *)
| Running              (* fn(item) called, its promise pending *)
| Fulfilled (r : R)    (* fn(item) fulfilled; the push is queued *)
| Pushed               (* result pushed; the splice is queued *)
| Spliced              (* e removed from executing and fulfilled *)
| Failing              (* fn(item) rejected; the rejection travels to e *)
| Rejected.            (* e rejected; it stays in executing *)

(** the promise of [Promise.race(executing)] or [Promise.all(executing)]:
    pending on the promises it was given, or settled *)
Inductive awaited :=
| Pending (snapshot : list nat)
| Settled (ok : bool).

(** where the body of mapConcurrency stands *)
Inductive main :=
| AwaitRace (rest : list T) (p : awaited)   (* in the loop, [rest] to go *)
| AwaitAll (p : awaited)                    (* after the loop *)
| Resolved (res : list R)                   (* returned [results] *)
| Thrown.                                   (* the returned promise rejected *)

Record state := {
  tasks : list (T * status);   (* the admitted items; [e] of item i is i *)
  executing : list nat;
  results : list R;
  calls : list T;              (* the arguments [fn] was called with *)
  pc : main
}.

Definition status_of (ts : list (T * status)) (i : nat) : option status :=
  option_map snd (nth_error ts i).

Fixpoint set_status (ts : list (T * status)) (i : nat) (s : status)
  : list (T * status) :=
  match ts, i with
  | [], _ => []
  | (x, _) :: ts', O => (x, s) :: ts'
  | t :: ts', S i' => t :: set_status ts' i' s
  end.

Definition is_spliced (ts : list (T * status)) (i : nat) : bool :=
  match status_of ts i with Some Spliced => true | _ => false end.

Definition is_rejected (ts : list (T * status)) (i : nat) : bool :=
  match status_of ts i with Some Rejected => true | _ => false end.

(** [Promise.race(l)]: the first promise of [l] already settled decides *)
Fixpoint race_of (ts : list (T * status)) (l : list nat) (all : list nat)
  : awaited :=
  match l with
  | [] => Pending all
  | i :: l' =>
      if is_spliced ts i then Settled true
      else if is_rejected ts i then Settled false
      else race_of ts l' all
  end.

(** [Promise.all(l)]: rejected with one rejected promise, fulfilled when all
    are *)
Definition all_of (ts : list (T * status)) (l : list nat) : awaited :=
  if existsb (is_rejected ts) l then Settled false
  else if forallb (is_spliced ts) l then Settled true
  else Pending l.

(** [l.splice(l.indexOf(i), 1)]: the first [i] is removed; an index of -1
    removes the last element *)
Fixpoint remove_first (i : nat) (l : list nat) : list nat :=
  match l with
  | [] => []
  | j :: l' => if Nat.eqb i j then l' else j :: remove_first i l'
  end.

Definition splice_out (i : nat) (l : list nat) : list nat :=
  if existsb (Nat.eqb i) l then remove_first i l else removelast l.

(** The for loop from its head to the next await: every item admitted gets
    its promises and joins [executing]; at [limit] or more the body awaits
    the race, after the last item it awaits all. *)
Fixpoint loop (items : list T) (ts : list (T * status)) (ex : list nat)
              (res : list R) (cs : list T) : state :=
  match items with
  | [] =>
      {| tasks := ts; executing := ex; results := res; calls := cs;
         pc := AwaitAll (all_of ts ex) |}
  | item :: items' =>
      let ts' := ts ++ [(item, Queued)] in
      let ex' := ex ++ [length ts] in
      if (Z.of_nat (length ex') >=? limit)%Z then
        {| tasks := ts'; executing := ex'; results := res; calls := cs;
           pc := AwaitRace items' (race_of ts' ex' ex') |}
      else loop items' ts' ex' res cs
  end.

(** [mapConcurrency(items, limit, fn)]: the call, up to its first await;
    [step] below carries it on *)
Definition mapConcurrency (items : list T) : state := loop items [] [] [] [].

(** what the settling of [e] of item [i] does to the awaited promise *)
Definition notify (ts : list (T * status)) (i : nat) (ok : bool) (m : main)
  : main :=
  match m with
  | AwaitRace rest (Pending snap) =>
      if existsb (Nat.eqb i) snap then AwaitRace rest (Settled ok) else m
  | AwaitAll (Pending snap) =>
      if existsb (Nat.eqb i) snap then
        if ok then
          if forallb (is_spliced ts) snap then AwaitAll (Settled true)
          else m
        else AwaitAll (Settled false)
      else m
  | _ => m
  end.

(** the jobs of the event loop *)
Inductive event :=
| Start (i : nat)       (* the job calling fn(item) runs *)
| Finish (i : nat)      (* the promise of fn(item) settles *)
| Push (i : nat)        (* results.push(result) *)
| Splice (i : nat)      (* executing.splice(executing.indexOf(e), 1) *)
| Propagate (i : nat)   (* the rejection reaches e *)
| Resume.               (* the body continues after its await *)

Definition with_tasks (st : state) (ts : list (T * status)) : state :=
  {| tasks := ts; executing := executing st; results := results st;
     calls := calls st; pc := pc st |}.

(** one job; [None] when it is not ready to run *)
Definition step (ev : event) (st : state) : option state :=
  match ev with
  | Start i =>
      match nth_error (tasks st) i with
      | Some (x, Queued) =>
          Some {| tasks := set_status (tasks st) i Running;
                  executing := executing st; results := results st;
                  calls := calls st ++ [x]; pc := pc st |}
      | _ => None
      end
  | Finish i =>
      match nth_error (tasks st) i with
      | Some (x, Running) =>
          Some (with_tasks st
                  (set_status (tasks st) i
                     (match fn x with
                      | Some r => Fulfilled r
                      | None => Failing
                      end)))
      | _ => None
      end
  | Push i =>
      match nth_error (tasks st) i with
      | Some (x, Fulfilled r) =>
          Some {| tasks := set_status (tasks st) i Pushed;
                  executing := executing st; results := results st ++ [r];
                  calls := calls st; pc := pc st |}
      | _ => None
      end
  | Splice i =>
      match nth_error (tasks st) i with
      | Some (x, Pushed) =>
          let ts := set_status (tasks st) i Spliced in
          Some {| tasks := ts;
                  executing := splice_out i (executing st);
                  results := results st; calls := calls st;
                  pc := notify ts i true (pc st) |}
      | _ => None
      end
  | Propagate i =>
      match nth_error (tasks st) i with
      | Some (x, Failing) =>
          let ts := set_status (tasks st) i Rejected in
          Some {| tasks := ts; executing := executing st;
                  results := results st; calls := calls st;
                  pc := notify ts i false (pc st) |}
      | _ => None
      end
  | Resume =>
      match pc st with
      | AwaitRace rest (Settled true) =>
          Some (loop rest (tasks st) (executing st) (results st) (calls st))
      | AwaitRace rest (Settled false) =>
          Some {| tasks := tasks st; executing := executing st;
                  results := results st; calls := calls st; pc := Thrown |}
      | AwaitAll (Settled true) =>
          Some {| tasks := tasks st; executing := executing st;
                  results := results st; calls := calls st;
                  pc := Resolved (results st) |}
      | AwaitAll (Settled false) =>
          Some {| tasks := tasks st; executing := executing st;
                  results := results st; calls := calls st; pc := Thrown |}
      | _ => None
      end
  end.

(** a run of the event loop: the jobs of a schedule one after the other *)
Fixpoint run (evs : list event) (st : state) : option state :=
  match evs with
  | [] => Some st
  | ev :: evs' =>
      match step ev st with
      | Some st' => run evs' st'
      | None => None
      end
  end.

(** the states mapConcurrency can be in *)
Definition reachable (items : list T) (st : state) : Prop :=
  exists evs, run evs (mapConcurrency items) = Some st.

(** the calls of [fn] started and not settled *)
Definition running (t : T * status) : bool :=
  match snd t with Running => true | _ => false end.

Definition inflight (st : state) : nat :=
  length (filter running (tasks st)).

(** the job a task waits for, if any *)
Definition job_of (i : nat) (s : status) : option event :=
  match s with
  | Queued => Some (Start i)
  | Running => Some (Finish i)
  | Fulfilled _ => Some (Push i)
  | Pushed => Some (Splice i)
  | Failing => Some (Propagate i)
  | Spliced | Rejected => None
  end.

Fixpoint first_job (ts : list (T * status)) (i : nat) : option event :=
  match ts with
  | [] => None
  | (_, s) :: ts' =>
      match job_of i s with
      | Some ev => Some ev
      | None => first_job ts' (S i)
      end
  end.

(** a schedule that always runs the job of the oldest unsettled item, and
    the body when no item has one *)
Definition next (st : state) : option event :=
  match first_job (tasks st) 0 with
  | Some ev => Some ev
  | None =>
      match pc st with
      | AwaitRace _ (Settled _) | AwaitAll (Settled _) => Some Resume
      | _ => None
      end
  end.

Fixpoint drive (fuel : nat) (st : state) : state :=
  match fuel with
  | O => st
  | S fuel' =>
      match next st with
      | Some ev =>
          match step ev st with
          | Some st' => drive fuel' st'
          | None => st
          end
      | None => st
      end
  end.

(** *** Measures on the tasks *)

(** the sum of a weight over the statuses of the tasks *)
Fixpoint weigh (w : status -> nat) (ts : list (T * status)) : nat :=
  match ts with
  | [] => 0
  | t :: ts' => w (snd t) + weigh w ts'
  end.

Definition w_running (s : status) : nat :=
  match s with Running => 1 | _ => 0 end.

(** the items whose [e] is still in [executing] *)
Definition w_live (s : status) : nat :=
  match s with Spliced => 0 | _ => 1 end.

(** the jobs an item still has before it *)
Definition w_jobs (s : status) : nat :=
  match s with
  | Queued => 4
  | Running => 3
  | Fulfilled _ => 2
  | Pushed => 1
  | Failing => 1
  | Spliced | Rejected => 0
  end.

(** a bound on the jobs left: those of the items admitted, five for every
    item to come and the steps of the body *)
Definition pc_jobs (m : main) : nat :=
  match m with
  | AwaitRace rest _ => 5 * length rest + 2
  | AwaitAll _ => 1
  | Resolved _ | Thrown => 0
  end.

Definition jobs_left (st : state) : nat :=
  weigh w_jobs (tasks st) + pc_jobs (pc st).

(** the body has returned or thrown *)
Definition settled (st : state) : bool :=
  match pc st with
  | Resolved _ | Thrown => true
  | _ => false
  end.

(** [fn] was called for the item *)
Definition started (t : T * status) : bool :=
  match snd t with Queued => false | _ => true end.

(** the result of the item is in [results] *)
Definition pushed (t : T * status) : bool :=
  match snd t with Pushed | Spliced => true | _ => false end.

(** *** Invariants of the reachable states *)

(** what a limit below 1 comes to: one item is admitted before the body
    awaits *)
Definition ceiling : Z := Z.max limit 1.

(** [executing] holds the items not yet spliced, each once, and no more of
    them than the limit allows; after a race won the loop has room *)
Definition inv_executing (st : state) : Prop :=
  NoDup (executing st) /\
  (forall i, In i (executing st)
             <-> i < length (tasks st) /\ is_spliced (tasks st) i = false) /\
  length (executing st) = weigh w_live (tasks st) /\
  (Z.of_nat (length (executing st)) <= ceiling)%Z /\
  (forall rest, pc st = AwaitRace rest (Settled true) ->
                (Z.of_nat (length (executing st)) + 1 <= ceiling)%Z).

(** the items admitted and those to come are the items given *)
Definition accounted (items : list T) (ts : list (T * status)) (m : main)
  : Prop :=
  match m with
  | AwaitRace rest _ => map fst ts ++ rest = items
  | AwaitAll _ | Resolved _ => map fst ts = items
  | Thrown => exists rest, map fst ts ++ rest = items
  end.

(** [calls] and [results] are those of the items started and pushed, and
    the statuses agree with how [fn] settles *)
Definition inv_items (items : list T) (st : state) : Prop :=
  accounted items (tasks st) (pc st) /\
  Permutation (calls st) (map fst (filter started (tasks st))) /\
  Permutation (map Some (results st))
              (map fn (map fst (filter pushed (tasks st)))) /\
  (forall i x r, nth_error (tasks st) i = Some (x, Fulfilled r) ->
                 fn x = Some r) /\
  (forall i x, nth_error (tasks st) i = Some (x, Failing) \/
               nth_error (tasks st) i = Some (x, Rejected) ->
               fn x = None).

(** what the awaited promise stands for *)
Definition inv_await (st : state) : Prop :=
  match pc st with
  | AwaitRace _ (Pending snap) =>
      snap <> [] /\
      forall i, In i snap ->
                i < length (tasks st) /\ is_spliced (tasks st) i = false /\
                is_rejected (tasks st) i = false
  | AwaitRace _ (Settled true) => True
  | AwaitAll (Pending snap) =>
      (forall i, i < length (tasks st) -> ~ In i snap ->
                 is_spliced (tasks st) i = true) /\
      (forall i, In i snap ->
                 i < length (tasks st) /\ is_rejected (tasks st) i = false) /\
      forallb (is_spliced (tasks st)) snap = false
  | AwaitAll (Settled true) =>
      forall i, i < length (tasks st) -> is_spliced (tasks st) i = true
  | Resolved res =>
      res = results st /\
      forall i, i < length (tasks st) -> is_spliced (tasks st) i = true
  | AwaitRace _ (Settled false) | AwaitAll (Settled false) | Thrown =>
      exists i, is_rejected (tasks st) i = true
  end.

(** all three together *)
Definition invariant (items : list T) (st : state) : Prop :=
  inv_executing st /\ inv_items items st /\ inv_await st.

End MapConcurrency.

Arguments Queued {R}.
Arguments Running {R}.
Arguments Pushed {R}.
Arguments Spliced {R}.
Arguments Failing {R}.
Arguments Rejected {R}.
Arguments Thrown {T R}.
Arguments Resolved {T R} res.
Arguments AwaitRace {T R} rest p.
Arguments AwaitAll {T R} p.
Arguments mapConcurrency {T} R limit items.
Arguments weigh {T R} w ts.
Arguments w_running {R} s.
Arguments w_live {R} s.
Arguments w_jobs {R} s.
Arguments started {T R} t.
Arguments pushed {T R} t.
Arguments settled {T R} st.
Arguments jobs_left {T R} st.
Arguments pc_jobs {T R} m.
Arguments inv_executing {T R} limit st.
Arguments inv_items {T R} fn items st.
Arguments accounted {T R} items ts m.
Arguments inv_await {T R} st.
Arguments invariant {T R} fn limit items st.

End Executor.

(* ===================================================================== *)
(** ** What the properties below are stated with *)
(* ===================================================================== *)

Module Spec.
Import Js Storage.

(** no two articles of the store share feed and guid *)
Definition uniqueGuids (d : db) : Prop :=
  NoDup (map (fun a => (a_feedId a, a_guid a)) (articles d)).

(** the exception of [createArticle], if it throws *)
Definition thrownBy (refuses : InsertArticle -> option str) (d : db)
                    (a : InsertArticle) : option exn :=
  match createArticle refuses d a with
  | inl e => Some e
  | inr _ => None
  end.

(** the articles of one feed with one guid *)
Definition articlesWith (d : db) (feedId : id) (guid : str) : list Article :=
  filter (fun a => Nat.eqb (a_feedId a) feedId && str_eqb (a_guid a) guid)
         (articles d).

(** a feed row with its failure counter and time of last fetch replaced *)
Definition withSync (f : Feed) (errorCount : option Z)
                    (lastFetched : option time) : Feed :=
  {| f_id := f_id f; f_url := f_url f; f_siteUrl := f_siteUrl f;
     f_title := f_title f; f_description := f_description f;
     f_favicon := f_favicon f; f_categoryId := f_categoryId f;
     f_lastFetched := lastFetched; f_errorCount := errorCount;
     f_isActive := f_isActive f |}.

(** white space or the zero-width space *)
Definition spaceOrZwsp (c : N) : bool := is_space c || (c =? 8203)%N.

(** [core] neither begins nor ends with a unit satisfying [p] *)
Definition edgeFree (p : N -> bool) (core : str) : Prop :=
  (forall x s, core = x :: s -> p x = false) /\
  (forall x s, core = s ++ [x] -> p x = false).

(** [core] is [s] without a leading and a trailing run of units
    satisfying [p], both as long as can be *)
Definition strippedOf (p : N -> bool) (s core : str) : Prop :=
  exists before after,
    s = before ++ core ++ after /\
    Forall (fun x => p x = true) before /\
    Forall (fun x => p x = true) after /\
    edgeFree p core.

(** a leading http:// or https://, in any letter case *)
Definition hasScheme (s : str) : bool :=
  Regex.starts true (lit "http://") s || Regex.starts true (lit "https://") s.

(** [t] is [s] with its markup tags taken out, from left to right: a tag
    runs from a less-than sign to the first greater-than sign after it; a
    less-than sign that no greater-than sign follows stays, with all after
    it *)
Inductive strips : str -> str -> Prop :=
| strips_nil : strips [] []
| strips_unit x s t :
    x <> 60%N -> strips s t -> strips (x :: s) (x :: t)
| strips_open s :
    Forall (fun y => y <> 62%N) s -> strips (60%N :: s) (60%N :: s)
| strips_tag a b t :
    Forall (fun y => y <> 62%N) a -> strips b t ->
    strips (60%N :: a ++ 62%N :: b) t.

(** the feed references an import has dealt with so far *)
Definition handled (t : Handlers.tally) : nat :=
  Handlers.t_imported t + Handlers.t_skipped t
  + length (Handlers.t_errors t).

(** every candidate has the default title *)
Definition defaultTitles (feeds : list Routes.candidate) : Prop :=
  Forall (fun c => Routes.c_title c = lit "RSS Feed") feeds.

(** the input after the first greater-than sign *)
Fixpoint afterGt (s : str) : option str :=
  match s with
  | [] => None
  | x :: s' => if (x =? 62)%N then Some s' else afterGt s'
  end.

(** where a text longer than [maxLength] is cut: at the last space at an
    index from 1 to [maxLength], at [maxLength] when there is none *)
Definition cutPoint (maxLength : nat) (text : str) (cut : nat) : Prop :=
  (cut = maxLength /\
   forall i, 0 < i <= maxLength -> nth_error text i <> Some 32%N) \/
  (0 < cut <= maxLength /\ nth_error text cut = Some 32%N /\
   forall i, cut < i <= maxLength -> nth_error text i <> Some 32%N).

(** *** For the further properties *)

Import Routes Handlers.

(** what [escapeXml] writes for one code unit: the entity of an ampersand,
    an angle bracket or a quote, the unit itself otherwise *)
Definition entityOf (c : N) : str :=
  if (c =? 38)%N then lit "&amp;"
  else if (c =? 60)%N then lit "&lt;"
  else if (c =? 62)%N then lit "&gt;"
  else if (c =? dq)%N then lit "&quot;"
  else if (c =? sq)%N then lit "&apos;"
  else [c].

(** no complete markup tag: no less-than sign with a greater-than sign
    anywhere after it *)
Definition tagFree (t : str) : Prop :=
  forall a b, t = a ++ 60%N :: b -> Forall (fun y => y <> 62%N) b.

(** the tag of a candidate is one of the two the route knows *)
Definition knownKind (c : candidate) : Prop :=
  c_type c = lit "RSS" \/ c_type c = lit "Atom".

(** what both loops keep: the processed URLs are those of the feeds
    found, each once, and every feed has one of the two tags *)
Definition linksInv (st : list candidate * list str) : Prop :=
  map c_url (fst st) = snd st /\ NoDup (snd st) /\ Forall knownKind (fst st).

(** no two feeds of the store share a URL *)
Definition uniqueUrls (d : db) : Prop := NoDup (map f_url (feeds d)).

(** the identities of the feed rows were drawn from the counter *)
Definition freshIds (d : db) : Prop :=
  Forall (fun f => f_id f < nextId d) (feeds d).

(** the category named is null or that of a category of the store *)
Definition categoryKnown (d : db) (categoryId : option id) : bool :=
  match categoryId with
  | Some c => existsb (fun k => Nat.eqb (c_id k) c) (categories d)
  | None => true
  end.

(** the answers of POST /api/feeds after which a feed with the URL is in
    the store; [known] says whether the category named was known *)
Definition leavesFeed (known : bool) (r : addResult) : Prop :=
  match r with
  | Created _ | Conflict => True
  | ServerError => known = true
  | UrlRequired | InvalidFeed => False
  end.

(** no two categories have the same name in lower case *)
Definition distinctNames (toLowerCase : str -> str) (d : db) : Prop :=
  NoDup (map (fun c => toLowerCase (c_name c)) (categories d)).

(** the unread articles of one feed *)
Definition unreadIn (d : db) (feedId : id) : list Article :=
  filter (fun a => Nat.eqb (a_feedId a) feedId && is_false (a_isRead a))
         (articles d).

(** no two articles share an identity *)
Definition uniqueArticleIds (d : db) : Prop :=
  NoDup (map a_id (articles d)).

(** every article belongs to exactly one feed of the store *)
Definition articlesOwned (d : db) : Prop :=
  NoDup (map f_id (feeds d)) /\
  Forall (fun a => In (a_feedId a) (map f_id (feeds d))) (articles d).

(** [a] is not older than [b]; a row without a date counts as newest *)
Definition notOlder (a b : Article) : Prop :=
  match a_publishedAt a, a_publishedAt b with
  | None, _ => True
  | Some _, None => False
  | Some x, Some y => (y <= x)%Z
  end.

(** newest first *)
Definition newestFirst (l : list Article) : Prop :=
  StronglySorted notOlder l.

(** an article without its identity: what it was created from *)
Definition insertOf (a : Article) : InsertArticle :=
  {| ia_feedId := a_feedId a; ia_title := a_title a; ia_url := a_url a;
     ia_content := a_content a; ia_summary := a_summary a;
     ia_author := a_author a; ia_imageUrl := a_imageUrl a;
     ia_publishedAt := a_publishedAt a; ia_isRead := a_isRead a;
     ia_isBookmarked := a_isBookmarked a; ia_guid := a_guid a |}.

(** the articles of one feed in the order of the table, identities aside *)
Definition articlesOf (d : db) (feedId : id) : list InsertArticle :=
  map insertOf (filter (fun a => Nat.eqb (a_feedId a) feedId) (articles d)).

(** the identities of the feed rows are distinct *)
Definition uniqueFeedIds (d : db) : Prop := NoDup (map f_id (feeds d)).

(** what every state of a refresh keeps that began on the store [d0] *)
Definition refreshInv (d0 : db) (st : Refresh.state) : Prop :=
  NoDup (map (fun c => f_id (fst c)) (Refresh.callbacks st)) /\
  uniqueGuids (Refresh.store st) /\
  (forall j feed k it rest,
      nth_error (Refresh.callbacks st) j
      = Some (feed, Refresh.Creating k it rest) ->
      getArticleByGuid (Refresh.store st) (f_id feed) (guidOf it) = None) /\
  (exists new,
      articles (Refresh.store st) = articles d0 ++ new /\
      Refresh.totalNewArticles st = length new /\
      Forall (fun a => In (a_feedId a)
                          (map (fun c => f_id (fst c))
                               (Refresh.callbacks st))) new) /\
  (forall i, ~ In i (map (fun c => f_id (fst c)) (Refresh.callbacks st)) ->
             getFeed (Refresh.store st) i = getFeed d0 i) /\
  categories (Refresh.store st) = categories d0.


(** while the body of mapConcurrency waits in its loop with the race
    undecided, [executing] is what the race was given and holds [limit]
    promises or more *)
Definition windowFull {T R : Type} (limit : Z) (st : Executor.state T R)
  : Prop :=
  match Executor.pc st with
  | Executor.AwaitRace _ (Executor.Pending snap) =>
      Executor.executing st = snap /\ (limit <= Z.of_nat (length snap))%Z
  | _ => True
  end.

End Spec.

(* ===================================================================== *)
(** ** Sample data for the instances below *)
(* ===================================================================== *)

Module Sample.
Import Js Routes Storage Handlers.

Definition noItem : item :=
  {| i_guid := None; i_link := None; i_title := None;
     i_contentEncoded := None; i_content := None; i_contentSnippet := None;
     i_creator := None; i_author := None; i_enclosureUrl := None;
     i_pubDate := None |}.

Definition itemWithGuid (g : str) : item :=
  {| i_guid := Some g; i_link := None; i_title := None;
     i_contentEncoded := None; i_content := None; i_contentSnippet := None;
     i_creator := None; i_author := None; i_enclosureUrl := None;
     i_pubDate := None |}.

Definition feedOf (items : list item) : parsedFeed :=
  {| pf_title := Some (lit "Alpha"); pf_link := None;
     pf_description := None; pf_items := Some items |}.

Definition insertAlpha : InsertFeed :=
  {| if_title := lit "Alpha"; if_url := lit "https://a.example/feed";
     if_siteUrl := None; if_description := None; if_favicon := None;
     if_categoryId := None; if_isActive := Some true |}.

(** a store with one feed and no article *)
Definition oneFeed : db := fst (appendFeed empty insertAlpha).

(** the row of that feed *)
Definition alpha : Feed := snd (appendFeed empty insertAlpha).

Definition noDate : str -> time := fun _ => 0%Z.
Definition accepts : InsertArticle -> option str := fun _ => None.
Definition refusesAll : InsertArticle -> option str :=
  fun _ => Some (lit "insert failed").
Definition clock0 : nat -> time := fun k => Z.of_nat k.
(** the messages of the database are not read below *)
Definition noMessage : violation -> str := fun _ => [].

(** the store after a first sync of two items *)
Definition synced : db :=
  storeOf (syncFeed noDate accepts clock0 7%Z
         (Some (feedOf [itemWithGuid (lit "g1"); itemWithGuid (lit "g2")]))
         alpha oneFeed).

(** [new URL(href, base).toString()] for a path-absolute [href] and a base
    at https://example.com *)
Definition resolveExample (href base : str) : option str :=
  if startsWith (lit "/") href then Some (lit "https://example.com" ++ href)
  else None.

(** a link tag with type before href, and one with href before type *)
Definition linkTypeFirst : str :=
  tpl "<link type='application/rss+xml' href='/feed.xml' title='Blog'>".
Definition linkHrefFirst : str :=
  tpl "<link href='/feed.xml' type='application/rss+xml' title='Blog'>".

(** a store with the category Tech and two feeds in it *)
Definition twoFeeds (url1 url2 : str) : db :=
  let '(d, c) := createCategory empty (lit "Tech") in
  let ins title url :=
    {| if_title := title; if_url := url; if_siteUrl := None;
       if_description := None; if_favicon := None;
       if_categoryId := Some (c_id c); if_isActive := Some true |} in
  let '(d, _) := appendFeed d (ins (lit "Alpha") url1) in
  let '(d, _) := appendFeed d (ins (lit "Beta") url2) in
  d.

(** every URL parses, to a feed without items *)
Definition parsesAll (url : str) : option parsedFeed :=
  Some {| pf_title := Some (lit "Parsed"); pf_link := None;
          pf_description := None; pf_items := None |}.

(** export, then import into the empty store, then import again: the
    feeds of the new store as (url, title, category name) and the counters
    of both imports *)
Definition roundTrip (d : db)
  : option (list (str * str * option str) * (nat * nat) * (nat * nat)) :=
  let doc := exportOpml str_leb (lit "2024-01-01T00:00:00.000Z") d in
  let import := importOpml noDate accepts (fun _ => None) parsesAll
                           (map lower) clock0 7%Z str_leb noMessage doc in
  match import empty with
  | Some (d1, r1) =>
      match import d1 with
      | Some (_, r2) =>
          Some (map (fun f =>
                       (f_url f, f_title f,
                        match f_categoryId f with
                        | Some c =>
                            option_map c_name
                              (find (fun x => Nat.eqb (c_id x) c)
                                    (categories d1))
                        | None => None
                        end))
                    (feeds d1),
                (imported r1, skipped r1), (imported r2, skipped r2))
      | None => None
      end
  | None => None
  end.

(** a plain text of 150 units that begins with a space *)
Definition spaceThenLetters : str := 32%N :: repeat 97%N 149.

(** a plain text of 250 units with spaces at the indices 5 and 195 only *)
Definition longText : str :=
  repeat 97%N 5 ++ [32%N] ++ repeat 98%N 189 ++ [32%N] ++ repeat 99%N 54.

(** an operation that always succeeds, and one that rejects on item 1 *)
Definition tenfold (x : nat) : option nat := Some (10 * x).
Definition failsOn1 (x : nat) : option nat :=
  if Nat.eqb x 1 then None else Some (10 * x).

(** three items under limit 2, the first two calls running *)
Definition twoRunning : Executor.state nat nat :=
  {| Executor.tasks := [(1, Executor.Running); (2, Executor.Running)];
     Executor.executing := [0; 1];
     Executor.results := [];
     Executor.calls := [1; 2];
     Executor.pc := Executor.AwaitRace [3] (Executor.Pending [0; 1]) |}.

(** one item under limit 0, its call running *)
Definition oneRunning : Executor.state nat nat :=
  {| Executor.tasks := [(7, Executor.Running)];
     Executor.executing := [0];
     Executor.results := [];
     Executor.calls := [7];
     Executor.pc := Executor.AwaitRace [] (Executor.Pending [0]) |}.

(** items 1 and 2 under limit 1 after the operation of item 1 rejected *)
Definition rejectedFirst : Executor.state nat nat :=
  {| Executor.tasks := [(1, Executor.Rejected)];
     Executor.executing := [0];
     Executor.results := [];
     Executor.calls := [1];
     Executor.pc := Executor.Thrown |}.

(** a document with one folder and one feed in it *)
Definition sampleOpml : str :=
  tpl "<opml><body><outline text='Tech'><outline type='rss' text='Alpha' xmlUrl='https://a.example/feed' /></outline></body></opml>".

(** the import of the sample document into the empty store *)
Definition importSample (d : db) : option (db * importResult) :=
  importOpml noDate accepts (fun _ => None) parsesAll (map lower) clock0 7%Z
             str_leb noMessage sampleOpml d.

(** a store whose one category is named tech *)
Definition withTech : db := fst (createCategory empty (lit "tech")).

(** every feed parses to one item *)
Definition parsesOne (url : str) : option parsedFeed :=
  Some (feedOf [itemWithGuid (lit "g1")]).

Definition clocks : id -> nat -> time := fun _ k => Z.of_nat k.
Definition nows : id -> time := fun _ => 7%Z.

(** a store with two active feeds, and a schedule of their callbacks in a
    refresh: four steps each, interleaved *)
Definition twoActive : db :=
  twoFeeds (lit "https://a.example/feed") (lit "https://b.example/rss").
Definition interleaved : list nat := [0; 1; 1; 0; 0; 1; 1; 0].

(** three items under limit 2: the result of the first is pushed, its
    splice still to run *)
Definition firstPushed : Executor.state nat nat :=
  {| Executor.tasks := [(1, Executor.Pushed); (2, Executor.Queued)];
     Executor.executing := [0; 1];
     Executor.results := [10];
     Executor.calls := [1];
     Executor.pc := Executor.AwaitRace [3] (Executor.Pending [0; 1]) |}.

End Sample.

(* ===================================================================== *)
(** * Properties *)
(* ===================================================================== *)

Import Js Regex Routes Storage Handlers Spec Sample.

Unset Implicit Arguments.

(** ** The store *)

Lemma str_eqb_eq (a b : str) : str_eqb a b = true <-> a = b.
Proof.
  unfold str_eqb. destruct (list_eq_dec N.eq_dec a b); split; congruence.
Qed.

Lemma str_eqb_refl (a : str) : str_eqb a a = true.
Proof. now apply str_eqb_eq. Qed.

Lemma patch_id (p : FeedPatch) (f : Feed) : f_id (patch p f) = f_id f.
Proof. reflexivity. Qed.

Lemma getFeed_updateFeed_same (d : db) (i : id) (p : FeedPatch) :
  getFeed (setFeed d i p) i = option_map (patch p) (getFeed d i).
Proof.
  unfold getFeed, setFeed; simpl.
  induction (feeds d) as [|f fs IH]; simpl; [reflexivity|].
  destruct (Nat.eqb (f_id f) i) eqn:E; simpl.
  - now rewrite E.
  - now rewrite E.
Qed.

Lemma getFeed_updateFeed_other (d : db) (i j : id) (p : FeedPatch) :
  j <> i -> getFeed (setFeed d i p) j = getFeed d j.
Proof.
  intros Hne. unfold getFeed, setFeed; simpl.
  induction (feeds d) as [|f fs IH]; simpl; [reflexivity|].
  destruct (Nat.eqb (f_id f) i) eqn:E; simpl.
  - apply Nat.eqb_eq in E.
    destruct (Nat.eqb (f_id f) j) eqn:E'.
    + apply Nat.eqb_eq in E'. congruence.
    + exact IH.
  - destruct (Nat.eqb (f_id f) j); [reflexivity | exact IH].
Qed.

Lemma articles_updateFeed (d : db) (i : id) (p : FeedPatch) :
  articles (setFeed d i p) = articles d.
Proof. reflexivity. Qed.

Lemma getFeed_In (d : db) (i : id) (f : Feed) :
  getFeed d i = Some f -> In f (feeds d) /\ f_id f = i.
Proof.
  unfold getFeed. intros H. apply find_some in H.
  destruct H as [H1 H2]. now apply Nat.eqb_eq in H2.
Qed.

(** an insert throws, or the row joins the table *)
Lemma createArticle_thrownBy (refuses : InsertArticle -> option str)
      (d : db) (a : InsertArticle) :
  createArticle refuses d a
  = match thrownBy refuses d a with
    | Some e => inl e
    | None => inr (appendArticle d a)
    end.
Proof.
  unfold thrownBy, createArticle. destruct (refuses a); [reflexivity|].
  destruct (existsb _ (feeds d)); reflexivity.
Qed.

(** the feed of an article is looked for by its identity *)
Lemma existsb_getFeed (d : db) (i : id) :
  existsb (fun f => Nat.eqb (f_id f) i) (feeds d)
  = match getFeed d i with Some _ => true | None => false end.
Proof.
  unfold getFeed. induction (feeds d) as [|f l IH]; [reflexivity|].
  cbn [existsb find]. destruct (Nat.eqb (f_id f) i); [reflexivity|exact IH].
Qed.

Lemma thrownBy_eq (refuses : InsertArticle -> option str) (d : db)
      (a : InsertArticle) :
  thrownBy refuses d a
  = match refuses a with
    | Some msg => Some (Exn msg)
    | None =>
        match getFeed d (ia_feedId a) with
        | Some _ => None
        | None => Some (Violation FeedKey)
        end
    end.
Proof.
  unfold thrownBy, createArticle. destruct (refuses a); [reflexivity|].
  rewrite existsb_getFeed. destruct (getFeed d (ia_feedId a)); reflexivity.
Qed.

(** an update that writes no errorCount, or 0, is accepted *)
Lemma updateFeed_plain (d : db) (i : id) (t : option time) :
  updateFeed d i {| p_lastFetched := t; p_errorCount := None |}
  = inr (setFeed d i {| p_lastFetched := t; p_errorCount := None |}).
Proof. reflexivity. Qed.

Lemma updateFeed_zero (d : db) (i : id) (t : option time) :
  updateFeed d i {| p_lastFetched := t; p_errorCount := Some 0%Z |}
  = inr (setFeed d i {| p_lastFetched := t; p_errorCount := Some 0%Z |}).
Proof. reflexivity. Qed.

(** an update leaves the store, or it is [setFeed] *)
Lemma updateFeed_cases (d : db) (i : id) (p : FeedPatch) :
  (exists v, updateFeed d i p = inl v) \/
  updateFeed d i p = inr (setFeed d i p).
Proof.
  unfold updateFeed. destruct (p_errorCount p) as [n|]; [|now right].
  destruct (int4 n); [now right | left; eexists; reflexivity].
Qed.

(** an insert of a feed is refused, or the row joins the table *)
Lemma createFeed_cases (d : db) (f : InsertFeed) :
  (exists v, createFeed d f = inl v) \/
  createFeed d f = inr (appendFeed d f).
Proof.
  unfold createFeed.
  destruct (existsb _ (feeds d)); [left; eexists; reflexivity|].
  destruct (if_categoryId f) as [c|]; [|now right].
  destruct (existsb _ (categories d));
    [now right | left; eexists; reflexivity].
Qed.

Section SyncFacts.
Variable parseDate : str -> time.
Variable refuses : InsertArticle -> option str.

Local Abbreviation itemLoop := (itemLoop parseDate refuses).
Local Abbreviation syncFeed := (syncFeed parseDate refuses).

(** the item loop leaves the feed rows alone and only appends articles *)
Lemma itemLoop_frame (feedId : id) (clock : nat -> time) (items : list item) :
  forall k d n d' n' r,
    itemLoop feedId clock k items d n = (d', n', r) ->
    feeds d' = feeds d /\ categories d' = categories d /\
    exists new, articles d' = articles d ++ new /\
                n' = n + length new /\
                Forall (fun a => a_feedId a = feedId) new.
Proof.
  induction items as [|it items IH]; intros k d n d' n' r; simpl.
  - intros H; inversion H; subst. repeat split; auto.
    exists []. rewrite app_nil_r. auto.
  - destruct (getArticleByGuid d feedId (guidOf it)).
    + apply IH.
    + rewrite createArticle_thrownBy. unfold appendArticle.
      destruct (thrownBy _ _ _) eqn:Er.
      * intros H; inversion H; subst. repeat split; auto.
        exists []. rewrite app_nil_r. auto.
      * intros H. apply IH in H. simpl in H.
        destruct H as (Hf & Hc & new & Ha & Hn & Hall).
        repeat split; auto.
        eexists (_ :: new). rewrite Ha, <- app_assoc. simpl.
        repeat split; [lia|].
        constructor; auto.
Qed.

Lemma getFeed_feeds (d d' : db) (i : id) :
  feeds d' = feeds d -> getFeed d' i = getFeed d i.
Proof. unfold getFeed. now intros ->. Qed.

Lemma getArticleByGuid_app (d : db) (feedId : id) (g : str)
      (d' : db) (new : list Article) :
  articles d' = articles d ++ new ->
  getArticleByGuid d feedId g <> None ->
  getArticleByGuid d' feedId g <> None.
Proof.
  unfold getArticleByGuid. intros -> H.
  destruct (find _ (articles d)) eqn:E; [|congruence].
  apply find_some in E. destruct E as [E1 E2].
  intros Hn.
  eapply find_none in Hn; [|apply in_or_app; left; exact E1].
  simpl in Hn. congruence.
Qed.

(** when every item already has its article, the loop creates nothing *)
Lemma itemLoop_all_known (feedId : id) (clock : nat -> time)
      (items : list item) (d : db) :
  forall k n,
    Forall (fun it => getArticleByGuid d feedId (guidOf it) <> None) items ->
    itemLoop feedId clock k items d n = (d, n, None).
Proof.
  induction items as [|it items IH]; intros k n H; simpl; [reflexivity|].
  inversion H; subst.
  destruct (getArticleByGuid d feedId (guidOf it)); [|congruence].
  now apply IH.
Qed.

(** after a loop that ran to its end every item has its article *)
Lemma itemLoop_covers (feedId : id) (clock : nat -> time)
      (items : list item) :
  forall k d n d' n',
    itemLoop feedId clock k items d n = (d', n', None) ->
    Forall (fun it => getArticleByGuid d' feedId (guidOf it) <> None) items.
Proof.
  induction items as [|it items IH]; intros k d n d' n'; simpl.
  - constructor.
  - destruct (getArticleByGuid d feedId (guidOf it)) eqn:E.
    + intros H. constructor; [|eapply IH; eauto].
      destruct (itemLoop_frame _ _ _ _ _ _ _ _ _ H) as (_ & _ & new & Ha & _).
      eapply getArticleByGuid_app; eauto. congruence.
    + rewrite createArticle_thrownBy. unfold appendArticle.
      destruct (thrownBy _ _ _) eqn:Er; [discriminate|].
      intros H. constructor; [|eapply IH; eauto].
      destruct (itemLoop_frame _ _ _ _ _ _ _ _ _ H) as (_ & _ & new & Ha & _).
      eapply getArticleByGuid_app; eauto.
      unfold getArticleByGuid; simpl.
      intros Hn. eapply find_none in Hn.
      2:{ apply in_or_app; right; left; reflexivity. }
      simpl in Hn. rewrite Nat.eqb_refl, str_eqb_refl in Hn. discriminate.
Qed.

Lemma getArticleByGuid_None_notin (d : db) (feedId : id) (g : str) :
  getArticleByGuid d feedId g = None ->
  ~ In (feedId, g) (map (fun a => (a_feedId a, a_guid a)) (articles d)).
Proof.
  unfold getArticleByGuid. intros H Hin.
  apply in_map_iff in Hin. destruct Hin as (a & Ha & Hin).
  eapply find_none in H; eauto. simpl in H.
  inversion Ha; subst.
  rewrite Nat.eqb_refl, str_eqb_refl in H. discriminate.
Qed.

(** the item loop keeps feed and guid unique, whether it ends or throws *)
Lemma itemLoop_unique (feedId : id) (clock : nat -> time)
      (items : list item) :
  forall k d n d' n' r,
    itemLoop feedId clock k items d n = (d', n', r) ->
    uniqueGuids d -> uniqueGuids d'.
Proof.
  induction items as [|it items IH]; intros k d n d' n' r; simpl.
  - intros H; inversion H; subst; auto.
  - destruct (getArticleByGuid d feedId (guidOf it)) eqn:E.
    + apply IH.
    + rewrite createArticle_thrownBy. unfold appendArticle.
      destruct (thrownBy _ _ _) eqn:Er.
      * intros H; inversion H; subst; auto.
      * intros H U. eapply IH in H; eauto.
        unfold uniqueGuids in *; simpl.
        rewrite map_app; simpl.
        apply getArticleByGuid_None_notin in E.
        rewrite <- (rev_involutive (map _ (articles d) ++ _)).
        apply NoDup_rev. rewrite rev_app_distr; simpl.
        constructor.
        -- rewrite <- in_rev. exact E.
        -- now apply NoDup_rev.
Qed.

Lemma itemLoop_app (feedId : id) (clock : nat -> time) (l1 l2 : list item) :
  forall k d n,
    itemLoop feedId clock k (l1 ++ l2) d n =
    match itemLoop feedId clock k l1 d n with
    | (d', n', None) => itemLoop feedId clock (k + length l1) l2 d' n'
    | thrown => thrown
    end.
Proof.
  induction l1 as [|it l1 IH]; intros k d n; simpl.
  - now rewrite Nat.add_0_r.
  - destruct (getArticleByGuid d feedId (guidOf it)).
    + rewrite IH. now rewrite Nat.add_succ_r.
    + destruct (createArticle refuses d _); [reflexivity|].
      rewrite IH. now rewrite Nat.add_succ_r.
Qed.

(** an item whose guid an earlier item of the batch had is skipped *)
Lemma itemLoop_duplicate (feedId : id) (clock : nat -> time)
      (items : list item) (it it' : item) (k : nat) (d : db) (n : nat) :
  In it items -> guidOf it' = guidOf it ->
  itemLoop feedId clock k (items ++ [it']) d n =
  itemLoop feedId clock k items d n.
Proof.
  intros Hin Hg. rewrite itemLoop_app.
  destruct (itemLoop feedId clock k items d n) as [[d' n'] [msg|]] eqn:E;
    [reflexivity|].
  simpl. apply itemLoop_covers in E.
  rewrite Forall_forall in E. specialize (E it Hin).
  rewrite Hg.
  destruct (getArticleByGuid d' feedId (guidOf it)); [reflexivity|congruence].
Qed.

(** a loop none of whose inserts is refused, for a feed of the store, runs
    to its end *)
Lemma itemLoop_accepted (feedId : id) (clock : nat -> time)
      (items : list item) :
  forall k d n,
    existsb (fun f => Nat.eqb (f_id f) feedId) (feeds d) = true ->
    Forall (fun it => forall t,
              refuses (articleOf parseDate feedId t it) = None) items ->
    snd (itemLoop feedId clock k items d n) = None.
Proof.
  induction items as [|it items IH]; intros k d n Hk H; simpl;
    [reflexivity|].
  inversion H; subst.
  destruct (getArticleByGuid d feedId (guidOf it)); [now apply IH|].
  unfold createArticle. rewrite H2. cbn [articleOf ia_feedId].
  rewrite Hk. now apply IH.
Qed.

(** the catch branch adds 1 to errorCount, or throws when the column
    cannot hold the sum *)
Lemma catchFeedError_cases (feed : Feed) (d : db) (n : nat) :
  (int4 (errorCountOr0 feed + 1) = true /\
   catchFeedError feed d n
   = (setFeed d (f_id feed) (oneMoreError feed), n, None)) \/
  (int4 (errorCountOr0 feed + 1) = false /\
   catchFeedError feed d n = (d, n, Some (Violation IntegerRange))).
Proof.
  unfold catchFeedError, updateFeed. cbn [oneMoreError p_errorCount].
  destruct (int4 _); [left | right]; split; reflexivity.
Qed.

(** the callback, its updates told apart: an update after a failed parse
    that throws is tried again in the catch branch and throws again; the
    update that resets the row does not throw *)
Lemma syncFeed_eq (clock : nat -> time) (now : time)
      (parsed : option parsedFeed) (feed : Feed) (d : db) :
  syncFeed clock now parsed feed d
  = match parsed with
    | None => catchFeedError feed d 0
    | Some pf =>
        match itemLoop (f_id feed) clock 0 (itemsOf 50 pf) d 0 with
        | (d1, n, None) =>
            (setFeed d1 (f_id feed)
               {| p_lastFetched := Some now; p_errorCount := Some 0%Z |},
             n, None)
        | (d1, n, Some _) => catchFeedError feed d1 n
        end
    end.
Proof.
  unfold Handlers.syncFeed. destruct parsed as [pf|].
  - destruct (itemLoop (f_id feed) clock 0 (itemsOf 50 pf) d 0)
      as [[d1 n] [e|]]; reflexivity.
  - unfold catchFeedError.
    destruct (updateFeed d (f_id feed) (oneMoreError feed)); reflexivity.
Qed.

(** the store after the catch branch: as it was, or with the row updated *)
Lemma catchFeedError_store (feed : Feed) (d : db) (n : nat) :
  countOf (catchFeedError feed d n) = n /\
  (storeOf (catchFeedError feed d n) = d \/
   storeOf (catchFeedError feed d n)
   = setFeed d (f_id feed) (oneMoreError feed)).
Proof.
  destruct (catchFeedError_cases feed d n) as [[_ ->]|[_ ->]];
    split; auto.
Qed.

Lemma catchFeedError_articles (feed : Feed) (d : db) (n : nat) :
  articles (storeOf (catchFeedError feed d n)) = articles d /\
  countOf (catchFeedError feed d n) = n.
Proof.
  destruct (catchFeedError_cases feed d n) as [[_ ->]|[_ ->]];
    split; reflexivity.
Qed.

Lemma syncFeed_unique (clock : nat -> time) (now : time)
      (parsed : option parsedFeed) (feed : Feed) (d : db) :
  uniqueGuids d ->
  uniqueGuids (storeOf (syncFeed clock now parsed feed d)).
Proof.
  intros U. rewrite syncFeed_eq.
  destruct parsed as [pf|].
  - destruct (itemLoop (f_id feed) clock 0 (itemsOf 50 pf) d 0)
      as [[d' n] r] eqn:E.
    apply itemLoop_unique in E; auto.
    destruct r; [|exact E].
    destruct (catchFeedError_store feed d' n) as [_ [-> | ->]]; exact E.
  - destruct (catchFeedError_store feed d 0) as [_ [-> | ->]]; exact U.
Qed.

Lemma unique_at_most_one (d : db) (feedId : id) (g : str) :
  uniqueGuids d -> length (articlesWith d feedId g) <= 1.
Proof.
  unfold uniqueGuids, articlesWith.
  induction (articles d) as [|a l IH]; simpl; intros U; [lia|].
  inversion U as [|? ? Hnin U']; subst.
  destruct (Nat.eqb (a_feedId a) feedId && str_eqb (a_guid a) g) eqn:E;
    [|now apply IH].
  simpl. apply andb_prop in E. destruct E as [E1 E2].
  apply Nat.eqb_eq in E1. apply str_eqb_eq in E2.
  assert (H : filter (fun a0 => Nat.eqb (a_feedId a0) feedId
                                && str_eqb (a_guid a0) g) l = []).
  { destruct (filter _ l) as [|b l'] eqn:F; [reflexivity|].
    exfalso. apply Hnin.
    assert (Hb : In b (filter (fun a0 => Nat.eqb (a_feedId a0) feedId
                                         && str_eqb (a_guid a0) g) l))
      by (rewrite F; now left).
    apply filter_In in Hb. destruct Hb as [Hb1 Hb2].
    apply andb_prop in Hb2. destruct Hb2 as [B1 B2].
    apply Nat.eqb_eq in B1. apply str_eqb_eq in B2.
    apply in_map_iff. exists b. split; [congruence|exact Hb1]. }
  rewrite H. simpl. lia.
Qed.

(** C3 (as amended): in one sync of a feed whose row the refresh read, a
    failed parse adds exactly 1 to errorCount, as long as the sum is a
    value of the column, and changes no other field of the row
    (lastFetched included) and no article; a parse that succeeds, with no
    insert of the item loop throwing, sets errorCount to 0 and lastFetched
    to the current time, whatever the number of new articles; an insert
    that throws after a successful parse ends in the catch branch, which
    adds 1 to errorCount under the same condition and leaves lastFetched
    alone.  The callback returns in each of these cases, and the rows of
    other feeds are not touched. *)
Theorem sync_feed_counters (clock : nat -> time) (now : time)
        (parsed : option parsedFeed) (feed : Feed) (d : db) :
  getFeed d (f_id feed) = Some feed ->
  let r := syncFeed clock now parsed feed d in
  (forall j, j <> f_id feed -> getFeed (storeOf r) j = getFeed d j) /\
  match parsed with
  | None =>
      articles (storeOf r) = articles d /\
      (int4 (errorCountOr0 feed + 1) = true ->
       snd r = None /\
       getFeed (storeOf r) (f_id feed)
       = Some (withSync feed (Some (errorCountOr0 feed + 1)%Z)
                        (f_lastFetched feed)))
  | Some pf =>
      (snd (itemLoop (f_id feed) clock 0 (itemsOf 50 pf) d 0) = None ->
       snd r = None /\
       getFeed (storeOf r) (f_id feed)
       = Some (withSync feed (Some 0%Z) (Some now)))
      /\
      (snd (itemLoop (f_id feed) clock 0 (itemsOf 50 pf) d 0) <> None ->
       int4 (errorCountOr0 feed + 1) = true ->
       snd r = None /\
       getFeed (storeOf r) (f_id feed)
       = Some (withSync feed (Some (errorCountOr0 feed + 1)%Z)
                        (f_lastFetched feed)))
  end.
Proof.
  intros Hrow r. subst r. rewrite syncFeed_eq.
  destruct parsed as [pf|].
  - destruct (itemLoop (f_id feed) clock 0 (itemsOf 50 pf) d 0)
      as [[d1 n] e] eqn:E.
    destruct (itemLoop_frame _ _ _ _ _ _ _ _ _ E) as (Hf & _).
    assert (Hrow1 : getFeed d1 (f_id feed) = Some feed)
      by (rewrite (getFeed_feeds d d1 (f_id feed) Hf); exact Hrow).
    split; [|split].
    + intros j Hj. destruct e as [e|].
      * destruct (catchFeedError_store feed d1 n) as [_ [-> | ->]];
          [|rewrite getFeed_updateFeed_other by exact Hj];
          now apply getFeed_feeds.
      * unfold storeOf; cbn [fst].
        rewrite getFeed_updateFeed_other by exact Hj.
        now apply getFeed_feeds.
    + cbn [snd]. intros ->. split; [reflexivity|].
      unfold storeOf; cbn [fst].
      rewrite getFeed_updateFeed_same, Hrow1. reflexivity.
    + cbn [snd]. intros Hr Hi. destruct e as [e|]; [|congruence].
      destruct (catchFeedError_cases feed d1 n) as [[_ ->]|[Hn _]];
        [|congruence].
      split; [reflexivity|]. unfold storeOf; cbn [fst].
      rewrite getFeed_updateFeed_same, Hrow1. reflexivity.
  - split; [|split].
    + intros j Hj.
      destruct (catchFeedError_store feed d 0) as [_ [-> | ->]];
        [reflexivity | now apply getFeed_updateFeed_other].
    + destruct (catchFeedError_store feed d 0) as [_ [-> | ->]];
        reflexivity.
    + intros Hi.
      destruct (catchFeedError_cases feed d 0) as [[_ ->]|[Hn _]];
        [|congruence].
      split; [reflexivity|]. unfold storeOf; cbn [fst].
      rewrite getFeed_updateFeed_same, Hrow. reflexivity.
Qed.

(** at the largest value of the column the update of a failed sync is
    refused, in the try and again in the catch branch: the row stays as it
    is and the callback throws *)
Lemma sync_at_largest_count (clock : nat -> time) (now : time)
      (feed : Feed) (d : db) :
  f_errorCount feed = Some 2147483647%Z ->
  syncFeed clock now None feed d = (d, 0, Some (Violation IntegerRange)).
Proof.
  intros H. rewrite syncFeed_eq.
  destruct (catchFeedError_cases feed d 0) as [[Hi _]|[_ ->]];
    [|reflexivity].
  unfold errorCountOr0 in Hi. rewrite H in Hi. discriminate Hi.
Qed.

(** C4: when every item of the source (the first 50) already has an article
    with its feed and guid, a sync creates no article, counts none, and
    still sets errorCount to 0 and lastFetched to the current time. *)
Theorem resync_creates_nothing (clock : nat -> time) (now : time)
        (pf : parsedFeed) (feed : Feed) (d : db) :
  getFeed d (f_id feed) = Some feed ->
  Forall (fun it => getArticleByGuid d (f_id feed) (guidOf it) <> None)
         (itemsOf 50 pf) ->
  let r := syncFeed clock now (Some pf) feed d in
  countOf r = 0 /\
  articles (storeOf r) = articles d /\
  getFeed (storeOf r) (f_id feed)
  = Some (withSync feed (Some 0%Z) (Some now)) /\
  snd r = None.
Proof.
  intros Hrow Hall r. subst r. rewrite syncFeed_eq.
  rewrite (itemLoop_all_known (f_id feed) clock _ d 0 0 Hall).
  unfold storeOf, countOf; cbn [fst snd].
  repeat split.
  rewrite getFeed_updateFeed_same, Hrow. reflexivity.
Qed.

(** X22: a second sync of the same items after a sync that ran to its end
    creates no article and counts none, whatever the clock and whichever
    row of the feed was read then. *)
Lemma resync_after_sync (clock clock' : nat -> time) (now now' : time)
      (pf : parsedFeed) (feed feed' : Feed) (d d1 : db) (n1 : nat)
      (e1 : option exn) :
  f_id feed' = f_id feed ->
  snd (itemLoop (f_id feed) clock 0 (itemsOf 50 pf) d 0) = None ->
  syncFeed clock now (Some pf) feed d = (d1, n1, e1) ->
  countOf (syncFeed clock' now' (Some pf) feed' d1) = 0 /\
  articles (storeOf (syncFeed clock' now' (Some pf) feed' d1))
  = articles d1.
Proof.
  intros Hid Hend H. rewrite syncFeed_eq in H.
  destruct (itemLoop (f_id feed) clock 0 (itemsOf 50 pf) d 0)
    as [[dd n] res] eqn:E.
  simpl in Hend. subst res. inversion H; subst; clear H.
  apply itemLoop_covers in E.
  rewrite syncFeed_eq, Hid.
  rewrite (itemLoop_all_known (f_id feed) clock' (itemsOf 50 pf)
             (setFeed dd (f_id feed) _) 0 0 E).
  unfold storeOf, countOf; cbn [fst snd]. split; reflexivity.
Qed.

Lemma addFeed_unique (hostname : str -> option str)
      (parseFeed : str -> option parsedFeed) (clock : nat -> time)
      (now : time) (url : str) (categoryId : option id) (d : db) :
  uniqueGuids d ->
  uniqueGuids (fst (addFeed parseDate refuses hostname parseFeed clock now
                            url categoryId d)).
Proof.
  intros U. unfold addFeed. destruct url as [|x url]; [exact U|].
  destruct (getFeedByUrl d _); [exact U|].
  destruct (parseFeed _) as [pf|]; [|exact U].
  cbv zeta.
  match goal with
  | |- context [createFeed d ?f] =>
      destruct (createFeed_cases d f) as [[v ->]| ->]; [exact U|];
      destruct (appendFeed d f) as [d1 feed] eqn:C
  end.
  assert (U1 : uniqueGuids d1).
  { unfold appendFeed in C. inversion C; subst. exact U. }
  destruct (itemLoop (f_id feed) clock 0 (itemsOf 50 pf) d1 0)
    as [[d2 n] r] eqn:E.
  apply itemLoop_unique in E; auto.
  destruct r; exact E.
Qed.

(** C10: the items of one sync are handled one after the other in the order
    delivered; an item whose guid an earlier item of the batch had creates
    no article, so that after the sync no two articles share feed and guid,
    and the feed has at most one article for any guid.  The same loop runs
    when a feed is added, with the same effect. *)
Theorem sync_keeps_guids_unique (clock : nat -> time) (now : time)
        (parsed : option parsedFeed) (feed : Feed) (d : db) :
  uniqueGuids d ->
  let d' := storeOf (syncFeed clock now parsed feed d) in
  uniqueGuids d' /\
  (forall g, length (articlesWith d' (f_id feed) g) <= 1) /\
  (forall items it it' k d0 n,
      In it items -> guidOf it' = guidOf it ->
      itemLoop (f_id feed) clock k (items ++ [it']) d0 n
      = itemLoop (f_id feed) clock k items d0 n) /\
  (forall hostname parseFeed url categoryId,
      uniqueGuids (fst (addFeed parseDate refuses hostname parseFeed clock
                                now url categoryId d))).
Proof.
  intros U d'. subst d'.
  pose proof (syncFeed_unique clock now parsed feed d U) as U'.
  split; [exact U'|split; [|split]].
  - intros g. now apply unique_at_most_one.
  - intros. now apply itemLoop_duplicate with (it := it).
  - intros. now apply addFeed_unique.
Qed.

End SyncFacts.

(** an instance of C3: a failed parse on the sample store, and a parse of
    two new items *)
Lemma sync_feed_counters_witness :
  let pf := feedOf [itemWithGuid (lit "g1"); itemWithGuid (lit "g2")] in
  getFeed oneFeed (f_id alpha) = Some alpha /\
  getFeed (storeOf (syncFeed noDate accepts clock0 7%Z None alpha oneFeed))
          (f_id alpha)
  = Some (withSync alpha (Some 1%Z) None) /\
  getFeed (storeOf (syncFeed noDate accepts clock0 7%Z (Some pf) alpha
                             oneFeed))
          (f_id alpha)
  = Some (withSync alpha (Some 0%Z) (Some 7%Z)).
Proof.
  intros pf.
  assert (H : getFeed oneFeed (f_id alpha) = Some alpha) by reflexivity.
  split; [exact H|]. split.
  - apply (proj2 (proj2 (sync_feed_counters noDate accepts clock0 7%Z None
                           alpha oneFeed H))).
    reflexivity.
  - apply (proj1 (proj2 (sync_feed_counters noDate accepts clock0 7%Z
                           (Some pf) alpha oneFeed H))).
    vm_compute. reflexivity.
Defined.

(** C3 as stated fails: the parse succeeds, the insert of the one new item
    is refused, and the row ends with errorCount 1 and no lastFetched
    instead of errorCount 0 and the current time. *)
Lemma sync_success_without_reset :
  let d' := storeOf (syncFeed noDate refusesAll clock0 7%Z
                       (Some (feedOf [itemWithGuid (lit "g1")])) alpha
                       oneFeed) in
  getFeed d' (f_id alpha) = Some (withSync alpha (Some 1%Z) None) /\
  getFeed d' (f_id alpha) <> Some (withSync alpha (Some 0%Z) (Some 7%Z)).
Proof.
  split; [reflexivity|]. vm_compute. discriminate.
Qed.

(** an instance of C4: the sample store synced once, synced again *)
Lemma resync_creates_nothing_witness :
  let pf := feedOf [itemWithGuid (lit "g1"); itemWithGuid (lit "g2")] in
  getFeed synced 0 = Some (withSync alpha (Some 0%Z) (Some 7%Z)) /\
  length (articles synced) = 2 /\
  countOf (syncFeed noDate accepts clock0 9%Z (Some pf)
             (withSync alpha (Some 0%Z) (Some 7%Z)) synced) = 0.
Proof.
  split; [reflexivity|]. split; [reflexivity|].
  refine (proj1 (resync_creates_nothing noDate accepts clock0 9%Z _
                   (withSync alpha (Some 0%Z) (Some 7%Z)) synced
                   eq_refl _)).
  repeat constructor; vm_compute; discriminate.
Defined.

(** an instance of C10: two items without guid, link and title both derive
    the empty guid, and one article is created *)
Lemma sync_keeps_guids_unique_witness :
  let d' := storeOf (syncFeed noDate accepts clock0 7%Z
                       (Some (feedOf [noItem; noItem])) alpha oneFeed) in
  uniqueGuids oneFeed /\
  map a_guid (articles d') = [[]] /\
  uniqueGuids d'.
Proof.
  assert (U : uniqueGuids oneFeed) by constructor.
  split; [exact U|]. split; [reflexivity|].
  exact (proj1 (sync_keeps_guids_unique noDate accepts clock0 7%Z
                  (Some (feedOf [noItem; noItem])) alpha oneFeed U)).
Defined.

(** ** The health report *)

Lemma refreshOne_failed (parseDate : str -> time)
      (refuses : InsertArticle -> option str) (clock : nat -> time)
      (now : time) (i : id) (d : db) (f : Feed) :
  getFeed d i = Some f ->
  int4 (errorCountOr0 f + 1) = true ->
  getFeed (refreshOne parseDate refuses clock now None i d) i
  = Some (withSync f (Some (errorCountOr0 f + 1)%Z) (f_lastFetched f)).
Proof.
  intros H Hi. unfold refreshOne. rewrite H, syncFeed_eq.
  destruct (catchFeedError_cases f d 0) as [[_ ->]|[Hn _]]; [|congruence].
  unfold storeOf; cbn [fst].
  destruct (getFeed_In d i f H) as [_ Hid]. rewrite Hid.
  rewrite getFeed_updateFeed_same, H. reflexivity.
Qed.

Lemma health_spec (d : db) :
  totalFeeds (getFeedHealthStats d) = length (feeds d) /\
  failingFeeds (getFeedHealthStats d)
  = length (feedsWithErrors (getFeedHealthStats d)) /\
  forall f, In f (feedsWithErrors (getFeedHealthStats d))
            <-> In f (feeds d) /\ (3 <= errorCountOr0 f)%Z.
Proof.
  unfold getFeedHealthStats; simpl. repeat split.
  - apply filter_In in H. tauto.
  - apply filter_In in H. destruct H as [_ H].
    apply Z.geb_le in H. exact H.
  - intros [H1 H2]. apply filter_In. split; [exact H1|].
    now apply Z.geb_le.
Qed.

(** C8: the health report counts all feeds, and lists as failing exactly
    the rows whose errorCount (null read as 0) is at least 3, read off the
    rows as they are; a feed at 0 whose parse fails in two refreshes in a
    row stands at 2 and is not listed, and a third failure puts it at 3 and
    on the list. *)
Theorem health_threshold (parseDate : str -> time)
        (refuses : InsertArticle -> option str) (clock : nat -> time)
        (now : time) (i : id) (d : db) (feed : Feed) :
  getFeed d i = Some feed ->
  errorCountOr0 feed = 0%Z ->
  let fail := refreshOne parseDate refuses clock now None i in
  (forall s,
      totalFeeds (getFeedHealthStats s) = length (feeds s) /\
      failingFeeds (getFeedHealthStats s)
      = length (feedsWithErrors (getFeedHealthStats s)) /\
      forall f, In f (feedsWithErrors (getFeedHealthStats s))
                <-> In f (feeds s) /\ (3 <= errorCountOr0 f)%Z) /\
  (exists f2, getFeed (fail (fail d)) i = Some f2 /\
              f_errorCount f2 = Some 2%Z /\
              ~ In f2 (feedsWithErrors (getFeedHealthStats (fail (fail d)))))
  /\
  (exists f3, getFeed (fail (fail (fail d))) i = Some f3 /\
              f_errorCount f3 = Some 3%Z /\
              In f3 (feedsWithErrors
                       (getFeedHealthStats (fail (fail (fail d)))))).
Proof.
  intros Hrow H0 fail. split; [exact health_spec|].
  assert (H1 : getFeed (fail d) i
               = Some (withSync feed (Some 1%Z) (f_lastFetched feed))).
  { unfold fail.
    rewrite (refreshOne_failed parseDate refuses clock now i _ _ Hrow)
      by (rewrite H0; reflexivity).
    now rewrite H0. }
  assert (H2 : getFeed (fail (fail d)) i
               = Some (withSync feed (Some 2%Z) (f_lastFetched feed))).
  { unfold fail at 1.
    rewrite (refreshOne_failed parseDate refuses clock now i _ _ H1)
      by reflexivity.
    reflexivity. }
  assert (H3 : getFeed (fail (fail (fail d))) i
               = Some (withSync feed (Some 3%Z) (f_lastFetched feed))).
  { unfold fail at 1.
    rewrite (refreshOne_failed parseDate refuses clock now i _ _ H2)
      by reflexivity.
    reflexivity. }
  split.
  - eexists. split; [exact H2|]. split; [reflexivity|].
    intros Hin. apply health_spec in Hin. destruct Hin as [_ Hin].
    unfold errorCountOr0 in Hin; simpl in Hin. lia.
  - eexists. split; [exact H3|]. split; [reflexivity|].
    apply health_spec. split.
    + apply (getFeed_In _ _ _ H3).
    + unfold errorCountOr0; simpl. lia.
Qed.

(** an instance of C8 on the sample store *)
Lemma health_threshold_witness :
  getFeed oneFeed 0 = Some alpha /\ errorCountOr0 alpha = 0%Z /\
  exists f3,
    getFeed (refreshOne noDate accepts clock0 7%Z None 0
               (refreshOne noDate accepts clock0 7%Z None 0
                  (refreshOne noDate accepts clock0 7%Z None 0 oneFeed))) 0
    = Some f3 /\ f_errorCount f3 = Some 3%Z.
Proof.
  split; [reflexivity|]. split; [reflexivity|].
  destruct (proj2 (proj2 (health_threshold noDate accepts clock0 7%Z 0 oneFeed
                            alpha eq_refl eq_refl)))
    as (f3 & H1 & H2 & _).
  exists f3. split; assumption.
Defined.

(** ** The OPML round trip at given inputs *)

(** the round trip of two feeds with plain URLs, titles and category *)
Example opml_round_trip_plain :
  roundTrip (twoFeeds (lit "https://a.example/feed")
                      (lit "https://b.example/rss"))
  = Some ([(lit "https://a.example/feed", lit "Alpha", Some (lit "Tech"));
           (lit "https://b.example/rss", lit "Beta", Some (lit "Tech"))],
          (2, 0), (0, 2)).
Proof. vm_compute. reflexivity. Qed.

(** C7 at a feed URL with an ampersand: the export writes the entity, the
    import takes the attribute text as it stands, and the feed comes back
    under a different URL. *)
Theorem opml_round_trip_ampersand :
  roundTrip (twoFeeds (lit "https://a.example/feed")
                      (lit "https://b.example/rss?x=1&y=2"))
  = Some ([(lit "https://a.example/feed", lit "Alpha", Some (lit "Tech"));
           (lit "https://b.example/rss?x=1&amp;y=2", lit "Beta",
            Some (lit "Tech"))],
          (2, 0), (0, 2)).
Proof. vm_compute. reflexivity. Qed.

(** ** The import handles every feed reference *)

Section ImportFacts.
Variable parseDate : str -> time.
Variable refuses : InsertArticle -> option str.
Variable hostname : str -> option str.
Variable parseFeed : str -> option parsedFeed.
Variable toLowerCase : str -> str.
Variable clock : nat -> time.
Variable now : time.
Variable collate : str -> str -> bool.
Variable pgMessage : violation -> str.

Local Abbreviation importOne :=
  (importOne parseDate refuses hostname parseFeed toLowerCase clock now collate pgMessage).

Lemma importOne_handled (st : db * tally) (info : feedInfo) :
  handled (snd (importOne st info)) = S (handled (snd st)).
Proof.
  destruct st as [d t]. unfold Handlers.importOne, handled.
  destruct (getFeedByUrl d _); [simpl; lia|].
  destruct (parseFeed _) as [pf|];
    [|simpl; rewrite length_app; simpl; lia].
  cbv zeta.
  destruct (resolveCategory toLowerCase collate d _) as [d1 cat].
  destruct (createFeed d1 _) as [v|[d2 feed]];
    [simpl; rewrite length_app; simpl; lia|].
  destruct (itemLoop parseDate refuses (f_id feed) clock 0 _ d2 0)
    as [[d3 n] [msg|]]; simpl; [rewrite length_app; simpl|]; lia.
Qed.

(** X23: every feed reference of the document ends as imported, skipped
    or an error, whatever fails on the way: the batch is never cut short,
    and the total reported is the number of references found. *)
Lemma import_handles_all (opml : str) (d d' : db) (r : importResult) :
  importOpml parseDate refuses hostname parseFeed toLowerCase clock now
             collate pgMessage opml d = Some (d', r) ->
  imported r + skipped r + length (errors r) = total r /\
  total r = length (parseOutlines opml).
Proof.
  unfold importOpml. destruct opml as [|x opml]; [discriminate|].
  set (refs := parseOutlines (x :: opml)).
  assert (H : forall l st,
             handled (snd (fold_left importOne l st))
             = length l + handled (snd st)).
  { induction l as [|info l IH]; intros st; simpl; [reflexivity|].
    rewrite IH, importOne_handled. lia. }
  specialize (H refs (d, {| t_imported := 0; t_skipped := 0;
                            t_errors := [] |})).
  destruct (fold_left importOne refs _) as [d1 t].
  intros E; inversion E; subst. simpl in *. unfold handled in H.
  simpl in H. split; [lia | reflexivity].
Qed.

End ImportFacts.

(** ** mapConcurrency *)

Import Executor.

Section ExecutorFacts.
Variables T R : Type.
Variable fn : T -> option R.
Variable limit : Z.

Local Abbreviation state := (Executor.state T R).
Local Abbreviation step := (Executor.step fn limit).
Local Abbreviation run := (Executor.run fn limit).
Local Abbreviation loop := (@Executor.loop T R limit).
Local Abbreviation tasklist := (list (T * status R)).

(** *** Lists of tasks *)

Lemma set_status_length (ts : tasklist) (i : nat) (s : status R) :
  length (set_status ts i s) = length ts.
Proof.
  revert i; induction ts as [|[x s0] ts IH]; intros [|i]; simpl; auto.
Qed.

Lemma set_status_fst (ts : tasklist) (i : nat) (s : status R) :
  map fst (set_status ts i s) = map fst ts.
Proof.
  revert i; induction ts as [|[x s0] ts IH]; intros [|i]; simpl; auto.
  now rewrite IH.
Qed.

Lemma nth_set_status_same (ts : tasklist) (i : nat) (x : T)
      (s s' : status R) :
  nth_error ts i = Some (x, s) ->
  nth_error (set_status ts i s') i = Some (x, s').
Proof.
  revert i; induction ts as [|[y s0] ts IH]; intros [|i]; simpl;
    try discriminate.
  - intros H; inversion H; reflexivity.
  - apply IH.
Qed.

Lemma nth_set_status_other (ts : tasklist) (i j : nat) (s' : status R) :
  i <> j -> nth_error (set_status ts i s') j = nth_error ts j.
Proof.
  revert i j; induction ts as [|[y s0] ts IH]; intros [|i] [|j] H; simpl;
    auto; try congruence.
Qed.

Lemma weigh_app (w : status R -> nat) (a b : tasklist) :
  weigh w (a ++ b) = weigh w a + weigh w b.
Proof. induction a as [|t a IH]; simpl; [reflexivity|]. rewrite IH. lia. Qed.

Lemma weigh_set_status (w : status R -> nat) (ts : tasklist) (i : nat)
      (x : T) (s s' : status R) :
  nth_error ts i = Some (x, s) ->
  weigh w (set_status ts i s') + w s = weigh w ts + w s'.
Proof.
  revert i; induction ts as [|[y s0] ts IH]; intros [|i]; simpl;
    try discriminate.
  - intros H; inversion H; subst. lia.
  - intros H. specialize (IH i H). lia.
Qed.

Lemma inflight_weigh (st : state) :
  inflight st = weigh w_running (tasks st).
Proof.
  unfold inflight. induction (tasks st) as [|[x s] ts IH]; simpl; auto.
  unfold running at 1; simpl. destruct s; simpl; auto.
Qed.

Lemma weigh_le (w1 w2 : status R -> nat) (ts : tasklist) :
  (forall s, w1 s <= w2 s) -> weigh w1 ts <= weigh w2 ts.
Proof.
  intros H. induction ts as [|t ts IH]; simpl; [lia|].
  specialize (H (snd t)). lia.
Qed.

Lemma is_spliced_set_same (ts : tasklist) (i : nat) (x : T)
      (s s' : status R) :
  nth_error ts i = Some (x, s) ->
  is_spliced (set_status ts i s') i
  = match s' with Spliced => true | _ => false end.
Proof.
  intros H. unfold is_spliced, status_of.
  rewrite (nth_set_status_same _ _ _ _ s' H). reflexivity.
Qed.

Lemma is_spliced_set_other (ts : tasklist) (i j : nat) (s' : status R) :
  i <> j -> is_spliced (set_status ts i s') j = is_spliced ts j.
Proof.
  intros H. unfold is_spliced, status_of.
  now rewrite nth_set_status_other.
Qed.

Lemma is_rejected_set_same (ts : tasklist) (i : nat) (x : T)
      (s s' : status R) :
  nth_error ts i = Some (x, s) ->
  is_rejected (set_status ts i s') i
  = match s' with Rejected => true | _ => false end.
Proof.
  intros H. unfold is_rejected, status_of.
  rewrite (nth_set_status_same _ _ _ _ s' H). reflexivity.
Qed.

Lemma is_rejected_set_other (ts : tasklist) (i j : nat) (s' : status R) :
  i <> j -> is_rejected (set_status ts i s') j = is_rejected ts j.
Proof.
  intros H. unfold is_rejected, status_of.
  now rewrite nth_set_status_other.
Qed.

Lemma is_spliced_app (ts : tasklist) (t : T * status R) (i : nat) :
  is_spliced (ts ++ [t]) i
  = if Nat.eqb i (length ts)
    then match snd t with Spliced => true | _ => false end
    else is_spliced ts i.
Proof.
  unfold is_spliced, status_of.
  destruct (Nat.eqb i (length ts)) eqn:E.
  - apply Nat.eqb_eq in E. subst.
    rewrite nth_error_app2 by lia. rewrite Nat.sub_diag. reflexivity.
  - apply Nat.eqb_neq in E.
    destruct (Nat.lt_ge_cases i (length ts)).
    + now rewrite nth_error_app1.
    + rewrite nth_error_app2 by lia.
      destruct (i - length ts) as [|k] eqn:K; [lia|]. simpl.
      destruct k; simpl.
      * now rewrite (proj2 (nth_error_None ts i)) by lia.
      * now rewrite (proj2 (nth_error_None ts i)) by lia.
Qed.

Lemma is_rejected_app (ts : tasklist) (t : T * status R) (i : nat) :
  is_rejected (ts ++ [t]) i
  = if Nat.eqb i (length ts)
    then match snd t with Rejected => true | _ => false end
    else is_rejected ts i.
Proof.
  unfold is_rejected, status_of.
  destruct (Nat.eqb i (length ts)) eqn:E.
  - apply Nat.eqb_eq in E. subst.
    rewrite nth_error_app2 by lia. rewrite Nat.sub_diag. reflexivity.
  - apply Nat.eqb_neq in E.
    destruct (Nat.lt_ge_cases i (length ts)).
    + now rewrite nth_error_app1.
    + rewrite nth_error_app2 by lia.
      destruct (i - length ts) as [|k] eqn:K; [lia|]. simpl.
      destruct k; simpl.
      * now rewrite (proj2 (nth_error_None ts i)) by lia.
      * now rewrite (proj2 (nth_error_None ts i)) by lia.
Qed.

(** *** Removing from [executing] *)

Lemma existsb_eqb_In (i : nat) (l : list nat) :
  existsb (Nat.eqb i) l = true <-> In i l.
Proof.
  rewrite existsb_exists. split.
  - intros (x & Hx & E). apply Nat.eqb_eq in E. now subst.
  - intros H. exists i. split; [exact H | apply Nat.eqb_refl].
Qed.

Lemma remove_first_spec (i : nat) (l : list nat) :
  NoDup l -> In i l ->
  NoDup (remove_first i l) /\
  S (length (remove_first i l)) = length l /\
  forall j, In j (remove_first i l) <-> In j l /\ j <> i.
Proof.
  induction l as [|k l IH]; simpl; [tauto|].
  intros ND Hin. inversion ND as [|? ? Hk ND']; subst.
  destruct (Nat.eqb i k) eqn:E.
  - apply Nat.eqb_eq in E. subst k.
    split; [exact ND'|]. split; [reflexivity|].
    intros j. split.
    + intros Hj. split; [now right|]. intros ->. contradiction.
    + intros [[->|Hj] Hne]; [congruence | exact Hj].
  - apply Nat.eqb_neq in E.
    destruct Hin as [->|Hin]; [congruence|].
    destruct (IH ND' Hin) as (N1 & N2 & N3).
    split; [|split].
    + constructor; [|exact N1]. rewrite N3. tauto.
    + simpl. lia.
    + intros j. simpl. split.
      * intros [->|Hj]; [split; [now left | congruence]|].
        apply N3 in Hj. tauto.
      * intros [[->|Hj] Hne]; [now left|]. right. apply N3. tauto.
Qed.

Lemma splice_out_In (i : nat) (l : list nat) :
  In i l -> splice_out i l = remove_first i l.
Proof.
  intros H. unfold splice_out.
  now rewrite (proj2 (existsb_eqb_In i l) H).
Qed.

(** *** [executing] and the limit *)

Ltac open_step H :=
  match type of H with
  | Executor.step _ _ ?ev ?st = Some ?st' =>
      let x := fresh "x" in
      let Hn := fresh "Hn" in
      let Hpc := fresh "Hpc" in
      destruct ev as [?i|?i|?i|?i|?i|]; simpl in H;
      [ destruct (nth_error (tasks st) _) as [[x []]|] eqn:Hn;
        try discriminate H; inversion H; subst st'; clear H ..
      | destruct (pc st) as [?rest [?snap|[]]|[?snap|[]]| |] eqn:Hpc;
        try discriminate H; inversion H; subst st'; clear H ]
  end.

Lemma race_of_not_won (ts : tasklist) (l all : list nat) :
  (forall i, In i l -> is_spliced ts i = false) ->
  race_of ts l all <> Settled true.
Proof.
  induction l as [|i l IH]; simpl; intros H; [discriminate|].
  rewrite (H i (or_introl eq_refl)).
  destruct (is_rejected ts i); [discriminate|].
  apply IH. intros j Hj. apply H. now right.
Qed.

Lemma inv_executing_intro (ts : tasklist) (ex : list nat) (res : list R)
      (cs : list T) (m : main T R) :
  NoDup ex ->
  (forall i, In i ex <-> i < length ts /\ is_spliced ts i = false) ->
  length ex = weigh w_live ts ->
  (Z.of_nat (length ex) <= ceiling limit)%Z ->
  (forall rest, m = AwaitRace rest (Settled true) ->
                (Z.of_nat (length ex) + 1 <= ceiling limit)%Z) ->
  inv_executing limit
    {| tasks := ts; executing := ex; results := res; calls := cs;
       pc := m |}.
Proof. intros. unfold inv_executing; simpl. auto. Qed.

Lemma loop_inv_executing (items : list T) :
  forall (ts : tasklist) (ex : list nat) (res : list R) (cs : list T),
    NoDup ex ->
    (forall i, In i ex <-> i < length ts /\ is_spliced ts i = false) ->
    length ex = weigh w_live ts ->
    (Z.of_nat (length ex) + 1 <= ceiling limit)%Z ->
    inv_executing limit (loop items ts ex res cs).
Proof.
  induction items as [|x items IH]; intros ts ex res cs ND Hin Hlen Hcap.
  - simpl. apply inv_executing_intro; auto; try lia; discriminate.
  - simpl.
    assert (ND' : NoDup (ex ++ [length ts])).
    { rewrite <- (rev_involutive (ex ++ [length ts])).
      apply NoDup_rev. rewrite rev_app_distr. simpl.
      constructor; [|now apply NoDup_rev].
      rewrite <- in_rev. intros Hi. apply Hin in Hi. lia. }
    assert (Hin' : forall i,
               In i (ex ++ [length ts]) <->
               i < length (ts ++ [(x, Queued)]) /\
               is_spliced (ts ++ [(x, Queued)]) i = false).
    { intros i. rewrite in_app_iff, length_app, is_spliced_app. simpl.
      rewrite Hin.
      destruct (Nat.eqb i (length ts)) eqn:E.
      - apply Nat.eqb_eq in E. subst. split; [intros _; split; [lia|auto]|].
        intros _. right. now left.
      - apply Nat.eqb_neq in E. split.
        + intros [[H1 H2]|[H|[]]]; [split; [lia|auto] | congruence].
        + intros [H1 H2]. left. split; [lia|auto]. }
    assert (Hlen' : length (ex ++ [length ts])
                    = weigh w_live (ts ++ [(x, Queued)])).
    { rewrite length_app, weigh_app. simpl. lia. }
    destruct (Z.of_nat (length (ex ++ [length ts])) >=? limit)%Z eqn:E.
    + apply inv_executing_intro; auto.
      * rewrite length_app in *; simpl in *. lia.
      * intros rest Hr. exfalso. inversion Hr as [[H1 H2]].
        revert H2. apply race_of_not_won.
        intros i Hi. now apply Hin'.
    + apply IH; auto.
      rewrite length_app in *; simpl in *. unfold ceiling.
      rewrite Z.geb_leb in E. apply Z.leb_gt in E. lia.
Qed.

Lemma start_inv_executing (items : list T) :
  inv_executing limit (mapConcurrency R limit items).
Proof.
  apply loop_inv_executing; simpl.
  - constructor.
  - intros i. split; [tauto | lia].
  - reflexivity.
  - unfold ceiling. lia.
Qed.

(** a change of status that is not a splice leaves [executing] right *)
Lemma quiet_inv_executing (st : state) (i : nat) (x : T) (s s' : status R)
      (res : list R) (cs : list T) (m : main T R) :
  inv_executing limit st ->
  nth_error (tasks st) i = Some (x, s) ->
  s <> Spliced -> s' <> Spliced ->
  (forall rest, m = AwaitRace rest (Settled true) ->
                pc st = AwaitRace rest (Settled true)) ->
  inv_executing limit
    {| tasks := set_status (tasks st) i s'; executing := executing st;
       results := res; calls := cs; pc := m |}.
Proof.
  intros (ND & Hin & Hlen & Hcap & Hwon) Hn Hs Hs' Hm.
  unfold inv_executing; simpl.
  split; [exact ND|]. split; [|split; [|split]].
  - intros j. rewrite Hin, set_status_length.
    destruct (Nat.eq_dec i j) as [->|Hne].
    + rewrite (is_spliced_set_same _ _ _ _ s' Hn).
      unfold is_spliced, status_of. rewrite Hn. simpl.
      destruct s, s'; try congruence; tauto.
    + now rewrite is_spliced_set_other.
  - rewrite Hlen.
    pose proof (weigh_set_status w_live _ _ _ _ s' Hn) as W.
    destruct s, s'; simpl in W; try congruence; lia.
  - exact Hcap.
  - intros rest Hr. apply (Hwon rest). now apply Hm.
Qed.

Lemma notify_won (ts : tasklist) (i : nat) (ok : bool) (m : main T R)
      (rest : list T) :
  notify ts i ok m = AwaitRace rest (Settled true) ->
  m = AwaitRace rest (Settled true) \/ ok = true.
Proof.
  destruct m as [rest' [snap|b]|[snap|b]| |]; simpl; auto.
  - destruct (existsb _ snap); [|discriminate].
    intros H; inversion H; subst. now right.
  - destruct (existsb _ snap); [|discriminate].
    destruct ok; [destruct (forallb _ snap)|]; discriminate.
Qed.

Lemma step_inv_executing (ev : event) (st st' : state) :
  inv_executing limit st -> step ev st = Some st' ->
  inv_executing limit st'.
Proof.
  intros I H. open_step H.
  - (* Start *)
    apply (quiet_inv_executing st i x Queued Running); auto; discriminate.
  - (* Finish *)
    unfold with_tasks.
    apply (quiet_inv_executing st i x Running); auto; try discriminate.
    destruct (fn x); discriminate.
  - (* Push *)
    apply (quiet_inv_executing st i x (Fulfilled r) Pushed); auto;
      discriminate.
  - (* Splice *)
    destruct I as (ND & Hin & Hlen & Hcap & Hwon).
    assert (Hi : In i (executing st)).
    { apply Hin. split.
      - apply nth_error_Some. congruence.
      - unfold is_spliced, status_of. now rewrite Hn. }
    destruct (remove_first_spec i _ ND Hi) as (N1 & N2 & N3).
    unfold inv_executing; simpl. rewrite (splice_out_In _ _ Hi).
    split; [exact N1|]. split; [|split; [|split]].
    + intros j. rewrite N3, Hin, set_status_length.
      destruct (Nat.eq_dec i j) as [->|Hne].
      * rewrite (is_spliced_set_same _ _ _ _ Spliced Hn).
        split; [tauto | intros [_ ?]; discriminate].
      * rewrite is_spliced_set_other by exact Hne.
        split; [tauto|]. intros [? ?]. repeat split; auto.
    + pose proof (weigh_set_status w_live _ _ _ _ Spliced Hn) as W.
      simpl in W. lia.
    + lia.
    + intros; lia.
  - (* Propagate *)
    apply (quiet_inv_executing st i x Failing Rejected); auto;
      try discriminate.
    intros rest Hr. apply notify_won in Hr.
    destruct Hr as [Hr|Hr]; [exact Hr | discriminate].
  - (* Resume after a race won *)
    destruct I as (ND & Hin & Hlen & Hcap & Hwon).
    apply loop_inv_executing; eauto.
  - (* Resume after a race lost *)
    destruct I as (ND & Hin & Hlen & Hcap & Hwon).
    apply inv_executing_intro; auto; discriminate.
  - destruct I as (ND & Hin & Hlen & Hcap & Hwon).
    apply inv_executing_intro; auto; discriminate.
  - destruct I as (ND & Hin & Hlen & Hcap & Hwon).
    apply inv_executing_intro; auto; discriminate.
Qed.

(** *** What the awaited promise stands for *)

Lemma admit_members (ts : tasklist) (ex : list nat) (x : T) :
  (forall i, In i ex <-> i < length ts /\ is_spliced ts i = false) ->
  forall i, In i (ex ++ [length ts]) <->
            i < length (ts ++ [(x, Queued)]) /\
            is_spliced (ts ++ [(x, Queued)]) i = false.
Proof.
  intros Hin i. rewrite in_app_iff, length_app, is_spliced_app. simpl.
  rewrite Hin.
  destruct (Nat.eqb i (length ts)) eqn:E.
  - apply Nat.eqb_eq in E. subst. split; [intros _; split; [lia|auto]|].
    intros _. right. now left.
  - apply Nat.eqb_neq in E. split.
    + intros [[H1 H2]|[H|[]]]; [split; [lia|auto] | congruence].
    + intros [H1 H2]. left. split; [lia|auto].
Qed.

Lemma race_of_pending (ts : tasklist) (l all a : list nat) :
  race_of ts l all = Pending a ->
  a = all /\
  forall i, In i l -> is_spliced ts i = false /\ is_rejected ts i = false.
Proof.
  induction l as [|i l IH]; simpl.
  - intros H; inversion H. split; [reflexivity | tauto].
  - destruct (is_spliced ts i) eqn:E1; [discriminate|].
    destruct (is_rejected ts i) eqn:E2; [discriminate|].
    intros H. destruct (IH H) as [Ha Hl]. split; [exact Ha|].
    intros j [<-|Hj]; auto.
Qed.

Lemma race_of_lost (ts : tasklist) (l all : list nat) :
  race_of ts l all = Settled false -> exists i, is_rejected ts i = true.
Proof.
  induction l as [|i l IH]; simpl; [discriminate|].
  destruct (is_spliced ts i); [discriminate|].
  destruct (is_rejected ts i) eqn:E; [intros _; now exists i | exact IH].
Qed.

Lemma loop_inv_await (items : list T) :
  forall (ts : tasklist) (ex : list nat) (res : list R) (cs : list T),
    (forall i, In i ex <-> i < length ts /\ is_spliced ts i = false) ->
    inv_await (loop items ts ex res cs).
Proof.
  induction items as [|x items IH]; intros ts ex res cs Hin.
  - simpl. unfold inv_await, all_of; simpl.
    destruct (existsb (is_rejected ts) ex) eqn:E1.
    + apply existsb_exists in E1. destruct E1 as (i & _ & Hi). now exists i.
    + destruct (forallb (is_spliced ts) ex) eqn:E2.
      * intros i Hi. destruct (is_spliced ts i) eqn:E; [reflexivity|].
        assert (Hi' : In i ex) by (apply Hin; auto).
        rewrite forallb_forall in E2. rewrite (E2 i Hi') in E. discriminate.
      * split; [|split; [|exact E2]].
        -- intros i Hi Hn. destruct (is_spliced ts i) eqn:E; [reflexivity|].
           exfalso. apply Hn. apply Hin. auto.
        -- intros i Hi. split; [now apply Hin|].
           destruct (is_rejected ts i) eqn:E; [|reflexivity].
           assert (existsb (is_rejected ts) ex = true)
             by (apply existsb_exists; eauto).
           congruence.
  - simpl.
    pose proof (admit_members ts ex x Hin) as Hin'.
    destruct (Z.of_nat (length (ex ++ [length ts])) >=? limit)%Z.
    + unfold inv_await; simpl.
      destruct (race_of _ _ _) as [a|[]] eqn:E; [| exact I |].
      * apply race_of_pending in E. destruct E as [-> Hl]. split.
        -- destruct ex; discriminate.
        -- intros i Hi. destruct (Hl i Hi). split; [now apply Hin'|auto].
      * now apply race_of_lost in E.
    + now apply IH.
Qed.

(** the invariant reads the tasks through their number and through which
    are spliced or rejected *)
Lemma inv_await_ext (st st' : state) :
  length (tasks st') = length (tasks st) ->
  (forall j, is_spliced (tasks st') j = is_spliced (tasks st) j) ->
  (forall j, is_rejected (tasks st') j = is_rejected (tasks st) j) ->
  pc st' = pc st ->
  (results st' = results st \/
   exists j, j < length (tasks st) /\ is_spliced (tasks st) j = false) ->
  inv_await st -> inv_await st'.
Proof.
  intros Hl Hs Hr Hpc Hres. unfold inv_await. rewrite Hpc, Hl.
  assert (Hf : forall snap, forallb (is_spliced (tasks st')) snap
                            = forallb (is_spliced (tasks st)) snap).
  { intros snap. induction snap as [|k snap IH]; simpl; [reflexivity|].
    now rewrite Hs, IH. }
  destruct (pc st) as [rest [snap|[]]|[snap|[]]|res|].
  - intros [H1 H2]. split; [exact H1|]. intros i Hi.
    rewrite Hs, Hr. now apply H2.
  - auto.
  - intros [i Hi]. exists i. now rewrite Hr.
  - intros (H1 & H2 & H3). rewrite Hf. split; [|split; [|exact H3]].
    + intros i Hi Hn. rewrite Hs. now apply H1.
    + intros i Hi. rewrite Hr. now apply H2.
  - intros H i Hi. rewrite Hs. now apply H.
  - intros [i Hi]. exists i. now rewrite Hr.
  - intros [H1 H2]. split.
    + destruct Hres as [->|(j & Hj & Hsj)]; [exact H1|].
      rewrite (H2 j Hj) in Hsj. discriminate.
    + intros i Hi. rewrite Hs. now apply H2.
  - intros [i Hi]. exists i. now rewrite Hr.
Qed.

Lemma quiet_spliced (ts : tasklist) (i : nat) (x : T) (s s' : status R) :
  nth_error ts i = Some (x, s) -> s <> Spliced -> s' <> Spliced ->
  forall j, is_spliced (set_status ts i s') j = is_spliced ts j.
Proof.
  intros Hn Hs Hs' j. destruct (Nat.eq_dec i j) as [->|Hne].
  - rewrite (is_spliced_set_same _ _ _ _ s' Hn).
    unfold is_spliced, status_of. rewrite Hn. simpl.
    destruct s, s'; congruence.
  - now apply is_spliced_set_other.
Qed.

Lemma quiet_rejected (ts : tasklist) (i : nat) (x : T) (s s' : status R) :
  nth_error ts i = Some (x, s) -> s <> Rejected -> s' <> Rejected ->
  forall j, is_rejected (set_status ts i s') j = is_rejected ts j.
Proof.
  intros Hn Hs Hs' j. destruct (Nat.eq_dec i j) as [->|Hne].
  - rewrite (is_rejected_set_same _ _ _ _ s' Hn).
    unfold is_rejected, status_of. rewrite Hn. simpl.
    destruct s, s'; congruence.
  - now apply is_rejected_set_other.
Qed.

Lemma nth_lt (ts : tasklist) (i : nat) (t : T * status R) :
  nth_error ts i = Some t -> i < length ts.
Proof. intros H. apply nth_error_Some. congruence. Qed.

Lemma step_inv_await (ev : event) (st st' : state) :
  inv_executing limit st -> inv_await st -> step ev st = Some st' ->
  inv_await st'.
Proof.
  intros IE I H. open_step H.
  - (* Start *)
    apply (inv_await_ext st); simpl; auto.
    + apply set_status_length.
    + apply (quiet_spliced _ _ _ _ _ Hn); discriminate.
    + apply (quiet_rejected _ _ _ _ _ Hn); discriminate.
  - (* Finish *)
    apply (inv_await_ext st); simpl; auto.
    + apply set_status_length.
    + apply (quiet_spliced _ _ _ _ _ Hn); destruct (fn x); discriminate.
    + apply (quiet_rejected _ _ _ _ _ Hn); destruct (fn x); discriminate.
  - (* Push *)
    apply (inv_await_ext st); simpl; auto.
    + apply set_status_length.
    + apply (quiet_spliced _ _ _ _ _ Hn); discriminate.
    + apply (quiet_rejected _ _ _ _ _ Hn); discriminate.
    + right. exists i. split; [now apply nth_lt in Hn|].
      unfold is_spliced, status_of. now rewrite Hn.
  - (* Splice *)
    pose proof (nth_lt _ _ _ Hn) as Hlt.
    pose proof (quiet_rejected _ _ _ _ Spliced Hn) as Hrej.
    assert (Hi0 : is_spliced (tasks st) i = false)
      by (unfold is_spliced, status_of; now rewrite Hn).
    assert (Hsp : forall j, is_spliced (tasks st) j = true ->
                            is_spliced (set_status (tasks st) i Spliced) j
                            = true).
    { intros j Hj. destruct (Nat.eq_dec i j) as [->|Hne].
      - now rewrite (is_spliced_set_same _ _ _ _ Spliced Hn).
      - now rewrite is_spliced_set_other. }
    unfold inv_await in *; simpl.
    destruct (pc st) as [rest [snap|[]]|[snap|[]]|res|]; simpl.
    + destruct (existsb (Nat.eqb i) snap) eqn:E; [exact Logic.I|].
      destruct I as [H1 H2]. split; [exact H1|].
      intros j Hj. rewrite set_status_length.
      assert (Hne : i <> j).
      { intros ->. apply existsb_eqb_In in Hj. congruence. }
      rewrite is_spliced_set_other, Hrej by (auto; discriminate).
      now apply H2.
    + exact Logic.I.
    + destruct I as [j Hj]. exists j. rewrite Hrej; auto; discriminate.
    + destruct I as (H1 & H2 & H3).
      destruct (existsb (Nat.eqb i) snap) eqn:E.
      * destruct (forallb (is_spliced (set_status (tasks st) i Spliced))
                          snap) eqn:F; simpl.
        -- intros j Hj. rewrite set_status_length in Hj.
           destruct (in_dec Nat.eq_dec j snap) as [Hin|Hnin].
           ++ rewrite forallb_forall in F. now apply F.
           ++ apply Hsp. now apply H1.
        -- split; [|split; [|exact F]].
           ++ intros j Hj Hnin. rewrite set_status_length in Hj.
              apply Hsp. now apply H1.
           ++ intros j Hj. rewrite set_status_length, Hrej
                by (auto; discriminate). now apply H2.
      * exfalso. rewrite H1 in Hi0; [discriminate | exact Hlt |].
        intros Hin. apply existsb_eqb_In in Hin. congruence.
    + intros j Hj. rewrite set_status_length in Hj. apply Hsp. now apply I.
    + destruct I as [j Hj]. exists j. rewrite Hrej; auto; discriminate.
    + destruct I as [H1 H2]. split; [exact H1|].
      intros j Hj. rewrite set_status_length in Hj. apply Hsp. now apply H2.
    + destruct I as [j Hj]. exists j. rewrite Hrej; auto; discriminate.
  - (* Propagate *)
    pose proof (nth_lt _ _ _ Hn) as Hlt.
    pose proof (quiet_spliced _ _ _ _ Rejected Hn) as Hspl.
    assert (Hi0 : is_spliced (tasks st) i = false)
      by (unfold is_spliced, status_of; now rewrite Hn).
    assert (Hi1 : is_rejected (set_status (tasks st) i Rejected) i = true)
      by now rewrite (is_rejected_set_same _ _ _ _ Rejected Hn).
    assert (Hrj : forall j, is_rejected (tasks st) j = true ->
                            is_rejected (set_status (tasks st) i Rejected) j
                            = true).
    { intros j Hj. destruct (Nat.eq_dec i j) as [->|Hne].
      - exact Hi1.
      - now rewrite is_rejected_set_other. }
    unfold inv_await in *; simpl.
    destruct (pc st) as [rest [snap|[]]|[snap|[]]|res|]; simpl.
    + destruct (existsb (Nat.eqb i) snap) eqn:E; [now exists i|].
      destruct I as [H1 H2]. split; [exact H1|].
      intros j Hj. rewrite set_status_length.
      assert (Hne : i <> j).
      { intros ->. apply existsb_eqb_In in Hj. congruence. }
      rewrite is_rejected_set_other, Hspl by (auto; discriminate).
      now apply H2.
    + exact Logic.I.
    + destruct I as [j Hj]. exists j. now apply Hrj.
    + destruct I as (H1 & H2 & H3).
      destruct (existsb (Nat.eqb i) snap) eqn:E; [now exists i|].
      exfalso. rewrite H1 in Hi0; [discriminate | exact Hlt |].
      intros Hin. apply existsb_eqb_In in Hin. congruence.
    + intros j Hj. rewrite set_status_length in Hj.
      rewrite Hspl by discriminate. now apply I.
    + destruct I as [j Hj]. exists j. now apply Hrj.
    + destruct I as [H1 H2]. split; [exact H1|].
      intros j Hj. rewrite set_status_length in Hj.
      rewrite Hspl by discriminate. now apply H2.
    + destruct I as [j Hj]. exists j. now apply Hrj.
  - (* Resume after a race won *)
    apply loop_inv_await. apply IE.
  - unfold inv_await in *. rewrite Hpc in I. exact I.
  - unfold inv_await in *. rewrite Hpc in I. simpl. auto.
  - unfold inv_await in *. rewrite Hpc in I. exact I.
Qed.

(** *** The items, the calls and the results *)

Lemma nth_set_status_inv (ts : tasklist) (i j : nat) (x y : T)
      (s s' s2 : status R) :
  nth_error ts i = Some (x, s) ->
  nth_error (set_status ts i s') j = Some (y, s2) ->
  (j = i /\ y = x /\ s2 = s') \/ (j <> i /\ nth_error ts j = Some (y, s2)).
Proof.
  intros Hn H. destruct (Nat.eq_dec i j) as [->|Hne].
  - rewrite (nth_set_status_same _ _ _ _ s' Hn) in H.
    inversion H; subst. now left.
  - rewrite nth_set_status_other in H by exact Hne. right. split; auto.
Qed.

Lemma filter_set_status_keep (f : T * status R -> bool) (ts : tasklist)
      (i : nat) (x : T) (s s' : status R) :
  nth_error ts i = Some (x, s) -> f (x, s) = f (x, s') ->
  map fst (filter f (set_status ts i s')) = map fst (filter f ts).
Proof.
  revert i; induction ts as [|[y s0] ts IH]; intros [|i]; simpl;
    try discriminate.
  - intros H E; inversion H; subst. rewrite E.
    destruct (f (x, s')); reflexivity.
  - intros H E. destruct (f (y, s0)); simpl; rewrite (IH i H E);
      reflexivity.
Qed.

Lemma filter_set_status_gain (f : T * status R -> bool) (ts : tasklist)
      (i : nat) (x : T) (s s' : status R) :
  nth_error ts i = Some (x, s) -> f (x, s) = false -> f (x, s') = true ->
  Permutation (map fst (filter f (set_status ts i s')))
              (x :: map fst (filter f ts)).
Proof.
  revert i; induction ts as [|[y s0] ts IH]; intros [|i]; simpl;
    try discriminate.
  - intros H E E'; inversion H; subst. rewrite E, E'. reflexivity.
  - intros H E E'. specialize (IH i H E E').
    destruct (f (y, s0)); simpl; [|exact IH].
    rewrite IH. apply perm_swap.
Qed.

Lemma nth_app_queued (ts : tasklist) (x y : T) (i : nat) (s : status R) :
  nth_error (ts ++ [(x, Queued)]) i = Some (y, s) -> s <> Queued ->
  nth_error ts i = Some (y, s).
Proof.
  intros H Hs. destruct (Nat.lt_ge_cases i (length ts)).
  - now rewrite nth_error_app1 in H.
  - rewrite nth_error_app2 in H by lia.
    destruct (i - length ts) as [|[|k]]; simpl in H; try discriminate.
    inversion H; subst. congruence.
Qed.

Lemma loop_inv_items (items0 items : list T) :
  forall (ts : tasklist) (ex : list nat) (res : list R) (cs : list T),
    map fst ts ++ items = items0 ->
    Permutation cs (map fst (filter started ts)) ->
    Permutation (map Some res) (map fn (map fst (filter pushed ts))) ->
    (forall i x r, nth_error ts i = Some (x, Fulfilled r) ->
                   fn x = Some r) ->
    (forall i x, nth_error ts i = Some (x, Failing) \/
                 nth_error ts i = Some (x, Rejected) -> fn x = None) ->
    inv_items fn items0 (loop items ts ex res cs).
Proof.
  induction items as [|x items IH]; intros ts ex res cs Hit Hcs Hres Hf Hr.
  - simpl. unfold inv_items; simpl. rewrite app_nil_r in Hit. auto.
  - simpl.
    assert (Hit' : map fst (ts ++ [(x, Queued)]) ++ items = items0).
    { rewrite map_app. simpl. rewrite <- app_assoc. exact Hit. }
    assert (Hcs' : Permutation cs
                     (map fst (filter started (ts ++ [(x, Queued)])))).
    { rewrite filter_app. simpl. now rewrite app_nil_r. }
    assert (Hres' : Permutation (map Some res)
                      (map fn (map fst (filter pushed
                                          (ts ++ [(x, Queued)]))))).
    { rewrite filter_app. simpl. now rewrite app_nil_r. }
    assert (Hf' : forall i y r,
               nth_error (ts ++ [(x, Queued)]) i = Some (y, Fulfilled r) ->
               fn y = Some r).
    { intros i y r H. apply nth_app_queued in H; [eauto | discriminate]. }
    assert (Hr' : forall i y,
               nth_error (ts ++ [(x, Queued)]) i = Some (y, Failing) \/
               nth_error (ts ++ [(x, Queued)]) i = Some (y, Rejected) ->
               fn y = None).
    { intros i y [H|H]; apply nth_app_queued in H; try discriminate;
        eauto. }
    destruct (Z.of_nat (length (ex ++ [length ts])) >=? limit)%Z.
    + unfold inv_items; simpl. auto.
    + now apply IH.
Qed.

Lemma accounted_notify (items : list T) (ts ts' ts2 : tasklist) (i : nat)
      (ok : bool) (m : main T R) :
  map fst ts' = map fst ts ->
  accounted items ts m -> accounted items ts' (notify ts2 i ok m).
Proof.
  intros E. unfold accounted.
  destruct m as [rest [snap|b]|[snap|b]|res|]; simpl; rewrite ?E; auto.
  - destruct (existsb _ snap); simpl; rewrite ?E; auto.
  - destruct (existsb _ snap); simpl; rewrite ?E; auto.
    destruct ok; [destruct (forallb _ snap)|]; simpl; rewrite ?E; auto.
Qed.

Lemma step_inv_items (items : list T) (ev : event) (st st' : state) :
  inv_items fn items st -> step ev st = Some st' -> inv_items fn items st'.
Proof.
  intros (Hit & Hcs & Hres & Hf & Hr) H. open_step H.
  - (* Start *)
    unfold inv_items; simpl. split; [|split; [|split; [|split]]].
    + unfold accounted in *. rewrite set_status_fst. exact Hit.
    + rewrite (filter_set_status_gain started _ _ _ _ Running Hn)
        by reflexivity.
      rewrite <- Hcs. symmetry. apply Permutation_cons_append.
    + rewrite (filter_set_status_keep pushed _ _ _ _ Running Hn)
        by reflexivity. exact Hres.
    + intros j y r H.
      destruct (nth_set_status_inv _ _ _ _ _ _ _ _ Hn H)
        as [(_ & _ & E)|[_ H']]; [discriminate | eauto].
    + intros j y [H|H];
        destruct (nth_set_status_inv _ _ _ _ _ _ _ _ Hn H)
          as [(_ & _ & E)|[_ H']]; try discriminate; eauto.
  - (* Finish *)
    unfold inv_items; simpl. split; [|split; [|split; [|split]]].
    + unfold accounted in *. rewrite set_status_fst. exact Hit.
    + rewrite (filter_set_status_keep started _ _ _ _ _ Hn); [exact Hcs|].
      destruct (fn x); reflexivity.
    + rewrite (filter_set_status_keep pushed _ _ _ _ _ Hn); [exact Hres|].
      destruct (fn x); reflexivity.
    + intros j y r H.
      destruct (nth_set_status_inv _ _ _ _ _ _ _ _ Hn H)
        as [(_ & -> & E)|[_ H']]; [|eauto].
      destruct (fn x); inversion E; reflexivity.
    + intros j y [H|H];
        destruct (nth_set_status_inv _ _ _ _ _ _ _ _ Hn H)
          as [(_ & -> & E)|[_ H']]; eauto;
        destruct (fn x); try discriminate; reflexivity.
  - (* Push *)
    unfold inv_items; simpl. split; [|split; [|split; [|split]]].
    + unfold accounted in *. rewrite set_status_fst. exact Hit.
    + rewrite (filter_set_status_keep started _ _ _ _ Pushed Hn)
        by reflexivity. exact Hcs.
    + rewrite (filter_set_status_gain pushed _ _ _ _ Pushed Hn)
        by reflexivity.
      simpl. rewrite (Hf _ _ _ Hn), map_app. simpl.
      rewrite <- Hres. symmetry. apply Permutation_cons_append.
    + intros j y r' H.
      destruct (nth_set_status_inv _ _ _ _ _ _ _ _ Hn H)
        as [(_ & _ & E)|[_ H']]; [discriminate | eauto].
    + intros j y [H|H];
        destruct (nth_set_status_inv _ _ _ _ _ _ _ _ Hn H)
          as [(_ & _ & E)|[_ H']]; try discriminate; eauto.
  - (* Splice *)
    unfold inv_items; simpl. split; [|split; [|split; [|split]]].
    + apply accounted_notify with (ts := tasks st); auto.
      apply set_status_fst.
    + rewrite (filter_set_status_keep started _ _ _ _ Spliced Hn)
        by reflexivity. exact Hcs.
    + rewrite (filter_set_status_keep pushed _ _ _ _ Spliced Hn)
        by reflexivity. exact Hres.
    + intros j y r H.
      destruct (nth_set_status_inv _ _ _ _ _ _ _ _ Hn H)
        as [(_ & _ & E)|[_ H']]; [discriminate | eauto].
    + intros j y [H|H];
        destruct (nth_set_status_inv _ _ _ _ _ _ _ _ Hn H)
          as [(_ & _ & E)|[_ H']]; try discriminate; eauto.
  - (* Propagate *)
    unfold inv_items; simpl. split; [|split; [|split; [|split]]].
    + apply accounted_notify with (ts := tasks st); auto.
      apply set_status_fst.
    + rewrite (filter_set_status_keep started _ _ _ _ Rejected Hn)
        by reflexivity. exact Hcs.
    + rewrite (filter_set_status_keep pushed _ _ _ _ Rejected Hn)
        by reflexivity. exact Hres.
    + intros j y r H.
      destruct (nth_set_status_inv _ _ _ _ _ _ _ _ Hn H)
        as [(_ & _ & E)|[_ H']]; [discriminate | eauto].
    + intros j y [H|H];
        destruct (nth_set_status_inv _ _ _ _ _ _ _ _ Hn H)
          as [(_ & -> & E)|[_ H']]; try discriminate; eauto.
  - (* Resume after a race won *)
    try rewrite Hpc in Hit. simpl in Hit. now apply loop_inv_items.
  - try rewrite Hpc in Hit. unfold inv_items; simpl.
    split; [now exists rest0 | auto].
  - try rewrite Hpc in Hit. unfold inv_items; simpl. auto.
  - try rewrite Hpc in Hit. unfold inv_items; simpl.
    split; [exists []; rewrite app_nil_r; exact Hit | auto].
Qed.

(** *** Every reachable state *)

Local Abbreviation invariant := (Executor.invariant fn limit).

Lemma start_invariant (items : list T) :
  invariant items (mapConcurrency R limit items).
Proof.
  split; [apply start_inv_executing|split].
  - apply loop_inv_items; simpl; auto.
    + intros [|i] x r; discriminate.
    + intros [|i] x [?|?]; discriminate.
  - apply loop_inv_await. intros i. simpl. split; [tauto | lia].
Qed.

Lemma step_invariant (items : list T) (ev : event) (st st' : state) :
  invariant items st -> step ev st = Some st' -> invariant items st'.
Proof.
  intros (I1 & I2 & I3) H. split; [|split].
  - eapply step_inv_executing; eauto.
  - eapply step_inv_items; eauto.
  - eapply step_inv_await; eauto.
Qed.

Lemma run_invariant (items : list T) (evs : list event) :
  forall st st', invariant items st -> run evs st = Some st' ->
                 invariant items st'.
Proof.
  induction evs as [|ev evs IH]; simpl; intros st st' I H.
  - inversion H; subst; exact I.
  - destruct (step ev st) as [st1|] eqn:E; [|discriminate].
    eapply IH; [|exact H]. eapply step_invariant; eauto.
Qed.

Lemma reachable_invariant (items : list T) (st : state) :
  reachable fn limit items st -> invariant items st.
Proof.
  intros [evs H]. eapply run_invariant; [apply start_invariant | exact H].
Qed.

Lemma run_app (evs1 evs2 : list event) (st : state) :
  run (evs1 ++ evs2) st
  = match run evs1 st with Some st1 => run evs2 st1 | None => None end.
Proof.
  revert st; induction evs1 as [|ev evs1 IH]; intros st; simpl;
    [reflexivity|].
  destruct (step ev st); [apply IH | reflexivity].
Qed.

Lemma reachable_step (items : list T) (ev : event) (st st' : state) :
  reachable fn limit items st -> step ev st = Some st' ->
  reachable fn limit items st'.
Proof.
  intros [evs H] E. exists (evs ++ [ev]).
  rewrite run_app, H. simpl. now rewrite E.
Qed.

Lemma inflight_bound (items : list T) (st : state) :
  reachable fn limit items st ->
  (Z.of_nat (inflight st) <= Z.max limit 1)%Z.
Proof.
  intros H. apply reachable_invariant in H.
  destruct H as ((_ & _ & Hlen & Hcap & _) & _).
  rewrite inflight_weigh.
  assert (weigh w_running (tasks st) <= weigh w_live (tasks st)).
  { apply weigh_le. intros []; simpl; lia. }
  unfold ceiling in Hcap. lia.
Qed.

(** *** Runs come to an end *)

Lemma job_enabled (st : state) (i : nat) (x : T) (s : status R)
      (ev : event) :
  nth_error (tasks st) i = Some (x, s) -> job_of i s = Some ev ->
  exists st', step ev st = Some st'.
Proof.
  intros Hn Hj. destruct s; simpl in Hj; inversion Hj; subst; simpl;
    rewrite Hn; eauto.
Qed.

Lemma first_job_some (ts : tasklist) :
  forall k ev, first_job ts k = Some ev ->
               exists i x s, nth_error ts i = Some (x, s) /\
                             job_of (k + i) s = Some ev.
Proof.
  induction ts as [|[x s] ts IH]; simpl; intros k ev H; [discriminate|].
  destruct (job_of k s) as [ev'|] eqn:E.
  - inversion H; subst. exists 0, x, s. simpl. rewrite Nat.add_0_r. auto.
  - destruct (IH _ _ H) as (i & y & s' & H1 & H2).
    exists (S i), y, s'. simpl. split; [exact H1|].
    now rewrite Nat.add_succ_r.
Qed.

Lemma first_job_none (ts : tasklist) :
  forall k, first_job ts k = None ->
            forall i x s, nth_error ts i = Some (x, s) ->
                          s = Spliced \/ s = Rejected.
Proof.
  induction ts as [|[x s] ts IH]; simpl; intros k H i y s' Hn.
  - destruct i; discriminate.
  - destruct (job_of k s) eqn:E; [discriminate|].
    destruct i as [|i]; simpl in Hn.
    + inversion Hn; subst. destruct s'; simpl in E; try discriminate; auto.
    + eapply IH; eauto.
Qed.

Lemma settled_or_job (ts : tasklist) (i : nat) :
  i < length ts ->
  (forall j x s, nth_error ts j = Some (x, s) ->
                 s = Spliced \/ s = Rejected) ->
  is_spliced ts i = true \/ is_rejected ts i = true.
Proof.
  intros Hlt H. unfold is_spliced, is_rejected, status_of.
  destruct (nth_error ts i) as [[x s]|] eqn:E.
  - destruct (H _ _ _ E) as [->| ->]; simpl; auto.
  - apply nth_error_None in E. lia.
Qed.

Lemma next_enabled (st : state) :
  inv_await st -> settled st = false ->
  exists ev st', next st = Some ev /\ step ev st = Some st'.
Proof.
  intros I Hs. unfold next.
  destruct (first_job (tasks st) 0) as [ev|] eqn:E.
  - destruct (first_job_some _ _ _ E) as (i & x & s & H1 & H2).
    simpl in H2. destruct (job_enabled st i x s ev H1 H2) as [st' H'].
    eauto.
  - pose proof (first_job_none _ _ E) as Hall.
    unfold inv_await in I. unfold settled in Hs.
    destruct (pc st) as [rest [snap|b]|[snap|b]|res|] eqn:Hpc;
      try discriminate.
    + exfalso. destruct I as [H1 H2].
      destruct snap as [|i snap]; [congruence|].
      destruct (H2 i (or_introl eq_refl)) as (Hlt & Hsp & Hrj).
      destruct (settled_or_job _ i Hlt Hall); congruence.
    + exists Resume. simpl. rewrite Hpc. destruct b; eauto.
    + exfalso. destruct I as (H1 & H2 & H3).
      assert (Hex : exists i, In i snap /\
                              is_spliced (tasks st) i = false).
      { clear -H3. induction snap as [|i snap IH]; simpl in H3;
          [discriminate|].
        destruct (is_spliced (tasks st) i) eqn:E.
        - destruct (IH H3) as (j & Hj & Hs). exists j. split; auto.
          now right.
        - exists i. split; auto. now left. }
      destruct Hex as (i & Hi & Hsp).
      destruct (H2 i Hi) as [Hlt Hrj].
      destruct (settled_or_job _ i Hlt Hall); congruence.
    + exists Resume. simpl. rewrite Hpc. destruct b; eauto.
Qed.

Lemma notify_jobs (ts : tasklist) (i : nat) (ok : bool) (m : main T R) :
  pc_jobs (notify ts i ok m) = pc_jobs m.
Proof.
  destruct m as [rest [snap|b]|[snap|b]|res|]; simpl notify; auto.
  - destruct (existsb _ snap); reflexivity.
  - destruct (existsb _ snap); [|reflexivity].
    destruct ok; [destruct (forallb _ snap)|]; reflexivity.
Qed.

Lemma loop_jobs (items : list T) :
  forall (ts : tasklist) (ex : list nat) (res : list R) (cs : list T),
    jobs_left (loop items ts ex res cs)
    <= weigh w_jobs ts + 5 * length items + 1.
Proof.
  induction items as [|x items IH]; intros ts ex res cs;
    cbn [Executor.loop length].
  - unfold jobs_left, pc_jobs; cbn [tasks pc]. lia.
  - destruct (Z.of_nat (length (ex ++ [length ts])) >=? limit)%Z.
    + unfold jobs_left, pc_jobs; cbn [tasks pc]. rewrite weigh_app.
      cbn [weigh snd w_jobs]. lia.
    + specialize (IH (ts ++ [(x, Queued)]) (ex ++ [length ts]) res cs).
      rewrite weigh_app in IH. cbn [weigh snd w_jobs] in IH. lia.
Qed.

Lemma step_decreases (ev : event) (st st' : state) :
  step ev st = Some st' -> jobs_left st' < jobs_left st.
Proof.
  intros H. open_step H; unfold jobs_left; cbn [tasks pc with_tasks].
  - pose proof (weigh_set_status w_jobs _ _ _ _ Running Hn) as W.
    cbn [w_jobs] in W. lia.
  - pose proof (weigh_set_status w_jobs _ _ _ _
                  (match fn x with Some r => Fulfilled r | None => Failing
                   end) Hn) as W.
    destruct (fn x); cbn [w_jobs] in W; lia.
  - pose proof (weigh_set_status w_jobs _ _ _ _ Pushed Hn) as W.
    cbn [w_jobs] in W. lia.
  - pose proof (weigh_set_status w_jobs _ _ _ _ Spliced Hn) as W.
    cbn [w_jobs] in W. rewrite notify_jobs. lia.
  - pose proof (weigh_set_status w_jobs _ _ _ _ Rejected Hn) as W.
    cbn [w_jobs] in W. rewrite notify_jobs. lia.
  - pose proof (loop_jobs rest0 (tasks st) (executing st) (results st)
                  (calls st)) as L.
    unfold jobs_left in L. rewrite Hpc. unfold pc_jobs at 2. lia.
  - rewrite Hpc. unfold pc_jobs. lia.
  - rewrite Hpc. unfold pc_jobs. lia.
  - rewrite Hpc. unfold pc_jobs. lia.
Qed.

Lemma notify_settled (ts : tasklist) (i : nat) (ok : bool) (m : main T R) :
  match m with Resolved _ | Thrown => notify ts i ok m = m | _ => True end.
Proof. destruct m as [rest [snap|b]|[snap|b]|res|]; simpl; auto. Qed.

(** once the body has returned or thrown it stays so, and no item is
    admitted any more *)
Lemma settled_step (ev : event) (st st' : state) :
  settled st = true -> step ev st = Some st' ->
  pc st' = pc st /\ length (tasks st') = length (tasks st).
Proof.
  intros Hs H. unfold settled in Hs.
  open_step H; simpl; rewrite ?set_status_length; try discriminate Hs;
    auto.
  - destruct (pc st) as [rest [snap|b]|[snap|b]|res|]; try discriminate;
      auto.
  - destruct (pc st) as [rest [snap|b]|[snap|b]|res|]; try discriminate;
      auto.
Qed.

Lemma drive_settles (items : list T) (fuel : nat) :
  forall st, invariant items st -> jobs_left st <= fuel ->
             settled (drive fn limit fuel st) = true.
Proof.
  induction fuel as [|fuel IH]; intros st I Hle; simpl.
  - unfold jobs_left, pc_jobs, settled in *.
    destruct (pc st) as [rest p|p|res|]; auto; lia.
  - destruct (settled st) eqn:Hs.
    + destruct (next st) as [ev|]; [|exact Hs].
      destruct (step ev st) as [st'|] eqn:E; [|exact Hs].
      apply IH.
      * eapply step_invariant; eauto.
      * apply step_decreases in E. lia.
    + destruct (next_enabled st (proj2 (proj2 I)) Hs)
        as (ev & st' & -> & E).
      rewrite E. apply IH.
      * eapply step_invariant; eauto.
      * apply step_decreases in E. lia.
Qed.

Lemma drive_reachable (items : list T) (fuel : nat) :
  forall st, reachable fn limit items st ->
             reachable fn limit items (drive fn limit fuel st).
Proof.
  induction fuel as [|fuel IH]; intros st H; simpl; [exact H|].
  destruct (next st) as [ev|]; [|exact H].
  destruct (step ev st) as [st'|] eqn:E; [|exact H].
  apply IH. eapply reachable_step; eauto.
Qed.

(** *** When the body has returned *)

Lemma all_spliced (ts : tasklist) :
  (forall i, i < length ts -> is_spliced ts i = true) ->
  Forall (fun t => snd t = Spliced) ts.
Proof.
  induction ts as [|[x s] ts IH]; intros H; constructor.
  - specialize (H 0 (Nat.lt_0_succ _)).
    unfold is_spliced, status_of in H. simpl in *.
    destruct s; try discriminate; reflexivity.
  - apply IH. intros i Hi. apply (H (S i)). simpl. lia.
Qed.

Lemma filter_all (f : T * status R -> bool) (ts : tasklist) :
  Forall (fun t => f t = true) ts -> filter f ts = ts.
Proof.
  induction 1 as [|t ts Ht _ IH]; simpl; [reflexivity|].
  now rewrite Ht, IH.
Qed.

Lemma resolved_facts (items : list T) (st : state) (res : list R) :
  invariant items st -> pc st = Resolved res ->
  Forall (fun t => snd t = Spliced) (tasks st) /\
  map fst (tasks st) = items /\
  Permutation (calls st) items /\
  Permutation (map Some res) (map fn items).
Proof.
  intros (I1 & (Hit & Hcs & Hres & _) & I3) Hpc.
  unfold inv_await in I3. unfold accounted in Hit.
  rewrite Hpc in I3, Hit. destruct I3 as [-> Hall].
  apply all_spliced in Hall.
  assert (F1 : filter started (tasks st) = tasks st).
  { apply filter_all. eapply Forall_impl; [|exact Hall].
    intros [x s] E; simpl in E; subst. reflexivity. }
  assert (F2 : filter pushed (tasks st) = tasks st).
  { apply filter_all. eapply Forall_impl; [|exact Hall].
    intros [x s] E; simpl in E; subst. reflexivity. }
  rewrite F1 in Hcs. rewrite F2 in Hres. rewrite Hit in Hcs, Hres.
  auto.
Qed.

Lemma thrown_facts (items : list T) (st : state) :
  invariant items st -> pc st = Thrown ->
  exists x, In x items /\ fn x = None.
Proof.
  intros (I1 & (Hit & _ & _ & _ & Hr) & I3) Hpc.
  unfold inv_await in I3. unfold accounted in Hit.
  rewrite Hpc in I3, Hit. destruct I3 as [i Hi].
  destruct Hit as [rest Hit].
  unfold is_rejected, status_of in Hi.
  destruct (nth_error (tasks st) i) as [[x s]|] eqn:E; [|discriminate].
  simpl in Hi. destruct s; try discriminate.
  exists x. split; [|eapply Hr; eauto].
  rewrite <- Hit. apply in_or_app. left.
  apply nth_error_In in E. apply (in_map fst) in E. exact E.
Qed.

(** C6: in every state mapConcurrency can reach, the calls of fn started
    and not yet settled number at most the limit N when N is at least 1
    (and at most 1 for a limit below 1, which the loop treats as 1); and
    once the returned promise has resolved, every item given has been
    admitted, fn has been called on the items once each, and each call has
    completed. *)
Theorem bounded_concurrency (items : list T) (st : state) :
  reachable fn limit items st ->
  (Z.of_nat (inflight st) <= Z.max limit 1)%Z /\
  ((1 <= limit)%Z -> (Z.of_nat (inflight st) <= limit)%Z) /\
  (forall res, pc st = Resolved res ->
               map fst (tasks st) = items /\
               Permutation (calls st) items /\
               Forall (fun t => snd t = Spliced) (tasks st)).
Proof.
  intros H. pose proof (inflight_bound items st H) as B.
  split; [exact B|]. split; [lia|].
  intros res Hpc. apply reachable_invariant in H.
  destruct (resolved_facts items st res H Hpc) as (A1 & A2 & A3 & _).
  auto.
Qed.

(** C1 (as amended): mapConcurrency resolves only after the operation of
    every item has completed with success, its results being those of the
    items.  While the body has not ended some job can run, and every job
    brings the end nearer, so every run of the event loop ends the body:
    with a resolved promise when no operation rejects; when an operation
    rejects the promise never resolves, it is rejected, and once it is, no
    item still waiting is admitted. *)
Theorem executor_waits_or_rejects (items : list T) (st : state) :
  reachable fn limit items st ->
  (forall res, pc st = Resolved res ->
               map fst (tasks st) = items /\
               Forall (fun t => snd t = Spliced) (tasks st) /\
               Permutation (map Some res) (map fn items)) /\
  (settled st = false -> exists ev st', step ev st = Some st') /\
  (forall ev st', step ev st = Some st' -> jobs_left st' < jobs_left st) /\
  settled (drive fn limit (jobs_left st) st) = true /\
  ((forall x, In x items -> fn x <> None) ->
   exists res, pc (drive fn limit (jobs_left st) st) = Resolved res) /\
  ((exists x, In x items /\ fn x = None) ->
   pc (drive fn limit (jobs_left st) st) = Thrown) /\
  (pc st = Thrown ->
   (exists x, In x items /\ fn x = None) /\
   forall ev st', step ev st = Some st' ->
                  pc st' = Thrown /\ length (tasks st') = length (tasks st)).
Proof.
  intros H. pose proof (reachable_invariant items st H) as I.
  pose proof (drive_settles items (jobs_left st) st I (Nat.le_refl _)) as D.
  pose proof (reachable_invariant items _
                (drive_reachable items (jobs_left st) st H)) as ID.
  split; [|split; [|split; [|split; [exact D|split; [|split]]]]].
  - intros res Hpc.
    destruct (resolved_facts items st res I Hpc) as (A1 & A2 & _ & A4).
    auto.
  - intros Hs.
    destruct (next_enabled st (proj2 (proj2 I)) Hs) as (ev & st' & _ & E).
    eauto.
  - intros ev st'. apply step_decreases.
  - intros Hok. unfold settled in D.
    destruct (pc (drive fn limit (jobs_left st) st)) as [?|?|res|] eqn:E;
      try discriminate; [now exists res|].
    destruct (thrown_facts items _ ID E) as (x & Hx & Hn).
    exfalso. now apply (Hok x Hx).
  - intros (x & Hx & Hn). unfold settled in D.
    destruct (pc (drive fn limit (jobs_left st) st)) as [?|?|res|] eqn:E;
      try discriminate; [|reflexivity].
    destruct (resolved_facts items _ res ID E) as (_ & _ & _ & A4).
    exfalso. apply (in_map fn) in Hx. rewrite Hn in Hx.
    apply (Permutation_in _ (Permutation_sym A4)) in Hx.
    apply in_map_iff in Hx. destruct Hx as (r & Hr & _). discriminate.
  - intros Hpc. split; [exact (thrown_facts items st I Hpc)|].
    intros ev st' E.
    assert (Hs : settled st = true) by (unfold settled; now rewrite Hpc).
    destruct (settled_step ev st st' Hs E) as [E1 E2].
    split; [congruence | exact E2].
Qed.

End ExecutorFacts.

(** an instance of C6: three items under limit 2 with two calls running *)
Lemma bounded_concurrency_witness :
  reachable tenfold 2 [1; 2; 3] twoRunning /\
  (Z.of_nat (inflight twoRunning) <= 2)%Z.
Proof.
  assert (H : reachable tenfold 2 [1; 2; 3] twoRunning)
    by (exists [Start 0; Start 1]; reflexivity).
  split; [exact H|].
  apply (proj1 (proj2 (bounded_concurrency nat nat tenfold 2 [1; 2; 3]
                         twoRunning H))).
  lia.
Defined.

(** under a limit of 0 the loop still admits an item before it awaits, and
    its call runs: a limit below 1 counts as 1 *)
Lemma limit_zero_runs_one :
  reachable tenfold 0 [7] oneRunning /\
  (Z.of_nat (inflight oneRunning) > 0)%Z.
Proof.
  split; [exists [Start 0]; reflexivity | vm_compute; reflexivity].
Qed.

(** an instance of C1: from the start of three items under limit 2 the
    run ends resolved *)
Lemma executor_waits_or_rejects_witness :
  reachable tenfold 2 [1; 2; 3] (mapConcurrency nat 2 [1; 2; 3]) /\
  exists res,
    pc (drive tenfold 2 (jobs_left (mapConcurrency nat 2 [1; 2; 3]))
              (mapConcurrency nat 2 [1; 2; 3])) = Resolved res.
Proof.
  assert (H : reachable tenfold 2 [1; 2; 3] (mapConcurrency nat 2 [1; 2; 3]))
    by (exists []; reflexivity).
  split; [exact H|].
  destruct (executor_waits_or_rejects nat nat tenfold 2 [1; 2; 3] _ H)
    as (_ & _ & _ & _ & Hres & _).
  apply Hres. intros x _. discriminate.
Defined.

(** C1 as stated fails: under limit 1 the operation of item 1 rejects, the
    race rejects with it, the body throws, item 2 is never admitted and no
    job is left that could start it. *)
Lemma rejection_stops_admission :
  run failsOn1 1 [Start 0; Finish 0; Propagate 0; Resume]
      (mapConcurrency nat 1 [1; 2]) = Some rejectedFirst /\
  map fst (tasks rejectedFirst) = [1] /\
  forall ev, step failsOn1 1 ev rejectedFirst = None.
Proof.
  split; [reflexivity|]. split; [reflexivity|].
  intros [i|i|i|i|i|]; try reflexivity;
    destruct i as [|[|i]]; reflexivity.
Qed.

(** ** The matcher on the patterns of the helpers *)

Section MatcherFacts.
Variable A : Type.
Variable total : nat.

Lemma star_loop_eq (ma : str -> caps -> (str -> caps -> option A) -> option A)
      (k : str -> caps -> option A) (fuel : nat) (s : str) (c : caps) :
  star_loop ma k (S fuel) s c
  = match ma s c (fun s' c' =>
                    if (length s' <? length s)%nat
                    then star_loop ma k fuel s' c' else None) with
    | Some x => Some x
    | None => k s c
    end.
Proof. reflexivity. Qed.

(** the star of a class is its greedy run *)
Lemma star_loop_chr (p : N -> bool) (k : str -> caps -> option A) :
  forall fuel s c,
    length s <= fuel ->
    star_loop (mt total (Chr p)) k fuel s c = star_chr p k s c.
Proof.
  induction fuel as [|fuel IH]; intros s c Hle.
  - destruct s; [reflexivity | simpl in Hle; lia].
  - rewrite star_loop_eq. destruct s as [|x s]; [reflexivity|].
    cbn [mt star_chr]. destruct (p x); [|reflexivity].
    assert (E : (length s <? length (x :: s))%nat = true)
      by (apply Nat.ltb_lt; simpl; lia).
    rewrite E, IH by (simpl in Hle; lia). reflexivity.
Qed.

Lemma mt_star_chr (p : N -> bool) (k : str -> caps -> option A)
      (s : str) (c : caps) :
  mt total (Star (Chr p)) s c k = star_chr p k s c.
Proof. cbn [mt]. now apply star_loop_chr. Qed.

(** the equations of the matcher *)
Lemma mt_seq (a b : re) (s : str) (c : caps) (k : str -> caps -> option A) :
  mt total (Seq a b) s c k = mt total a s c (fun s' c' => mt total b s' c' k).
Proof. reflexivity. Qed.

Lemma mt_alt (a b : re) (s : str) (c : caps) (k : str -> caps -> option A) :
  mt total (Alt a b) s c k
  = match mt total a s c k with
    | Some x => Some x
    | None => mt total b s c k
    end.
Proof. reflexivity. Qed.

Lemma mt_opt (a : re) (s : str) (c : caps) (k : str -> caps -> option A) :
  mt total (Opt a) s c k
  = match mt total a s c k with
    | Some x => Some x
    | None => k s c
    end.
Proof. reflexivity. Qed.

Lemma mt_chr (p : N -> bool) (s : str) (c : caps)
      (k : str -> caps -> option A) :
  mt total (Chr p) s c k
  = match s with
    | x :: s' => if p x then k s' c else None
    | [] => None
    end.
Proof. reflexivity. Qed.

Lemma mt_bol (s : str) (c : caps) (k : str -> caps -> option A) :
  mt total Bol s c k = if Nat.eqb (length s) total then k s c else None.
Proof. reflexivity. Qed.

(** a literal is a test of the front of the input *)
Lemma mt_word (ci : bool) (wd : str) :
  forall s c (k : str -> caps -> option A),
    mt total (word ci wd) s c k
    = if starts ci wd s then k (skipn (length wd) s) c else None.
Proof.
  induction wd as [|a wd IH]; intros s c k; [reflexivity|].
  destruct wd as [|b wd].
  - cbn [word ch mt starts length skipn].
    destruct s as [|x s]; [reflexivity|].
    destruct (same ci a x); [|reflexivity].
    destruct s; reflexivity.
  - change (word ci (a :: b :: wd)) with (Seq (ch ci a) (word ci (b :: wd))).
    cbn [mt ch]. destruct s as [|x s]; [reflexivity|].
    cbn [starts]. destruct (same ci a x); [|reflexivity].
    rewrite IH. reflexivity.
Qed.

(** a match that succeeds has run its continuation on a suffix of the
    input, with no other captures changed than those of the pattern *)
Lemma mt_invokes (r : re) :
  forall s c (k : str -> caps -> option A) x,
    mt total r s c k = Some x ->
    exists s' c',
      k s' c' = Some x /\
      (exists p, s = p ++ s') /\
      (forall i, ~ In i (groups_of r) -> cap i c' = cap i c).
Proof.
  induction r as [|p|a IHa b IHb|a IHa b IHb|a IHa|a IHa|i a IHa| |];
    intros s c k x H.
  - exists s, c. split; [exact H|]. split; [now exists []|auto].
  - rewrite mt_chr in H. destruct s as [|y s1]; [discriminate|].
    destruct (p y); [|discriminate].
    exists s1, c. split; [exact H|]. split; [now exists [y]|auto].
  - rewrite mt_seq in H.
    destruct (IHa _ _ _ _ H) as (s1 & c1 & H1 & [p1 E1] & G1).
    destruct (IHb _ _ _ _ H1) as (s2 & c2 & H2 & [p2 E2] & G2).
    exists s2, c2. split; [exact H2|]. split.
    + exists (p1 ++ p2). now rewrite E1, E2, app_assoc.
    + intros i Hi. cbn [groups_of] in Hi. rewrite in_app_iff in Hi.
      rewrite G2, G1; tauto.
  - rewrite mt_alt in H. cbn [groups_of].
    destruct (mt total a s c k) as [y|] eqn:E.
    + inversion H; subst y.
      destruct (IHa _ _ _ _ E) as (s1 & c1 & H1 & P1 & G1).
      exists s1, c1. repeat split; auto.
      intros i Hi. apply G1. rewrite in_app_iff in Hi. tauto.
    + destruct (IHb _ _ _ _ H) as (s1 & c1 & H1 & P1 & G1).
      exists s1, c1. repeat split; auto.
      intros i Hi. apply G1. rewrite in_app_iff in Hi. tauto.
  - cbn [mt groups_of] in *.
    remember (length s) as fuel eqn:Hf. clear Hf.
    revert s c H. induction fuel as [|fuel IHf]; intros s c H.
    + exists s, c. split; [exact H|]. split; [now exists []|auto].
    + rewrite star_loop_eq in H.
      destruct (mt total a s c _) as [y|] eqn:E.
      * inversion H; subst y.
        destruct (IHa _ _ _ _ E) as (s1 & c1 & H1 & [p1 E1] & G1).
        destruct (length s1 <? length s)%nat; [|discriminate].
        destruct (IHf _ _ H1) as (s2 & c2 & H2 & [p2 E2] & G2).
        exists s2, c2. split; [exact H2|]. split.
        -- exists (p1 ++ p2). now rewrite E1, E2, app_assoc.
        -- intros i Hi. rewrite G2, G1; auto.
      * exists s, c. split; [exact H|]. split; [now exists []|auto].
  - rewrite mt_opt in H. cbn [groups_of].
    destruct (mt total a s c k) as [y|] eqn:E.
    + inversion H; subst y. now apply IHa.
    + exists s, c. split; [exact H|]. split; [now exists []|auto].
  - cbn [mt] in H.
    destruct (IHa _ _ _ _ H) as (s1 & c1 & H1 & P1 & G1).
    eexists s1, _. split; [exact H1|]. split; [exact P1|].
    intros j Hj. cbn [groups_of] in Hj. cbn [cap].
    destruct (Nat.eqb j i) eqn:E.
    + apply Nat.eqb_eq in E. subst. exfalso. apply Hj. now left.
    + apply G1. intros Hin. apply Hj. now right.
  - rewrite mt_bol in H. destruct (Nat.eqb (length s) total); [|discriminate].
    exists s, c. split; [exact H|]. split; [now exists []|auto].
  - cbn [mt] in H. destruct s; [|discriminate].
    exists [], c. split; [exact H|]. split; [now exists []|auto].
Qed.

End MatcherFacts.

(** ** extractSummary *)

Lemma afterGt_some (s r : str) :
  afterGt s = Some r ->
  exists a, s = a ++ 62%N :: r /\ Forall (fun y => y <> 62%N) a.
Proof.
  induction s as [|x s IH]; simpl; [discriminate|].
  destruct (x =? 62)%N eqn:E.
  - intros H; inversion H; subst. apply N.eqb_eq in E. subst.
    exists []. split; [reflexivity | constructor].
  - intros H. destruct (IH H) as (a & -> & Ha).
    exists (x :: a). split; [reflexivity|].
    constructor; [|exact Ha]. now apply N.eqb_neq.
Qed.

Lemma afterGt_none (s : str) :
  afterGt s = None -> Forall (fun y => y <> 62%N) s.
Proof.
  induction s as [|x s IH]; simpl; [constructor|].
  destruct (x =? 62)%N eqn:E; [discriminate|].
  intros H. constructor; [now apply N.eqb_neq | now apply IH].
Qed.

Lemma afterGt_app (a r : str) :
  afterGt (a ++ 62%N :: r) <> None.
Proof.
  induction a as [|x a IH]; simpl; [discriminate|].
  destruct (x =? 62)%N; [discriminate | exact IH].
Qed.

Lemma star_gt (total : nat) (s : str) (c : caps) :
  star_chr (fun x => negb (x =? 62)%N)
           (fun s' c' => mt total (ch false 62) s' c'
                            (fun s2 c2 => Some (s2, c2))) s c
  = option_map (fun r => (r, c)) (afterGt s).
Proof.
  set (K := fun (s' : str) (c' : caps) =>
              mt total (ch false 62) s' c' (fun s2 c2 => Some (s2, c2))).
  induction s as [|x s IH]; [reflexivity|].
  cbn [star_chr afterGt].
  destruct (x =? 62)%N eqn:E; cbn [negb].
  - unfold K, ch, same. cbn [mt]. now rewrite E.
  - rewrite IH. destruct (afterGt s); [reflexivity|].
    unfold K, ch, same. cbn [mt option_map]. now rewrite E.
Qed.

Lemma match_here_tag (total : nat) (s : str) :
  match_here total tagRe s
  = match s with
    | x :: s1 =>
        if (x =? 60)%N then option_map (fun r => (r, [])) (afterGt s1)
        else None
    | [] => None
    end.
Proof.
  unfold match_here, tagRe. cbn [seq].
  change (mt total (Seq (ch false 60) (Seq (Star not_gt) (ch false 62)))
             s [] (fun s' c' => Some (s', c')))
    with (mt total (ch false 60) s []
             (fun s1 c1 => mt total (Star not_gt) s1 c1
                (fun s2 c2 => mt total (ch false 62) s2 c2
                                 (fun s' c' => Some (s', c'))))).
  unfold ch at 1, same. cbn [mt]. destruct s as [|x s1]; [reflexivity|].
  destruct (x =? 60)%N; [|reflexivity].
  unfold not_gt. rewrite star_loop_chr by lia. apply star_gt.
Qed.

(** a search that finds no tag: every less-than sign is unclosed *)
Lemma search_tag_none (total : nat) (s : str) :
  search total tagRe s = None -> strips s s.
Proof.
  induction s as [|x s IH]; cbn [search]; [intros _; apply strips_nil|].
  rewrite match_here_tag.
  destruct (x =? 60)%N eqn:E.
  - destruct (afterGt s) eqn:G; [discriminate|]. intros _.
    apply N.eqb_eq in E. subst. apply strips_open. now apply afterGt_none.
  - destruct (search total tagRe s); [discriminate|]. intros _.
    apply strips_unit; [now apply N.eqb_neq | now apply IH].
Qed.

(** a search that finds a tag: only units other than the less-than sign
    are skipped, and the tag ends at the first greater-than sign *)
Lemma search_tag_some (total : nat) (s : str) (m : result) :
  search total tagRe s = Some m ->
  exists a,
    s = pre m ++ 60%N :: a ++ 62%N :: rest m /\
    Forall (fun y => y <> 60%N) (pre m) /\
    Forall (fun y => y <> 62%N) a /\
    matched m <> [].
Proof.
  revert m; induction s as [|x s IH]; intros m; cbn [search];
    rewrite match_here_tag; [discriminate|].
  destruct (x =? 60)%N eqn:E.
  - apply N.eqb_eq in E. subst x.
    destruct (afterGt s) as [r|] eqn:G; cbn [option_map].
    + intros H; inversion H; subst m; clear H. cbn [pre rest matched].
      destruct (afterGt_some _ _ G) as (a & Hs & Ha).
      exists a. split; [cbn [app]; now rewrite Hs at 1|].
      split; [constructor|]. split; [exact Ha|].
      assert (Hl : length (60%N :: s) - length r = S (S (length a))).
      { rewrite Hs. cbn [length]. rewrite length_app. cbn [length]. lia. }
      change (firstn (length (60%N :: s) - length r) (60%N :: s) <> []).
      rewrite Hl. cbn [firstn]. discriminate.
    + destruct (search total tagRe s) as [m'|] eqn:S'; [|discriminate].
      cbn [option_map]. intros H; inversion H; subst; clear H.
      destruct (IH m' eq_refl) as (a & Hs & _).
      exfalso. rewrite Hs in G.
      rewrite app_comm_cons, app_assoc in G.
      now apply afterGt_app in G.
  - destruct (search total tagRe s) as [m'|] eqn:S'; [|discriminate].
    cbn [option_map]. intros H; inversion H; subst; clear H.
    destruct (IH m' eq_refl) as (a & Hs & Hp & Ha & Hm).
    exists a. cbn [skip pre rest matched].
    split; [now rewrite Hs at 1|]. split; [|split; assumption].
    constructor; [now apply N.eqb_neq | exact Hp].
Qed.

Lemma strips_skip (p s t : str) :
  Forall (fun y => y <> 60%N) p -> strips s t -> strips (p ++ s) (p ++ t).
Proof.
  induction 1 as [|x p Hx _ IH]; intros H; [exact H|].
  simpl. apply strips_unit; [exact Hx | now apply IH].
Qed.

(** the replacement of all tags by nothing strips the tags *)
Lemma replace_tags_strips (total : nat) (fuel : nat) :
  forall s, length s < fuel ->
            strips s (replace_from fuel total tagRe [] s).
Proof.
  induction fuel as [|fuel IH]; intros s Hlt; [lia|].
  cbn [replace_from].
  destruct (search total tagRe s) as [m|] eqn:E;
    [|now apply (search_tag_none total)].
  destruct (search_tag_some _ _ _ E) as (a & Hs & Hp & Ha & Hm).
  destruct (matched m) as [|y ms]; [congruence|].
  cbn [app]. rewrite Hs at 1.
  apply strips_skip; [exact Hp|].
  apply strips_tag; [exact Ha|].
  apply IH. rewrite Hs in Hlt. rewrite !length_app in Hlt.
  cbn [length] in Hlt. rewrite length_app in Hlt. cbn [length] in Hlt. lia.
Qed.

(** a text without a less-than sign has no tag *)
Lemma strips_plain (s t : str) :
  Forall (fun y => y <> 60%N) s -> strips s t -> t = s.
Proof.
  intros H S. induction S as [|x s t Hx S IH|s Hs|a b t Ha S IH].
  - reflexivity.
  - inversion H; subst. f_equal. now apply IH.
  - reflexivity.
  - inversion H; subst. congruence.
Qed.

Lemma forallb_Forall (p : N -> bool) (s : str) :
  forallb p s = true -> Forall (fun x => p x = true) s.
Proof.
  intros H. apply Forall_forall. now apply forallb_forall.
Qed.

Lemma drop_while_spec (p : N -> bool) (s : str) :
  exists before,
    s = before ++ drop_while p s /\
    Forall (fun x => p x = true) before /\
    forall x t, drop_while p s = x :: t -> p x = false.
Proof.
  induction s as [|x s IH]; simpl.
  - exists []. repeat split; [constructor | discriminate].
  - destruct (p x) eqn:E.
    + destruct IH as (b & Hs & Hb & Hh).
      exists (x :: b). simpl. rewrite <- Hs. repeat split; auto.
    + exists []. repeat split; [constructor|].
      intros y t H; inversion H; subst. exact E.
Qed.

Lemma drop_while_end_spec (p : N -> bool) (s : str) :
  exists after,
    s = drop_while_end p s ++ after /\
    Forall (fun x => p x = true) after /\
    (forall x t, drop_while_end p s = t ++ [x] -> p x = false) /\
    (forall x t, drop_while_end p s = x :: t -> exists t', s = x :: t').
Proof.
  induction s as [|x s IH].
  - exists []. simpl. repeat split; try constructor.
    + intros x [|? ?]; discriminate.
    + discriminate.
  - cbn [drop_while_end]. destruct (forallb p (x :: s)) eqn:F.
    + exists (x :: s). repeat split.
      * now apply forallb_Forall.
      * intros y [|? ?]; discriminate.
      * discriminate.
    + destruct IH as (a & Hs & Ha & Hl & _).
      exists a. split; [simpl; now rewrite <- Hs|]. split; [exact Ha|].
      split.
      * intros y [|z t] H; inversion H; subst.
        -- simpl in F. destruct (p y); [|reflexivity]. simpl in F.
           rewrite Hs in F. rewrite H2 in F. simpl in F.
           assert (forallb p a = true)
             by (apply forallb_forall; now apply Forall_forall).
           congruence.
        -- eapply Hl; eauto.
      * intros y t H; inversion H; subst. eauto.
Qed.

(** dropping a run at the front and then one at the back *)
Lemma strip_both (p : N -> bool) (s : str) :
  strippedOf p s (drop_while_end p (drop_while p s)).
Proof.
  destruct (drop_while_spec p s) as (b & Hs & Hb & Hh).
  destruct (drop_while_end_spec p (drop_while p s))
    as (a & Hs' & Ha & Hl & Hp).
  exists b, a. split; [now rewrite <- Hs'|]. split; [exact Hb|].
  split; [exact Ha|]. split; [|exact Hl].
  intros x t H. destruct (Hp _ _ H) as [t' Ht']. eapply Hh; eauto.
Qed.

Lemma strippedOf_edgeFree (p : N -> bool) (s core : str) :
  strippedOf p s core -> edgeFree p s -> core = s.
Proof.
  intros (b & a & Hs & Hb & Ha & _) [H1 H2].
  destruct b as [|x b].
  - destruct a as [|y a] using rev_ind.
    + now rewrite app_nil_r in Hs.
    + exfalso. rewrite app_nil_l, app_assoc in Hs.
      specialize (H2 _ _ Hs).
      apply Forall_app in Ha. destruct Ha as [_ Ha].
      inversion Ha; subst. congruence.
  - exfalso. specialize (H1 _ _ Hs). inversion Hb; subst. congruence.
Qed.

Lemma lastIndexOf_aux_spec (c : N) (from : nat) (s : str) :
  forall i best,
    (lastIndexOf_aux c s i from best = best /\
     forall j, i + j <= from -> nth_error s j <> Some c) \/
    (exists j, lastIndexOf_aux c s i from best = Z.of_nat (i + j) /\
               i + j <= from /\ nth_error s j = Some c /\
               forall j', j < j' -> i + j' <= from ->
                          nth_error s j' <> Some c).
Proof.
  induction s as [|x s IH]; intros i best; cbn [lastIndexOf_aux].
  - left. split; [reflexivity|]. intros [|j] _; discriminate.
  - destruct (from <? i) eqn:E.
    + left. split; [reflexivity|]. apply Nat.ltb_lt in E. intros; lia.
    + apply Nat.ltb_ge in E.
      destruct (IH (S i) (if (x =? c)%N then Z.of_nat i else best))
        as [[Hr Hn]|(j & Hr & Hj & Hc & Hn)].
      * destruct (x =? c)%N eqn:X.
        -- right. exists 0. rewrite Nat.add_0_r. apply N.eqb_eq in X.
           subst. repeat split; auto.
           intros [|j'] Hlt Hle; [lia|]. simpl. apply Hn. lia.
        -- left. split; [exact Hr|].
           intros [|j] Hle; simpl.
           ++ apply N.eqb_neq in X. congruence.
           ++ apply Hn. lia.
      * right. exists (S j). rewrite Nat.add_succ_r.
        repeat split; auto; try lia.
        intros [|j'] Hlt Hle; [lia|]. simpl. apply Hn; lia.
Qed.

(** the cut of a long text is where [cutPoint] says *)
Lemma cut_spec (maxLength : nat) (text : str) :
  cutPoint maxLength text
    (if (lastIndexOf 32 maxLength text >? 0)%Z
     then Z.to_nat (lastIndexOf 32 maxLength text) else maxLength).
Proof.
  unfold lastIndexOf, cutPoint.
  destruct (lastIndexOf_aux_spec 32 maxLength text 0 (-1))
    as [[Hr Hn]|(j & Hr & Hj & Hc & Hn)]; rewrite Hr; simpl in *.
  - left. split; [reflexivity|]. intros i Hi. apply Hn. lia.
  - destruct j as [|j].
    + left. split; [reflexivity|]. intros i Hi. apply Hn; lia.
    + right. rewrite Nat2Z.id.
      replace (Z.of_nat (S j) >? 0)%Z with true
        by (symmetry; apply Z.gtb_lt; lia).
      repeat split; auto; try lia.
      intros i Hi. apply Hn; lia.
Qed.

(** C5 (as amended): the summary of an absent or empty text is null;
    otherwise the markup tags are taken out, the white space at both ends of
    what remains is trimmed, and the trimmed text is returned as it is when
    it has at most maxLength (200) units, and else cut at its last space
    character at an index from 1 to maxLength (at maxLength when there is no
    such space) and followed by three dots.  So a plain text without white
    space at its ends is returned unchanged when it has at most maxLength
    units, and is cut in that way, at a space of its own, and followed by
    the three dots when it has more. *)
Theorem summary_derivation (content : option str) (maxLength : nat) :
  match content with
  | None | Some [] => extractSummary content maxLength = None
  | Some c =>
      exists stripped text,
        strips c stripped /\
        strippedOf is_space stripped text /\
        (length text <= maxLength ->
         extractSummary content maxLength = Some text) /\
        (maxLength < length text ->
         exists cut, cutPoint maxLength text cut /\
                     extractSummary content maxLength
                     = Some (firstn cut text ++ lit "...")) /\
        (Forall (fun y => y <> 60%N) c -> edgeFree is_space c ->
         length c <= maxLength ->
         extractSummary content maxLength = Some c) /\
        (Forall (fun y => y <> 60%N) c -> edgeFree is_space c ->
         maxLength < length c ->
         exists cut, cutPoint maxLength c cut /\
                     extractSummary content maxLength
                     = Some (firstn cut c ++ lit "..."))
  end.
Proof.
  destruct content as [[|x c]|]; try reflexivity.
  set (s := x :: c).
  set (stripped := replace_all tagRe [] s).
  set (text := trim stripped).
  assert (Hst : strips s stripped).
  { apply replace_tags_strips. lia. }
  assert (Htr : strippedOf is_space stripped text) by apply strip_both.
  assert (Hshort : length text <= maxLength ->
                   extractSummary (Some s) maxLength = Some text).
  { intros H. unfold extractSummary. fold s stripped text.
    now rewrite (proj2 (Nat.leb_le _ _) H). }
  assert (Hlong : maxLength < length text ->
                  exists cut, cutPoint maxLength text cut /\
                              extractSummary (Some s) maxLength
                              = Some (firstn cut text ++ lit "...")).
  { intros H. eexists. split; [apply cut_spec|].
    unfold extractSummary. fold s stripped text.
    rewrite (proj2 (Nat.leb_gt _ _) H). reflexivity. }
  assert (Hsame : Forall (fun y => y <> 60%N) s -> edgeFree is_space s ->
                  text = s).
  { intros Hplain Hedge.
    assert (E1 : stripped = s) by now apply strips_plain.
    apply (strippedOf_edgeFree is_space); [|exact Hedge].
    rewrite <- E1 at 1. exact Htr. }
  exists stripped, text. split; [exact Hst|]. split; [exact Htr|].
  split; [exact Hshort|]. split; [exact Hlong|]. split.
  - intros Hplain Hedge Hlen.
    pose proof (Hsame Hplain Hedge) as E2.
    assert (Hl : length text <= maxLength) by (rewrite E2; exact Hlen).
    exact (eq_trans (Hshort Hl) (f_equal Some E2)).
  - intros Hplain Hedge Hlen.
    pose proof (Hsame Hplain Hedge) as E2.
    assert (Hl : maxLength < length text) by (rewrite E2; exact Hlen).
    destruct (Hlong Hl) as (cut & Hc & He).
    exists cut. rewrite <- E2 at 1 3. split; [exact Hc | exact He].
Qed.

(** C5 as stated fails: a plain text of 150 units that begins with a space
    is not returned unchanged, the space is trimmed. *)
Lemma summary_trims_plain_text :
  length spaceThenLetters = 150 /\
  extractSummary (Some spaceThenLetters) 200 = Some (repeat 97%N 149) /\
  extractSummary (Some spaceThenLetters) 200 <> Some spaceThenLetters.
Proof.
  split; [reflexivity|]. split; [vm_compute; reflexivity|].
  vm_compute. discriminate.
Qed.

(** a plain text of 250 units without white space at its ends is cut at
    its last space up to index 200 *)
Example summary_long_text :
  length longText = 250 /\
  extractSummary (Some longText) 200
  = Some (firstn 195 longText ++ lit "...").
Proof. split; vm_compute; reflexivity. Qed.

(** ** normalizeUrl *)

Lemma star_always (p : N -> bool) (s : str) (c : caps) :
  star_chr p (fun s' c' => Some (s', c')) s c = Some (drop_while p s, c).
Proof.
  induction s as [|x s IH]; [reflexivity|].
  cbn [star_chr drop_while]. destruct (p x); [|reflexivity].
  now rewrite IH.
Qed.

Lemma star_eol (total : nat) (p : N -> bool) (s : str) (c : caps) :
  star_chr p (fun s' c' => mt total Eol s' c'
                              (fun s2 c2 => Some (s2, c2))) s c
  = if forallb p s then Some ([], c) else None.
Proof.
  induction s as [|x s IH]; [reflexivity|].
  cbn [star_chr forallb]. destruct (p x); cbn [andb]; [|reflexivity].
  rewrite IH. destruct (forallb p s); reflexivity.
Qed.

(** the edge pattern at the front of [s]: at the start of the subject a
    leading run matches; elsewhere only a run that reaches the end *)
Lemma match_here_edge (total : nat) (s : str) :
  match_here total edgeRe s
  = match s with
    | [] => None
    | x :: s' =>
        if spaceOrZwsp x then
          if Nat.eqb (length s) total
          then Some (drop_while spaceOrZwsp s', [])
          else if forallb spaceOrZwsp s' then Some ([], []) else None
        else None
    end.
Proof.
  unfold match_here, edgeRe, Plus, space_or_zwsp.
  change (fun x => is_space x || (x =? 8203)%N) with spaceOrZwsp.
  rewrite mt_alt, !mt_seq, mt_bol. cbv beta. rewrite !mt_seq, !mt_chr.
  destruct s as [|x s'].
  - destruct (Nat.eqb (length (@nil N)) total); reflexivity.
  - destruct (spaceOrZwsp x).
    + rewrite !mt_star_chr, star_always, star_eol.
      destruct (Nat.eqb (length (x :: s')) total); reflexivity.
    + destruct (Nat.eqb (length (x :: s')) total); reflexivity.
Qed.

(** away from the start of the subject, or at a start that is no such
    unit, the search finds the trailing run *)
Lemma search_edge_tail (total : nat) (s : str) :
  length s <= total ->
  (length s = total -> forall x t, s = x :: t -> spaceOrZwsp x = false) ->
  match search total edgeRe s with
  | Some m => pre m = drop_while_end spaceOrZwsp s /\
              rest m = [] /\ matched m <> []
  | None => drop_while_end spaceOrZwsp s = s
  end.
Proof.
  induction s as [|x s IH]; intros Hle Hhd.
  - cbn [search]. rewrite match_here_edge. reflexivity.
  - cbn [search drop_while_end]. rewrite match_here_edge.
    assert (IH' := IH ltac:(simpl in Hle; lia)
                      ltac:(simpl in Hle; intros; lia)).
    destruct (spaceOrZwsp x) eqn:X.
    + assert (Hne : Nat.eqb (length (x :: s)) total = false).
      { apply Nat.eqb_neq. intros E.
        specialize (Hhd E x s eq_refl). congruence. }
      rewrite Hne. cbn [forallb]. rewrite X. cbn [andb].
      destruct (forallb spaceOrZwsp s).
      * cbn [pre rest matched]. repeat split. discriminate.
      * destruct (search total edgeRe s) as [m|]; cbn [option_map].
        -- cbn [skip pre rest matched].
           destruct IH' as (H1 & H2 & H3). rewrite H1. auto.
        -- now rewrite IH'.
    + cbn [forallb]. rewrite X. cbn [andb].
      destruct (search total edgeRe s) as [m|]; cbn [option_map].
      * cbn [skip pre rest matched].
        destruct IH' as (H1 & H2 & H3). rewrite H1. auto.
      * now rewrite IH'.
Qed.

Lemma replace_from_nil (fuel total : nat) :
  replace_from fuel total edgeRe [] [] = [].
Proof.
  destruct fuel; [reflexivity|]. cbn [replace_from search].
  now rewrite match_here_edge.
Qed.

Lemma replace_edge_tail (total fuel : nat) (s : str) :
  length s <= total ->
  (length s = total -> forall x t, s = x :: t -> spaceOrZwsp x = false) ->
  replace_from (S fuel) total edgeRe [] s = drop_while_end spaceOrZwsp s.
Proof.
  intros Hle Hhd. cbn [replace_from].
  pose proof (search_edge_tail total s Hle Hhd) as H.
  destruct (search total edgeRe s) as [m|]; [|now rewrite H].
  destruct H as (H1 & H2 & H3).
  destruct (matched m) as [|y ms]; [congruence|].
  rewrite H2, replace_from_nil, H1. cbn [app]. apply app_nil_r.
Qed.

Lemma drop_while_length (p : N -> bool) (s : str) :
  length (drop_while p s) <= length s.
Proof.
  induction s as [|x s IH]; simpl; [lia|].
  destruct (p x); simpl; lia.
Qed.

(** the replacement of the edge pattern by nothing strips both ends *)
Lemma replace_edges (u : str) :
  replace_all edgeRe [] u
  = drop_while_end spaceOrZwsp (drop_while spaceOrZwsp u).
Proof.
  unfold replace_all. destruct u as [|x u]; [reflexivity|].
  cbn [drop_while]. destruct (spaceOrZwsp x) eqn:X.
  - cbn [replace_from search]. rewrite match_here_edge, X, Nat.eqb_refl.
    cbn [pre matched rest].
    pose proof (drop_while_length spaceOrZwsp u) as L.
    assert (Hm : exists k, length (x :: u)
                           - length (drop_while spaceOrZwsp u) = S k).
    { exists (length u - length (drop_while spaceOrZwsp u)).
      cbn [length]. lia. }
    destruct Hm as [k ->]. cbn [firstn app].
    apply replace_edge_tail; cbn [length]; lia.
  - apply replace_edge_tail; [lia|].
    intros _ y t H; inversion H; subst. exact X.
Qed.

(** behind the start anchor nothing matches away from the start *)
Lemma search_bol_tail (total : nat) (r : re) (s : str) :
  length s < total -> search total (Seq Bol r) s = None.
Proof.
  induction s as [|x s IH]; intros Hlt; cbn [search];
    unfold match_here; cbn [mt].
  - rewrite (proj2 (Nat.eqb_neq _ _)) by (simpl in *; lia). reflexivity.
  - rewrite (proj2 (Nat.eqb_neq _ _)) by (simpl in *; lia).
    rewrite IH by (simpl in *; lia). reflexivity.
Qed.

Lemma starts_app (ci : bool) (a b s : str) :
  starts ci (a ++ b) s = starts ci a s && starts ci b (skipn (length a) s).
Proof.
  revert s; induction a as [|x a IH]; intros s; [reflexivity|].
  destruct s as [|y s]; cbn [app starts length skipn].
  - destruct b; reflexivity.
  - rewrite IH. now rewrite andb_assoc.
Qed.

(** the scheme test is a test of the front of the string *)
Lemma test_scheme (url : str) : test schemeRe url = hasScheme url.
Proof.
  unfold test, exec, hasScheme.
  change (lit "http://") with (lit "http" ++ lit "://").
  change (lit "https://") with (lit "http" ++ [115%N] ++ lit "://").
  rewrite !starts_app.
  change (length (lit "http")) with 4. change (length [115%N]) with 1.
  unfold schemeRe, w. cbn [seq].
  set (http := lit "http"). set (css := lit "://").
  set (r := Seq (word true http)
                (Seq (Opt (ch true 115)) (word true css))).
  assert (E : search (length url) (Seq Bol r) url
              = match match_here (length url) (Seq Bol r) url with
                | Some (s', c) =>
                    Some {| pre := [];
                            matched := firstn (length url - length s') url;
                            groups := c; rest := s' |}
                | None => None
                end).
  { destruct url as [|x u]; cbn [search].
    - destruct (match_here _ _ _) as [[? ?]|]; reflexivity.
    - destruct (match_here _ _ _) as [[? ?]|]; [reflexivity|].
      rewrite search_bol_tail by (simpl; lia). reflexivity. }
  rewrite E. clear E. unfold match_here, r.
  rewrite mt_seq, mt_bol, Nat.eqb_refl, mt_seq, mt_word.
  destruct (starts true http url); [|reflexivity].
  cbn [andb]. change (length http) with 4.
  set (t := skipn 4 url).
  rewrite mt_seq, mt_opt. unfold ch at 1. rewrite mt_chr, !mt_word.
  change (length css) with 3.
  destruct t as [|y t']; cbn [starts skipn].
  - destruct (starts true css []) eqn:S0; [discriminate S0 | reflexivity].
  - destruct (same true 115 y); cbn [andb]; rewrite ?mt_word;
      destruct (starts true css t');
      destruct (starts true css (y :: t')); reflexivity.
Qed.

Lemma strippedOf_compose (p q : N -> bool) (s mid core : str) :
  (forall x, p x = true -> q x = true) ->
  strippedOf p s mid -> strippedOf q mid core -> strippedOf q s core.
Proof.
  intros Hpq (b1 & a1 & Hs & Hb1 & Ha1 & _) (b2 & a2 & Hm & Hb2 & Ha2 & He).
  exists (b1 ++ b2), (a2 ++ a1).
  split; [rewrite Hs, Hm, <- !app_assoc; reflexivity|].
  split; [|split; [|exact He]].
  - apply Forall_app. split; [|exact Hb2].
    eapply Forall_impl; [|exact Hb1]. exact Hpq.
  - apply Forall_app. split; [exact Ha2|].
    eapply Forall_impl; [|exact Ha1]. exact Hpq.
Qed.

(** C9: the normalizer takes the longest runs of white space and
    zero-width spaces off both ends of the input, and puts https:// in front
    of what remains exactly when that does not begin with http:// or
    https:// in any letter case; a string that does is returned as it is.
    It is a total function, and gives the three values of the spec. *)
Theorem normalize_url (input : str) :
  (exists core,
      strippedOf spaceOrZwsp input core /\
      normalizeUrl input
      = if hasScheme core then core else lit "https://" ++ core) /\
  normalizeUrl (lit "example.com") = lit "https://example.com" /\
  normalizeUrl (lit " https://foo.com" ++ [8203%N; 32%N])
  = lit "https://foo.com" /\
  normalizeUrl (lit "HTTP://x.com") = lit "HTTP://x.com".
Proof.
  split; [|repeat split; vm_compute; reflexivity].
  exists (drop_while_end spaceOrZwsp (drop_while spaceOrZwsp (trim input))).
  split.
  - apply (strippedOf_compose is_space spaceOrZwsp input (trim input)).
    + intros x Hx. unfold spaceOrZwsp. now rewrite Hx.
    + apply strip_both.
    + apply strip_both.
  - unfold normalizeUrl. rewrite replace_edges, test_scheme.
    destruct (hasScheme _); reflexivity.
Qed.

(** ** discoverFeeds: the title group *)

Section TitleGroup.
Variable total : nat.

Local Abbreviation K0 := (fun (s : str) (c : caps) => Some (s, c)).

(** at a greater-than sign the optional title group matches nothing and
    the tag ends *)
Lemma tail_at_gt (s : str) (c : caps) :
  mt total tailBody (62%N :: s) c K0 = Some (s, c).
Proof. reflexivity. Qed.

(** without a greater-than sign ahead the tail cannot match *)
Lemma tail_without_gt (t : str) (c : caps) :
  afterGt t = None -> mt total tailBody t c K0 = None.
Proof.
  intros G.
  destruct (mt total tailBody t c K0) as [x|] eqn:E; [|reflexivity].
  exfalso.
  change (mt total tailBody t c K0)
    with (mt total (seq [titleOptRe; Star not_gt; Opt (ch true 47)]) t c
             (fun s1 c1 => mt total (ch true 62) s1 c1 K0)) in E.
  destruct (mt_invokes _ total _ _ _ _ _ E) as (s1 & c1 & H1 & [p Hp] & _).
  unfold ch in H1. rewrite mt_chr in H1.
  destruct s1 as [|y s1]; [discriminate|].
  destruct (same true 62 y) eqn:Y; [|discriminate].
  assert (y = 62%N).
  { unfold same, lower in Y.
    destruct ((65 <=? y) && (y <=? 90))%N eqn:B; simpl in Y.
    - apply N.eqb_eq in Y. apply andb_prop in B. destruct B as [B1 B2].
      apply N.leb_le in B1. lia.
    - now apply N.eqb_eq in Y. }
  subst y. rewrite Hp in G. now apply afterGt_app in G.
Qed.

(** the tail matches up to the first greater-than sign and captures
    nothing: the greedy run in front of the title group takes the title
    attribute with it *)
Lemma mt_tail (s : str) (c : caps) :
  mt total (seq tailRe) s c K0 = option_map (fun r => (r, c)) (afterGt s).
Proof.
  change (mt total (seq tailRe) s c K0)
    with (mt total (Star not_gt) s c
             (fun s1 c1 => mt total tailBody s1 c1 K0)).
  unfold not_gt. rewrite mt_star_chr.
  induction s as [|x s IH]; cbn [star_chr afterGt].
  - now rewrite tail_without_gt.
  - destruct (x =? 62)%N eqn:E; cbn [negb].
    + apply N.eqb_eq in E. subst. apply tail_at_gt.
    + rewrite IH. destruct (afterGt s) as [r|] eqn:G; [reflexivity|].
      cbn [option_map]. apply tail_without_gt.
      cbn [afterGt]. now rewrite E.
Qed.

(** no match of pattern 1 or pattern 2 binds group 3 *)
Lemma pattern_title_unset (s s' : str) (c : caps) :
  match_here total pattern1 s = Some (s', c) \/
  match_here total pattern2 s = Some (s', c) ->
  Regex.cap 3 c = None.
Proof.
  unfold match_here. intros [H|H].
  - change (mt total pattern1 s [] K0)
      with (mt total
              (seq [w true "<link"; Plus not_gt; w true "type="; quote;
                    mimeRe 1; quote; Star not_gt; w true "href="; quote;
                    Group 2 (Plus not_quote); quote]) s []
              (fun s1 c1 => mt total (seq tailRe) s1 c1 K0)) in H.
    destruct (mt_invokes _ total _ _ _ _ _ H) as (s1 & c1 & H1 & _ & G).
    rewrite mt_tail in H1. destruct (afterGt s1); [|discriminate].
    inversion H1; subst. rewrite G; [reflexivity|].
    vm_compute. intuition discriminate.
  - change (mt total pattern2 s [] K0)
      with (mt total
              (seq [w true "<link"; Star not_gt; w true "href="; quote;
                    Group 1 (Plus not_quote); quote; Star not_gt;
                    w true "type="; quote; mimeRe 2; quote]) s []
              (fun s1 c1 => mt total (seq tailRe) s1 c1 K0)) in H.
    destruct (mt_invokes _ total _ _ _ _ _ H) as (s1 & c1 & H1 & _ & G).
    rewrite mt_tail in H1. destruct (afterGt s1); [|discriminate].
    inversion H1; subst. rewrite G; [reflexivity|].
    vm_compute. intuition discriminate.
Qed.

Lemma search_here (r : re) (s : str) (m : result) :
  search total r s = Some m ->
  exists s0, match_here total r s0 = Some (rest m, groups m).
Proof.
  revert m; induction s as [|x s IH]; intros m; cbn [search].
  - destruct (match_here total r []) as [[s' c]|] eqn:E; [|discriminate].
    intros H; inversion H; subst. now exists [].
  - destruct (match_here total r (x :: s)) as [[s' c]|] eqn:E.
    + intros H; inversion H; subst. now exists (x :: s).
    + destruct (search total r s) as [m'|]; [|discriminate].
      cbn [option_map]. intros H; inversion H; subst.
      destruct (IH m' eq_refl) as [s0 H0]. now exists s0.
Qed.

Lemma match_all_here (r : re) (fuel : nat) :
  forall s m, In m (match_all_from fuel total r s) ->
              exists s0, match_here total r s0 = Some (rest m, groups m).
Proof.
  induction fuel as [|fuel IH]; intros s m; cbn [match_all_from];
    [intros []|].
  destruct (search total r s) as [m0|] eqn:E; [|intros []].
  intros [<-|Hin]; [now apply (search_here r s)|].
  destruct (matched m0), (rest m0); try destruct Hin; eauto.
Qed.

End TitleGroup.

Section DeclaredTitles.
Variable resolveUrl : str -> str -> option str.

Lemma linkLoop_titles (base : str) (gh gt : nat) (ms : list result) :
  Forall (fun m => Regex.cap 3 (groups m) = None) ms ->
  forall st, defaultTitles (fst st) ->
             defaultTitles (fst (fst (linkLoop resolveUrl base gh gt ms st))).
Proof.
  induction 1 as [|m ms Hm _ IH]; intros st Hst; [exact Hst|].
  cbn [linkLoop]. unfold linkStep. destruct st as [feeds processed].
  rewrite Hm. cbn [or_str].
  destruct (if negb (startsWith (lit "http") _) then _ else _) as [href|];
    [|exact Hst].
  destruct (negb (existsb (str_eqb href) processed)); [|now apply IH].
  apply IH. cbn [fst] in *. apply Forall_app. split; [exact Hst|].
  constructor; [reflexivity | constructor].
Qed.

Lemma match_all_title_unset (html : str) :
  Forall (fun m => Regex.cap 3 (groups m) = None) (match_all pattern1 html)
  /\
  Forall (fun m => Regex.cap 3 (groups m) = None) (match_all pattern2 html).
Proof.
  split; apply Forall_forall; intros m Hm;
    destruct (match_all_here _ _ _ _ _ Hm) as [s0 H0];
    eapply pattern_title_unset; eauto.
Qed.

(** C2 at the link tag of the spec: the candidate has the resolved URL and
    the type RSS, but its title is the default and not the declared Blog, in
    both attribute orders; and so for every document: the greedy run before
    the optional title group takes the title attribute with it, group 3
    stays undefined, and every candidate read off a link tag is titled
    RSS Feed. *)
Theorem discover_declared_title_lost (parseFeed : str -> option parsedFeed)
        (url html : str) :
  discoverFeeds resolveExample parseFeed (lit "https://example.com/page")
                true (Response true linkTypeFirst)
  = [{| c_url := lit "https://example.com/feed.xml";
        Routes.c_title := lit "RSS Feed"; c_type := lit "RSS" |}]
  /\
  discoverFeeds resolveExample parseFeed (lit "https://example.com/page")
                true (Response true linkHrefFirst)
  = [{| c_url := lit "https://example.com/feed.xml";
        Routes.c_title := lit "RSS Feed"; c_type := lit "RSS" |}]
  /\
  forall c, In c (fst (declaredFeeds resolveUrl url html)) ->
            Routes.c_title c = lit "RSS Feed".
Proof.
  split; [vm_compute; reflexivity|]. split; [vm_compute; reflexivity|].
  destruct (match_all_title_unset html) as [M1 M2].
  assert (D : defaultTitles (fst (declaredFeeds resolveUrl url html))).
  { unfold declaredFeeds.
    pose proof (linkLoop_titles url 2 1 _ M1 ([], []) (Forall_nil _)) as L1.
    destruct (linkLoop resolveUrl url 2 1 (match_all pattern1 html) ([], []))
      as [st1 threw1].
    cbn [fst] in L1. destruct threw1; [exact L1|].
    pose proof (linkLoop_titles url 1 2 _ M2 st1 L1) as L2.
    destruct (linkLoop resolveUrl url 1 2 (match_all pattern2 html) st1)
      as [st2 threw2].
    exact L2. }
  intros c Hc. unfold defaultTitles in D. rewrite Forall_forall in D.
  now apply D.
Qed.

End DeclaredTitles.

(* ===================================================================== *)
(** * Further properties of the code *)
(* ===================================================================== *)

(** ** escapeXml *)

Lemma search_chr (total : nat) (p : N -> bool) (s : str) :
  search total (Chr p) s
  = match s with
    | [] => None
    | x :: s' =>
        if p x then Some {| pre := []; matched := [x]; groups := [];
                            rest := s' |}
        else option_map (skip x) (search total (Chr p) s')
    end.
Proof.
  destruct s as [|x s']; [reflexivity|].
  cbn [search]. unfold match_here. cbn [mt].
  destruct (p x); [|reflexivity].
  f_equal. f_equal.
  replace (length (x :: s') - length s') with 1 by (cbn [length]; lia).
  reflexivity.
Qed.

Lemma replace_chr (total : nat) (p : N -> bool) (by_ : str) (fuel : nat) :
  forall s, length s < fuel ->
    replace_from fuel total (Chr p) by_ s
    = flat_map (fun x => if p x then by_ else [x]) s.
Proof.
  induction fuel as [|fuel IH]; intros s Hlt; [lia|].
  induction s as [|x s IHs].
  - cbn [replace_from]. rewrite search_chr. reflexivity.
  - cbn [replace_from]. rewrite search_chr. cbn [flat_map].
    destruct (p x) eqn:P.
    + cbn [pre matched rest app]. rewrite IH by (cbn [length] in Hlt; lia).
      reflexivity.
    + assert (Hs : length s < S fuel) by (cbn [length] in Hlt; lia).
      specialize (IHs Hs). cbn [replace_from] in IHs.
      destruct (search total (Chr p) s) as [m|] eqn:E; cbn [option_map].
      * cbn [skip pre matched rest app]. f_equal. exact IHs.
      * cbn [app]. f_equal. exact IHs.
Qed.

Lemma replace_char_units (c : N) (by_ s : str) :
  replace_char c by_ s
  = flat_map (fun x => if (x =? c)%N then by_ else [x]) s.
Proof.
  unfold replace_char, replace_all, ch, same.
  apply replace_chr. lia.
Qed.

Lemma flat_map_flat_map (f g : N -> str) (s : str) :
  flat_map g (flat_map f s) = flat_map (fun x => flat_map g (f x)) s.
Proof.
  induction s as [|x s IH]; [reflexivity|].
  cbn [flat_map]. rewrite flat_map_app. now rewrite IH.
Qed.

Lemma escapeXml_units (s : str) : escapeXml s = flat_map entityOf s.
Proof.
  unfold escapeXml. rewrite !replace_char_units, !flat_map_flat_map.
  apply flat_map_ext. intros x. unfold entityOf.
  destruct (N.eqb_spec x 38) as [->|N1]; [reflexivity|].
  destruct (N.eqb_spec x 60) as [->|N2]; [reflexivity|].
  destruct (N.eqb_spec x 62) as [->|N3]; [reflexivity|].
  destruct (N.eqb_spec x dq) as [->|N4]; [reflexivity|].
  destruct (N.eqb_spec x sq) as [->|N5]; [reflexivity|].
  apply N.eqb_neq in N1, N2, N3, N4, N5.
  cbn [flat_map app]. rewrite N2. cbn [flat_map app]. rewrite N3.
  cbn [flat_map app]. rewrite N4. cbn [flat_map app]. rewrite N5.
  reflexivity.
Qed.

(** X1: the five replacements of escapeXml, one after the other, come to
    one pass over the string in which every ampersand, angle bracket and
    quote is replaced by its entity and every other unit stays: the
    ampersand of an entity that an earlier replacement wrote is not escaped
    again.  The result holds no angle bracket and no quote, and a string
    without the five characters is returned as it is. *)
Theorem escapeXml_one_pass (s : str) :
  escapeXml s = flat_map entityOf s /\
  Forall (fun c => c <> 60%N /\ c <> 62%N /\ c <> dq /\ c <> sq)
         (escapeXml s) /\
  (Forall (fun c => c <> 38%N /\ c <> 60%N /\ c <> 62%N /\ c <> dq /\ c <> sq)
          s -> escapeXml s = s).
Proof.
  split; [apply escapeXml_units|]. rewrite escapeXml_units. split.
  - induction s as [|x s IH]; [constructor|].
    cbn [flat_map]. apply Forall_app. split; [|exact IH].
    unfold entityOf.
    destruct (N.eqb_spec x 38) as [->|N1];
      [repeat constructor; discriminate|].
    destruct (N.eqb_spec x 60) as [->|N2];
      [repeat constructor; discriminate|].
    destruct (N.eqb_spec x 62) as [->|N3];
      [repeat constructor; discriminate|].
    destruct (N.eqb_spec x dq) as [->|N4];
      [repeat constructor; discriminate|].
    destruct (N.eqb_spec x sq) as [->|N5];
      [repeat constructor; discriminate|].
    repeat constructor; assumption.
  - induction 1 as [|x s (N1 & N2 & N3 & N4 & N5) _ IH]; [reflexivity|].
    cbn [flat_map]. rewrite IH. unfold entityOf.
    apply N.eqb_neq in N1, N2, N3, N4, N5.
    now rewrite N1, N2, N3, N4, N5.
Qed.

Lemma entityOf_cases (x : N) :
  (entityOf x = [x] /\ x <> 38%N)
  \/ (x = 38%N /\ entityOf x = lit "&amp;")
  \/ (x = 60%N /\ entityOf x = lit "&lt;")
  \/ (x = 62%N /\ entityOf x = lit "&gt;")
  \/ (x = dq /\ entityOf x = lit "&quot;")
  \/ (x = sq /\ entityOf x = lit "&apos;").
Proof.
  unfold entityOf.
  destruct (N.eqb_spec x 38) as [->|N1]; [tauto|].
  destruct (N.eqb_spec x 60) as [->|N2]; [tauto|].
  destruct (N.eqb_spec x 62) as [->|N3]; [tauto|].
  destruct (N.eqb_spec x dq) as [->|N4]; [tauto|].
  destruct (N.eqb_spec x sq) as [->|N5]; [tauto|].
  left. split; [reflexivity | exact N1].
Qed.

Lemma entityOf_prefix_free (x y : N) (a b : str) :
  entityOf x ++ a = entityOf y ++ b -> x = y /\ a = b.
Proof.
  destruct (entityOf_cases x) as [[Ex Nx]|[[-> Ex]|[[-> Ex]|[[-> Ex]|[[-> Ex]|[-> Ex]]]]]];
  destruct (entityOf_cases y) as [[Ey Ny]|[[-> Ey]|[[-> Ey]|[[-> Ey]|[[-> Ey]|[-> Ey]]]]]];
  rewrite ?Ex, ?Ey; cbn [lit app N_of_ascii]; intros H;
    try discriminate H;
    try (injection H; intros; subst; split; congruence).
Qed.

(** X2: escapeXml loses nothing: two strings with the same escaped text
    are the same string. *)
Theorem escapeXml_injective (a b : str) :
  escapeXml a = escapeXml b -> a = b.
Proof.
  rewrite !escapeXml_units. revert b.
  induction a as [|x a IH]; intros [|y b]; cbn [flat_map]; intros H.
  - reflexivity.
  - exfalso. destruct (entityOf_cases y) as [[E _]|[[_ E]|[[_ E]|[[_ E]|[[_ E]|[_ E]]]]]];
      rewrite E in H; discriminate H.
  - exfalso. destruct (entityOf_cases x) as [[E _]|[[_ E]|[[_ E]|[[_ E]|[[_ E]|[_ E]]]]]];
      rewrite E in H; discriminate H.
  - apply entityOf_prefix_free in H. destruct H as [-> H].
    f_equal. now apply IH.
Qed.

(** an instance of X2 *)
Lemma escapeXml_injective_witness :
  escapeXml (lit "a<b&c") = escapeXml (lit "a<b&c") /\
  lit "a<b&c" = lit "a<b&c".
Proof.
  split; [reflexivity|].
  apply (escapeXml_injective (lit "a<b&c") (lit "a<b&c")). reflexivity.
Defined.

(** ** normalizeUrl applied twice *)

Lemma strip_edgeFree (p : N -> bool) (s : str) :
  edgeFree p s -> drop_while_end p (drop_while p s) = s.
Proof.
  intros H. apply (strippedOf_edgeFree p s); [apply strip_both | exact H].
Qed.

Lemma edgeFree_weaken (p q : N -> bool) (s : str) :
  (forall x, p x = true -> q x = true) -> edgeFree q s -> edgeFree p s.
Proof.
  intros Hpq [H1 H2]. split; intros x t E.
  - specialize (H1 x t E). destruct (p x) eqn:P; [|reflexivity].
    apply Hpq in P. congruence.
  - specialize (H2 x t E). destruct (p x) eqn:P; [|reflexivity].
    apply Hpq in P. congruence.
Qed.

Lemma space_is_spaceOrZwsp (x : N) : is_space x = true -> spaceOrZwsp x = true.
Proof. intros H. unfold spaceOrZwsp. now rewrite H. Qed.

(** what normalizeUrl computes, without the regular expressions *)
Lemma normalizeUrl_eq (input : str) :
  normalizeUrl input
  = let u := drop_while_end spaceOrZwsp (drop_while spaceOrZwsp (trim input))
    in if hasScheme u then u else lit "https://" ++ u.
Proof.
  unfold normalizeUrl. rewrite replace_edges, test_scheme.
  cbv zeta. destruct (hasScheme _); reflexivity.
Qed.

Lemma hasScheme_nonempty (u : str) : hasScheme u = true -> u <> [].
Proof. intros H E. subst. discriminate H. Qed.

Lemma edgeFree_prefixed (u : str) :
  edgeFree spaceOrZwsp u -> edgeFree spaceOrZwsp (lit "https://" ++ u).
Proof.
  intros [H1 H2]. split; intros x t E.
  - cbn [lit app N_of_ascii] in E. inversion E; subst. reflexivity.
  - destruct u as [|y u] using rev_ind.
    + rewrite app_nil_r in E.
      change (lit "https://") with (lit "https:/" ++ [47%N]) in E.
      apply app_inj_tail in E. destruct E as [_ <-]. reflexivity.
    + rewrite app_assoc in E. apply app_inj_tail in E.
      destruct E as [_ <-]. eapply H2. reflexivity.
Qed.

Lemma normalizeUrl_edgeFree (input : str) :
  edgeFree spaceOrZwsp (normalizeUrl input) /\
  hasScheme (normalizeUrl input) = true.
Proof.
  rewrite normalizeUrl_eq. cbv zeta.
  set (u := drop_while_end spaceOrZwsp
              (drop_while spaceOrZwsp (trim input))).
  assert (He : edgeFree spaceOrZwsp u).
  { destruct (strip_both spaceOrZwsp (trim input))
      as (b & a & _ & _ & _ & He). exact He. }
  destruct (hasScheme u) eqn:S; [split; assumption|].
  split; [now apply edgeFree_prefixed | reflexivity].
Qed.

Lemma normalizeUrl_twice (input : str) :
  normalizeUrl (normalizeUrl input) = normalizeUrl input /\
  hasScheme (normalizeUrl input) = true /\
  normalizeUrl input <> [].
Proof.
  destruct (normalizeUrl_edgeFree input) as [He Hs].
  split; [|split; [exact Hs | now apply hasScheme_nonempty]].
  rewrite (normalizeUrl_eq (normalizeUrl input)). cbv zeta.
  unfold trim.
  rewrite (strip_edgeFree is_space)
    by (apply (edgeFree_weaken is_space spaceOrZwsp);
        [exact space_is_spaceOrZwsp | exact He]).
  rewrite (strip_edgeFree spaceOrZwsp) by exact He.
  now rewrite Hs.
Qed.

(** X3: normalizeUrl is idempotent: a URL that was normalized (by
    POST /api/feeds/discover, say) is left as it is when it is normalized
    again (by POST /api/feeds).  The result always begins with http:// or
    https:// in some letter case, and is never empty. *)
Theorem normalizeUrl_idempotent (input : str) :
  normalizeUrl (normalizeUrl input) = normalizeUrl input /\
  hasScheme (normalizeUrl input) = true /\
  normalizeUrl input <> [].
Proof. apply normalizeUrl_twice. Qed.

(** ** extractSummary: the length and the tags of a summary *)

Lemma tagFree_strips (s t : str) : strips s t -> tagFree t.
Proof.
  induction 1 as [|x s t Hx S IH|s Hs|a b t Ha S IH]; intros u v E.
  - destruct u; discriminate E.
  - destruct u as [|y u]; inversion E; subst; [congruence|].
    eapply IH. reflexivity.
  - destruct u as [|y u]; inversion E; subst; [exact Hs|].
    apply Forall_app in Hs. destruct Hs as [_ Hs].
    now inversion Hs.
  - eapply IH. exact E.
Qed.

Lemma tagFree_middle (a m b : str) : tagFree (a ++ m ++ b) -> tagFree m.
Proof.
  intros H u v E. subst m.
  specialize (H (a ++ u) (v ++ b)).
  rewrite <- !app_assoc in H. cbn [app] in H.
  specialize (H eq_refl). apply Forall_app in H. tauto.
Qed.

Lemma tagFree_app (p d : str) :
  tagFree p -> Forall (fun y => y <> 60%N /\ y <> 62%N) d -> tagFree (p ++ d).
Proof.
  intros Hp Hd u v E.
  apply app_eq_app in E. destruct E as (l & [[-> E]|[-> E]]).
  - destruct l as [|y l]; cbn [app] in E.
    + exfalso. subst d. inversion Hd; subst. tauto.
    + inversion E; subst. apply Forall_app. split.
      * eapply Hp. reflexivity.
      * eapply Forall_impl; [|exact Hd]. cbv beta. tauto.
  - exfalso. subst d. apply Forall_app in Hd. destruct Hd as [_ Hd].
    inversion Hd; subst. tauto.
Qed.

Lemma summary_bound (content : option str) (maxLength : nat) :
  match extractSummary content maxLength with
  | Some out => length out <= maxLength + 3 /\ tagFree out
  | None => content = None \/ content = Some []
  end.
Proof.
  destruct content as [[|x c]|]; cbn [extractSummary]; [tauto| |tauto].
  set (s := x :: c).
  set (text := trim (replace_all tagRe [] s)).
  assert (Ht : tagFree text).
  { destruct (strip_both is_space (replace_all tagRe [] s))
      as (b & a & Hs & _).
    apply (tagFree_middle b text a). fold (trim (replace_all tagRe [] s)) in Hs.
    fold text in Hs. rewrite <- Hs.
    apply (tagFree_strips s). apply replace_tags_strips. lia. }
  destruct (length text <=? maxLength) eqn:L.
  - apply Nat.leb_le in L. split; [lia | exact Ht].
  - pose proof (cut_spec maxLength text) as C.
    set (cut := if (lastIndexOf 32 maxLength text >? 0)%Z
                then Z.to_nat (lastIndexOf 32 maxLength text)
                else maxLength) in *.
    unfold substring0. split.
    + rewrite length_app. pose proof (firstn_le_length cut text).
      rewrite length_firstn. change (length ellipsis) with 3.
      destruct C as [[-> _]|[C _]]; lia.
    + apply tagFree_app.
      * apply (tagFree_middle [] (firstn cut text) (skipn cut text)).
        cbn [app]. now rewrite firstn_skipn.
      * repeat constructor; discriminate.
Qed.

(** X4: a summary that extractSummary returns has at most maxLength + 3
    units (203 by default) and holds no markup tag: no less-than sign with
    a greater-than sign anywhere after it.  Null is returned for an absent
    or empty text only. *)
Theorem summary_short_and_plain (content : option str) (maxLength : nat) :
  match extractSummary content maxLength with
  | Some out => length out <= maxLength + 3 /\ tagFree out
  | None => content = None \/ content = Some []
  end.
Proof. apply summary_bound. Qed.

(** ** discoverFeeds: the candidates *)

Section DiscoverFacts.
Variable resolveUrl : str -> str -> option str.

Lemma existsb_str_eqb (x : str) (l : list str) :
  existsb (str_eqb x) l = true <-> In x l.
Proof.
  rewrite existsb_exists. split.
  - intros (y & Hy & E). apply str_eqb_eq in E. now subst.
  - intros H. exists x. split; [exact H | apply str_eqb_refl].
Qed.

Lemma NoDup_snoc (A : Type) (l : list A) (x : A) :
  NoDup l -> ~ In x l -> NoDup (l ++ [x]).
Proof.
  intros N H. rewrite <- (rev_involutive (l ++ [x])).
  apply NoDup_rev. rewrite rev_app_distr. cbn [rev app].
  constructor; [now rewrite <- in_rev | now apply NoDup_rev].
Qed.

Lemma feedKind_known (type : str) :
  feedKind type = lit "RSS" \/ feedKind type = lit "Atom".
Proof. unfold feedKind. destruct (includes _ _); tauto. Qed.

Lemma linkStep_inv (base : str) (gh gt : nat) (m : result)
      (st st' : list candidate * list str) :
  linkStep resolveUrl base gh gt m st = Some st' ->
  linksInv st -> linksInv st'.
Proof.
  unfold linkStep. destruct st as [feeds processed].
  destruct (if negb (startsWith (lit "http") _) then _ else _) as [href|];
    [|discriminate].
  destruct (negb (existsb (str_eqb href) processed)) eqn:E;
    intros H; inversion H; subst; clear H; [|tauto].
  unfold linksInv. cbn [fst snd]. intros (H1 & H2 & H3).
  split; [|split].
  - rewrite map_app, H1. reflexivity.
  - apply NoDup_snoc; [exact H2|].
    apply negb_true_iff in E. intros Hin.
    apply existsb_str_eqb in Hin. congruence.
  - apply Forall_app. split; [exact H3|].
    constructor; [apply feedKind_known | constructor].
Qed.

Lemma linkLoop_inv (base : str) (gh gt : nat) (ms : list result) :
  forall st, linksInv st ->
             linksInv (fst (linkLoop resolveUrl base gh gt ms st)).
Proof.
  induction ms as [|m ms IH]; intros st H; [exact H|].
  cbn [linkLoop].
  destruct (linkStep resolveUrl base gh gt m st) as [st'|] eqn:E;
    [|exact H].
  apply IH. eapply linkStep_inv; eauto.
Qed.

Lemma declaredFeeds_inv (url html : str) :
  NoDup (map c_url (fst (declaredFeeds resolveUrl url html))) /\
  Forall knownKind (fst (declaredFeeds resolveUrl url html)).
Proof.
  unfold declaredFeeds.
  assert (I0 : linksInv ([], [])) by (repeat split; constructor).
  pose proof (linkLoop_inv url 2 1 (match_all pattern1 html) _ I0) as I1.
  destruct (linkLoop resolveUrl url 2 1 (match_all pattern1 html) ([], []))
    as [st1 threw1].
  cbn [fst] in I1.
  destruct threw1.
  - destruct I1 as (H1 & H2 & H3). cbn [fst]. rewrite H1. tauto.
  - pose proof (linkLoop_inv url 1 2 (match_all pattern2 html) _ I1) as I2.
    destruct (linkLoop resolveUrl url 1 2 (match_all pattern2 html) st1)
      as [st2 threw2].
    cbn [fst] in *. destruct I2 as (H1 & H2 & H3). rewrite H1. tauto.
Qed.

Section Probe.
Variable parseFeed : str -> option parsedFeed.

(** the probe stops at the first path that resolves and parses *)
Lemma probe_first (base : str) (paths : list str) :
  (probe resolveUrl parseFeed base paths = [] /\
   forall path u, In path paths -> resolveUrl path base = Some u ->
                  parseFeed u = None)
  \/
  (exists before path after u feed,
      paths = before ++ path :: after /\
      resolveUrl path base = Some u /\ parseFeed u = Some feed /\
      probe resolveUrl parseFeed base paths
      = [{| c_url := u;
            Routes.c_title := or_str (pf_title feed) (lit "RSS Feed");
            c_type := lit "RSS" |}] /\
      forall p' u', In p' before -> resolveUrl p' base = Some u' ->
                    parseFeed u' = None).
Proof.
  induction paths as [|path paths IH]; cbn [probe].
  - left. split; [reflexivity|]. intros ? ? [].
  - destruct (resolveUrl path base) as [u|] eqn:R.
    + destruct (parseFeed u) as [feed|] eqn:P.
      * right. exists [], path, paths, u, feed.
        repeat split; auto. intros ? ? [].
      * destruct IH as [[E H]|(b & p & a & u' & f & -> & R' & P' & E & H)].
        -- left. split; [exact E|].
           intros p' u' [<-|Hin] R'; [congruence | eauto].
        -- right. exists (path :: b), p, a, u', f.
           repeat split; auto.
           intros p' u2 [<-|Hin] R2; [congruence | eauto].
    + destruct IH as [[E H]|(b & p & a & u' & f & -> & R' & P' & E & H)].
      * left. split; [exact E|].
        intros p' u' [<-|Hin] R'; [congruence | eauto].
      * right. exists (path :: b), p, a, u', f.
        repeat split; auto.
        intros p' u2 [<-|Hin] R2; [congruence | eauto].
Qed.

Lemma probe_known (base : str) (paths : list str) :
  NoDup (map c_url (probe resolveUrl parseFeed base paths)) /\
  Forall knownKind (probe resolveUrl parseFeed base paths).
Proof.
  destruct (probe_first base paths)
    as [[-> _]|(b & p & a & u & f & _ & _ & _ & -> & _)].
  - split; constructor.
  - split; [repeat constructor; intros [] |].
    constructor; [left; reflexivity | constructor].
Qed.

(** X5: the candidates of discoverFeeds have pairwise distinct URLs, and
    each is tagged RSS or Atom; when fetch throws, when the response is not
    ok or when the URL of the page does not parse, there is no candidate. *)
Theorem discover_candidates_distinct (url : str) (validBase : bool)
        (resp : fetched) :
  NoDup (map c_url (discoverFeeds resolveUrl parseFeed url validBase resp))
  /\
  Forall knownKind (discoverFeeds resolveUrl parseFeed url validBase resp)
  /\
  (resp = FetchThrew \/ (exists body, resp = Response false body)
   \/ validBase = false ->
   discoverFeeds resolveUrl parseFeed url validBase resp = []).
Proof.
  assert (N0 : NoDup (map c_url []) /\ Forall knownKind [])
    by (split; constructor).
  split; [|split].
  - unfold discoverFeeds. destruct resp as [|[|] html]; try apply N0.
    destruct validBase; cbn [negb]; [|apply N0].
    pose proof (declaredFeeds_inv url html) as D.
    destruct (declaredFeeds resolveUrl url html) as [[|c fs] [|]];
      cbn [fst] in D; try apply D.
    apply probe_known.
  - unfold discoverFeeds. destruct resp as [|[|] html]; try apply N0.
    destruct validBase; cbn [negb]; [|apply N0].
    pose proof (declaredFeeds_inv url html) as D.
    destruct (declaredFeeds resolveUrl url html) as [[|c fs] [|]];
      cbn [fst] in D; try apply D.
    apply probe_known.
  - intros [->|[[body ->]| ->]]; try reflexivity.
    unfold discoverFeeds. destruct resp as [|[|] html]; reflexivity.
Qed.

End Probe.

(** X6: the conventional paths are probed only when the page declares no
    feed link.  With a declared candidate the result is the declared ones,
    whatever a probe would find.  Without one (and without an exception)
    the result is the one candidate of the first path, in the order of the
    list, that resolves and parses, titled by the title of the feed or
    RSS Feed and typed RSS; or nothing when no path does. *)
Theorem discover_probes_last (parseFeed : str -> option parsedFeed)
        (url html : str) :
  (forall c fs threw otherParse,
      declaredFeeds resolveUrl url html = (c :: fs, threw) ->
      discoverFeeds resolveUrl parseFeed url true (Response true html)
      = c :: fs /\
      discoverFeeds resolveUrl otherParse url true (Response true html)
      = c :: fs) /\
  (declaredFeeds resolveUrl url html = ([], false) ->
   let found :=
     discoverFeeds resolveUrl parseFeed url true (Response true html) in
   (found = [] /\
    forall path u, In path commonPaths -> resolveUrl path url = Some u ->
                   parseFeed u = None)
   \/
   (exists before path after u feed,
       commonPaths = before ++ path :: after /\
       resolveUrl path url = Some u /\ parseFeed u = Some feed /\
       found = [{| c_url := u;
                   Routes.c_title := or_str (pf_title feed) (lit "RSS Feed");
                   c_type := lit "RSS" |}] /\
       forall p' u', In p' before -> resolveUrl p' url = Some u' ->
                     parseFeed u' = None)).
Proof.
  split.
  - intros c fs threw other E. unfold discoverFeeds. cbn [negb].
    rewrite E. destruct threw; split; reflexivity.
  - intros E found. subst found. unfold discoverFeeds. cbn [negb].
    rewrite E. apply probe_first.
Qed.

End DiscoverFacts.

(** ** POST /api/feeds on the store *)

Lemma getFeedByUrl_None (d : db) (u : str) :
  getFeedByUrl d u = None <-> ~ In u (map f_url (feeds d)).
Proof.
  unfold getFeedByUrl. split.
  - intros H Hin. apply in_map_iff in Hin. destruct Hin as (f & <- & Hin).
    eapply find_none in H; eauto. cbv beta in H.
    rewrite str_eqb_refl in H. discriminate.
  - intros H. destruct (find _ (feeds d)) as [f|] eqn:E; [|reflexivity].
    exfalso. apply find_some in E. destruct E as [E1 E2].
    apply str_eqb_eq in E2. apply H. apply in_map_iff. eauto.
Qed.


Lemma urls_updateFeed (d : db) (i : id) (p : FeedPatch) :
  map f_url (feeds (setFeed d i p)) = map f_url (feeds d).
Proof.
  unfold setFeed; cbn [feeds]. rewrite map_map.
  apply map_ext. intros f. destruct (Nat.eqb (f_id f) i); reflexivity.
Qed.

Lemma getFeed_createFeed (d : db) (ins : InsertFeed) :
  freshIds d ->
  getFeed (fst (appendFeed d ins)) (f_id (snd (appendFeed d ins)))
  = Some (snd (appendFeed d ins)).
Proof.
  unfold freshIds, getFeed. cbn [appendFeed fst snd feeds f_id]. intros H.
  induction (feeds d) as [|g l IH]; cbn [app find].
  - cbn [f_id]. now rewrite Nat.eqb_refl.
  - inversion H; subst.
    destruct (Nat.eqb_spec (f_id g) (nextId d)); [lia | now apply IH].
Qed.

Section StoreFacts.
Variable parseDate : str -> time.
Variable refuses : InsertArticle -> option str.

Local Abbreviation itemLoop := (itemLoop parseDate refuses).

(** the item loop creates at most one article per item *)
Lemma itemLoop_bound (feedId : id) (clock : nat -> time) (items : list item) :
  forall k d n d' n' r,
    itemLoop feedId clock k items d n = (d', n', r) ->
    nextId d <= nextId d' /\
    exists new, articles d' = articles d ++ new /\
                length new <= length items /\
                Forall (fun a => a_feedId a = feedId /\ a_isRead a = Some false
                                 /\ a_isBookmarked a = Some false) new.
Proof.
  induction items as [|it items IH]; intros k d n d' n' r; cbn [Handlers.itemLoop].
  - intros H; inversion H; subst. split; [lia|].
    exists []. rewrite app_nil_r. repeat split; auto.
  - destruct (getArticleByGuid d feedId (guidOf it)).
    + intros H. apply IH in H. destruct H as (Hn & new & Ha & Hl & Hf).
      split; [exact Hn|]. exists new. cbn [length]. repeat split; auto.
    + rewrite createArticle_thrownBy. unfold appendArticle.
      destruct (thrownBy _ _ _).
      * intros H; inversion H; subst. split; [lia|].
        exists []. rewrite app_nil_r. cbn [length]. repeat split; auto. lia.
      * intros H. apply IH in H. cbn [articles nextId] in H.
        destruct H as (Hn & new & Ha & Hl & Hf).
        split; [lia|].
        eexists (_ :: new). rewrite Ha, <- app_assoc. cbn [app length].
        repeat split; [lia|]. constructor; [|exact Hf].
        repeat split.
Qed.

Section AddFeed.
Variable hostname : str -> option str.
Variable parseFeed : str -> option parsedFeed.
Variable clock : nat -> time.
Variable now : time.

Local Abbreviation addFeed :=
  (addFeed parseDate refuses hostname parseFeed clock now).

(** a feed whose url is new is refused for its category only *)
Lemma createFeed_new (d : db) (ins : InsertFeed) :
  getFeedByUrl d (if_url ins) = None ->
  createFeed d ins
  = if categoryKnown d (if_categoryId ins) then inr (appendFeed d ins)
    else inl CategoryKey.
Proof.
  unfold getFeedByUrl, createFeed, categoryKnown. intros G.
  destruct (existsb _ (feeds d)) eqn:E.
  - apply existsb_exists in E. destruct E as (g & Hg & Eg).
    eapply find_none in G; [|exact Hg]. cbv beta in G. congruence.
  - destruct (if_categoryId ins) as [c|]; [|reflexivity].
    destruct (existsb _ (categories d)); reflexivity.
Qed.

(** the ways POST /api/feeds goes *)
Lemma addFeed_cases (url : str) (categoryId : option id) (d : db) :
  let u := normalizeUrl url in
  (url = [] /\ addFeed url categoryId d = (d, UrlRequired)) \/
  (url <> [] /\ getFeedByUrl d u <> None
   /\ addFeed url categoryId d = (d, Conflict)) \/
  (url <> [] /\ getFeedByUrl d u = None /\ parseFeed u = None
   /\ addFeed url categoryId d = (d, InvalidFeed)) \/
  (url <> [] /\ getFeedByUrl d u = None /\ parseFeed u <> None /\
   categoryKnown d categoryId = false /\
   addFeed url categoryId d = (d, ServerError)) \/
  (exists pf d2 n r,
      url <> [] /\ getFeedByUrl d u = None /\ parseFeed u = Some pf /\
      categoryKnown d categoryId = true /\
      let ins :=
        {| if_title := or_str (pf_title pf) (lit "Untitled Feed");
           if_url := u;
           if_siteUrl := or_null (pf_link pf);
           if_description := or_null (pf_description pf);
           if_favicon := getFaviconUrl hostname (or_str (pf_link pf) u);
           if_categoryId := categoryId;
           if_isActive := Some true |} in
      let d1 := fst (appendFeed d ins) in
      let feed := snd (appendFeed d ins) in
      itemLoop (f_id feed) clock 0 (itemsOf 50 pf) d1 0 = (d2, n, r) /\
      addFeed url categoryId d
      = match r with
        | None => (setFeed d2 (f_id feed)
                     {| p_lastFetched := Some now; p_errorCount := None |},
                   Created feed)
        | Some _ => (d2, ServerError)
        end).
Proof.
  intros u. unfold Handlers.addFeed.
  destruct url as [|x url]; [left; split; reflexivity|]. right.
  fold u.
  destruct (getFeedByUrl d u) eqn:G;
    [left; repeat split; congruence|]. right.
  destruct (parseFeed u) as [pf|] eqn:P;
    [|left; repeat split; congruence]. right.
  cbv zeta. rewrite createFeed_new by exact G. cbn [if_categoryId].
  destruct (categoryKnown d categoryId) eqn:K.
  - right. unfold appendFeed. cbv zeta. cbn [fst snd f_id].
    match goal with
    | |- context [Handlers.itemLoop ?a ?b ?c ?e ?f ?g ?h ?i] =>
        destruct (Handlers.itemLoop a b c e f g h i) as [[d2 n] r] eqn:E
    end.
    exists pf, d2, n, r.
    split; [discriminate|]. split; [reflexivity|]. split; [reflexivity|].
    split; [reflexivity|]. split; [exact E|].
    destruct r; reflexivity.
  - left. repeat split; congruence.
Qed.

(** X7: a 201 of POST /api/feeds, the feed identities of the store being
    those the counter gave: the URL was not in the store; the row answered
    has the normalized URL, the category given, errorCount 0 and still no
    lastFetched, while the row in the store has lastFetched set to the
    current time; at most 50 articles were appended, all of the new feed,
    unread and not bookmarked. *)
Theorem addFeed_created (url : str) (categoryId : option id) (d d' : db)
        (f : Feed) :
  freshIds d ->
  addFeed url categoryId d = (d', Created f) ->
  f_url f = normalizeUrl url /\ f_categoryId f = categoryId /\
  f_lastFetched f = None /\ f_errorCount f = Some 0%Z /\
  f_isActive f = Some true /\
  getFeedByUrl d (normalizeUrl url) = None /\
  getFeed d' (f_id f) = Some (withSync f (Some 0%Z) (Some now)) /\
  exists new, articles d' = articles d ++ new /\ length new <= 50 /\
              Forall (fun a => a_feedId a = f_id f /\ a_isRead a = Some false
                               /\ a_isBookmarked a = Some false) new.
Proof.
  intros Hfresh H.
  destruct (addFeed_cases url categoryId d)
    as [[_ E]|[(_ & _ & E)|[(_ & _ & _ & E)|[(_ & _ & _ & _ & E)|
        (pf & d2 & n & r & _ & G & P & _ & E1 & E)]]]];
    try (rewrite E in H; discriminate H).
  cbv zeta in E1, E. rewrite E in H. clear E.
  destruct r as [msg|]; [discriminate H|].
  inversion H; subst d' f; clear H.
  destruct (itemLoop_frame _ _ _ _ _ _ _ _ _ _ _ E1) as (Hf & _).
  destruct (itemLoop_bound _ _ _ _ _ _ _ _ _ E1) as (_ & new & Ha & Hl & Hall).
  repeat (split; [reflexivity|]). split; [exact G|]. split.
  - rewrite getFeed_updateFeed_same, (getFeed_feeds _ _ _ Hf).
    rewrite (getFeed_createFeed d _ Hfresh). reflexivity.
  - exists new. split; [exact Ha|]. split; [|exact Hall].
    etransitivity; [exact Hl|]. unfold itemsOf. apply firstn_le_length.
Qed.

Lemma addFeed_urls (url : str) (categoryId : option id) (d : db) :
  let d1 := fst (addFeed url categoryId d) in
  let r := snd (addFeed url categoryId d) in
  (leavesFeed (categoryKnown d categoryId) r ->
   In (normalizeUrl url) (map f_url (feeds d1))) /\
  (uniqueUrls d -> uniqueUrls d1) /\
  (r = UrlRequired \/ r = InvalidFeed \/ r = Conflict \/
   (r = ServerError /\ categoryKnown d categoryId = false) -> d1 = d).
Proof.
  destruct (addFeed_cases url categoryId d)
    as [[_ E]|[(_ & G & E)|[(_ & _ & _ & E)|[(_ & _ & _ & K & E)|
        (pf & d2 & n & r & _ & G & P & K & E1 & E)]]]];
    cbv zeta in *; rewrite E; cbn [fst snd leavesFeed]; clear E.
  - tauto.
  - split; [|tauto]. intros _.
    destruct (in_dec (list_eq_dec N.eq_dec) (normalizeUrl url)
                     (map f_url (feeds d))) as [Hin|Hn]; [exact Hin|].
    apply getFeedByUrl_None in Hn. contradiction.
  - tauto.
  - rewrite K. split; [discriminate|]. tauto.
  - destruct (itemLoop_frame _ _ _ _ _ _ _ _ _ _ _ E1) as (Hf & _).
    cbn [appendFeed fst snd feeds f_id] in Hf.
    assert (U2 : map f_url (feeds d2)
                 = map f_url (feeds d) ++ [normalizeUrl url])
      by (rewrite Hf, map_app; reflexivity).
    assert (A : In (normalizeUrl url) (map f_url (feeds d2)))
      by (rewrite U2; apply in_or_app; right; left; reflexivity).
    assert (B : uniqueUrls d -> uniqueUrls d2).
    { unfold uniqueUrls. rewrite U2. intros U. apply NoDup_snoc; [exact U|].
      now apply getFeedByUrl_None. }
    destruct r as [msg|]; cbn [fst snd leavesFeed].
    + split; [auto|]. split; [exact B|].
      intros [H|[H|[H|[_ H]]]]; try discriminate H. congruence.
    + unfold uniqueUrls. rewrite urls_updateFeed.
      split; [auto|]. split; [exact B|].
      intros [H|[H|[H|[H _]]]]; discriminate H.
Qed.

End AddFeed.


End StoreFacts.

(** an instance of X7: example.com, with spaces around it, added to the
    empty store *)
Lemma addFeed_created_witness :
  let r := addFeed noDate accepts (fun _ => None) parsesAll clock0 7%Z
                   (lit " example.com ") None empty in
  freshIds empty /\
  exists f, snd r = Created f /\ f_url f = lit "https://example.com" /\
            f_lastFetched f = None /\
            getFeed (fst r) (f_id f) = Some (withSync f (Some 0%Z) (Some 7%Z)).
Proof.
  assert (F : freshIds empty) by constructor.
  split; [exact F|].
  destruct (addFeed noDate accepts (fun _ => None) parsesAll clock0 7%Z
                    (lit " example.com ") None empty) as [d' r] eqn:E.
  assert (Hr : exists f, r = Created f).
  { vm_compute in E. inversion E. eexists. reflexivity. }
  destruct Hr as [f ->]. exists f. split; [reflexivity|].
  destruct (addFeed_created noDate accepts (fun _ => None) parsesAll clock0
              7%Z (lit " example.com ") None empty d' f F E)
    as (H1 & _ & H3 & _ & _ & _ & H7 & _).
  split; [rewrite H1; vm_compute; reflexivity|]. split; [exact H3|exact H7].
Defined.


(** ** POST /api/feeds/discover *)

(** X9: POST /api/feeds/discover answers directFeed true with exactly one
    candidate: the normalized URL, the type RSS and a non-empty title.
    Adding that URL as offered, while it still parses, is never answered
    400: the feed is stored under exactly the URL offered, or reported as
    existing with the store unchanged (or the answer is 500: the category
    named is unknown or an article insert throws). *)
Theorem discover_then_add
        (resolveUrl : str -> str -> option str)
        (parseFeed : str -> option parsedFeed)
        (validBase : str -> bool) (fetch : str -> fetched)
        (rawUrl : str) (feeds : list candidate) :
  discoverRoute resolveUrl parseFeed validBase fetch rawUrl
  = Discovered true feeds ->
  exists c,
    feeds = [c] /\ c_url c = normalizeUrl rawUrl /\ c_type c = lit "RSS" /\
    c_title c <> [] /\
    forall parseDate refuses hostname clock now categoryId d,
      match addFeed parseDate refuses hostname parseFeed clock now
                    (c_url c) categoryId d with
      | (_, Created f) => f_url f = c_url c
      | (d', Conflict) => d' = d /\ getFeedByUrl d (c_url c) <> None
      | (_, ServerError) => True
      | (_, UrlRequired) | (_, InvalidFeed) => False
      end.
Proof.
  unfold discoverRoute. destruct rawUrl as [|x raw]; [discriminate|].
  set (url := normalizeUrl (x :: raw)).
  destruct (parseFeed url) as [feed|] eqn:P; [|discriminate].
  intros H; inversion H; subst feeds; clear H.
  eexists. split; [reflexivity|]. cbn [c_url c_type Routes.c_title].
  split; [reflexivity|]. split; [reflexivity|]. split.
  { destruct (pf_title feed) as [[|y t]|]; discriminate. }
  intros parseDate refuses hostname clock now categoryId d.
  destruct (normalizeUrl_twice (x :: raw)) as (Hn & _ & Hne). fold url in Hn, Hne.
  destruct (addFeed_cases parseDate refuses hostname parseFeed clock now
              url categoryId d)
    as [[E0 _]|[(_ & G & E)|[(_ & _ & P' & _)|[(_ & _ & _ & _ & E)|
        (pf & d2 & n & r & _ & G & _ & _ & _ & E)]]]];
    cbv zeta in *; rewrite ?Hn in *.
  - contradiction.
  - rewrite E. split; [reflexivity | exact G].
  - congruence.
  - rewrite E. exact I.
  - rewrite E. destruct r; [exact I | reflexivity].
Qed.

(** an instance of X9: a URL that parses is offered as a direct feed *)
Lemma discover_then_add_witness :
  exists c,
    discoverRoute resolveExample parsesAll (fun _ => true)
                  (fun _ => FetchThrew) (lit " example.com")
    = Discovered true [c] /\
    c_url c = lit "https://example.com".
Proof.
  destruct (discover_then_add resolveExample parsesAll (fun _ => true)
              (fun _ => FetchThrew) (lit " example.com") _ eq_refl)
    as (c & E & U & _).
  exists c. split.
  - rewrite <- E. reflexivity.
  - rewrite U. vm_compute. reflexivity.
Defined.

(** ** The OPML import on the store *)

Lemma insert_sorted_In (A : Type) (leb : A -> A -> bool) (x y : A)
      (l : list A) :
  In y (insert_sorted leb x l) <-> y = x \/ In y l.
Proof.
  induction l as [|z l IH]; cbn [insert_sorted].
  - cbn [In]. intuition congruence.
  - destruct (leb x z); cbn [In]; [intuition congruence|].
    rewrite IH. intuition congruence.
Qed.

Lemma order_by_In (A : Type) (leb : A -> A -> bool) (y : A) (l : list A) :
  In y (order_by leb l) <-> In y l.
Proof.
  unfold order_by. induction l as [|x l IH]; cbn [fold_right In]; [tauto|].
  rewrite insert_sorted_In, IH. intuition congruence.
Qed.

Lemma getFeed_urls (d d' : db) (u : str) :
  feeds d' = feeds d -> getFeedByUrl d' u = getFeedByUrl d u.
Proof. unfold getFeedByUrl. now intros ->. Qed.

Section ImportStore.
Variable parseDate : str -> time.
Variable refuses : InsertArticle -> option str.
Variable hostname : str -> option str.
Variable parseFeed : str -> option parsedFeed.
Variable toLowerCase : str -> str.
Variable clock : nat -> time.
Variable now : time.
Variable collate : str -> str -> bool.
Variable pgMessage : violation -> str.

Local Abbreviation importOne :=
  (importOne parseDate refuses hostname parseFeed toLowerCase clock now
             collate pgMessage).
Local Abbreviation importOpml :=
  (importOpml parseDate refuses hostname parseFeed toLowerCase clock now
              collate pgMessage).
Local Abbreviation lowerName := (fun c : Category => toLowerCase (c_name c)).
Local Abbreviation resolveCategory :=
  (resolveCategory toLowerCase collate).
Local Abbreviation itemLoop := (itemLoop parseDate refuses).

(** the category of an imported feed: an existing one with the name in any
    letter case and the store as it is, or a new one at the end *)
Lemma resolveCategory_cases (d : db) (category : option str) :
  feeds (fst (resolveCategory d category)) = feeds d /\
  articles (fst (resolveCategory d category)) = articles d /\
  ((fst (resolveCategory d category) = d /\
    match snd (resolveCategory d category) with
    | None => category = None \/ category = Some []
    | Some i =>
        exists name c, category = Some name /\ In c (categories d) /\
                       c_id c = i /\
                       toLowerCase (c_name c) = toLowerCase name
    end)
   \/
   (exists name,
       category = Some name /\ name <> [] /\
       ~ In (toLowerCase name)
            (map (fun c => toLowerCase (c_name c)) (categories d)) /\
       categories (fst (resolveCategory d category))
       = categories d ++ [{| c_id := nextId d; c_name := name;
                             c_color := Some (lit "#6366f1");
                             c_order := Some 0%Z |}] /\
       snd (resolveCategory d category) = Some (nextId d))).
Proof.
  unfold Handlers.resolveCategory.
  destruct category as [[|x s]|]; cbn [fst snd]; try tauto.
  destruct (find _ (getCategories collate d)) as [c|] eqn:E; cbn [fst snd].
  - split; [reflexivity|]. split; [reflexivity|]. left.
    split; [reflexivity|].
    apply find_some in E. destruct E as [E1 E2].
    apply str_eqb_eq in E2. unfold getCategories in E1.
    apply order_by_In in E1. exists (x :: s), c. auto.
  - cbn [createCategory fst snd feeds articles categories].
    split; [reflexivity|]. split; [reflexivity|]. right.
    exists (x :: s). repeat split; try discriminate.
    intros Hin. apply in_map_iff in Hin. destruct Hin as (c & Hc & Hin).
    eapply find_none in E.
    2:{ unfold getCategories. apply order_by_In. exact Hin. }
    cbv beta in E. rewrite Hc, str_eqb_refl in E. discriminate.
Qed.

(** the category an import resolves is one of the store it leaves *)
Lemma resolveCategory_known (d : db) (category : option str) :
  categoryKnown (fst (resolveCategory d category))
                (snd (resolveCategory d category)) = true.
Proof.
  destruct (resolveCategory_cases d category)
    as (_ & _ & [[-> H]|(name & _ & _ & _ & Hc & ->)]).
  - destruct (snd (resolveCategory d category)) as [i|]; [|reflexivity].
    destruct H as (name & c & _ & Hc & Hi & _).
    cbn [categoryKnown]. apply existsb_exists. exists c.
    split; [exact Hc|]. now apply Nat.eqb_eq.
  - cbn [categoryKnown]. rewrite Hc, existsb_app. cbn [existsb c_id].
    rewrite Nat.eqb_refl. apply orb_true_iff. right. reflexivity.
Qed.

(** the three ways the loop body of the import goes: the insert of the
    feed is never refused, its url being new and its category resolved *)
Lemma importOne_cases (d : db) (t : tally) (info : feedInfo) :
  let url := fi_url info in
  (getFeedByUrl d url <> None /\
   importOne (d, t) info
   = (d, {| t_imported := t_imported t; t_skipped := S (t_skipped t);
            t_errors := t_errors t |})) \/
  (getFeedByUrl d url = None /\ parseFeed url = None /\
   importOne (d, t) info
   = (d, {| t_imported := t_imported t; t_skipped := t_skipped t;
            t_errors := t_errors t ++ [lit "Failed to parse: " ++ url] |}))
  \/
  (exists pf d3 n r,
      getFeedByUrl d url = None /\ parseFeed url = Some pf /\
      let dc := resolveCategory d (fi_category info) in
      let ins :=
        {| if_title := or_str (or_else (fi_title info) (pf_title pf))
                              (lit "Untitled Feed");
           if_url := url;
           if_siteUrl := or_null (pf_link pf);
           if_description := or_null (pf_description pf);
           if_favicon := getFaviconUrl hostname (or_str (pf_link pf) url);
           if_categoryId := snd dc;
           if_isActive := Some true |} in
      let d2 := fst (appendFeed (fst dc) ins) in
      let feed := snd (appendFeed (fst dc) ins) in
      itemLoop (f_id feed) clock 0 (itemsOf 20 pf) d2 0 = (d3, n, r) /\
      importOne (d, t) info
      = match r with
        | None =>
            (setFeed d3 (f_id feed)
               {| p_lastFetched := Some now; p_errorCount := None |},
             {| t_imported := S (t_imported t); t_skipped := t_skipped t;
                t_errors := t_errors t |})
        | Some err => (d3, failed pgMessage t info err)
        end).
Proof.
  intros url. unfold Handlers.importOne. fold url.
  destruct (getFeedByUrl d url) eqn:G;
    [left; split; [discriminate | reflexivity]|]. right.
  destruct (parseFeed url) as [pf|] eqn:P;
    [|left; repeat split; reflexivity]. right.
  cbv zeta.
  pose proof (resolveCategory_known d (fi_category info)) as K.
  destruct (resolveCategory_cases d (fi_category info)) as (Rf & _ & _).
  destruct (resolveCategory d (fi_category info)) as [d1 cat] eqn:RC.
  cbn [fst snd] in K, Rf.
  rewrite createFeed_new
    by (cbn [if_url]; rewrite (getFeed_urls d d1 url Rf); exact G).
  cbn [if_categoryId]. rewrite K.
  unfold appendFeed. cbv zeta. cbn [fst snd f_id].
  match goal with
  | |- context [Handlers.itemLoop ?a ?b ?c ?e ?f ?g ?h ?i] =>
      destruct (Handlers.itemLoop a b c e f g h i) as [[d3 n] r] eqn:E
  end.
  exists pf, d3, n, r.
  split; [reflexivity|]. split; [reflexivity|]. split; [exact E|].
  destruct r; reflexivity.
Qed.

(** what one reference does to the URLs, the categories and the counters *)
Lemma importOne_effect (d : db) (t : tally) (info : feedInfo) :
  let d' := fst (importOne (d, t) info) in
  let t' := snd (importOne (d, t) info) in
  (* the reference was skipped or failed to parse: nothing changed *)
  ((d' = d /\
    (getFeedByUrl d (fi_url info) <> None /\ t_errors t' = t_errors t
     /\ t_imported t' = t_imported t /\ t_skipped t' = S (t_skipped t)
     \/ exists e, t_errors t' = t_errors t ++ [e]))
   \/
   (* or a feed was created *)
   (getFeedByUrl d (fi_url info) = None /\
    map f_url (feeds d') = map f_url (feeds d) ++ [fi_url info] /\
    categories d' = categories (fst (resolveCategory d (fi_category info)))
    /\
    (t_errors t' = t_errors t /\ t_imported t' = S (t_imported t)
     /\ t_skipped t' = t_skipped t
     \/ exists e, t_errors t' = t_errors t ++ [e]))).
Proof.
  destruct (importOne_cases d t info)
    as [[G E]|[(G & P & E)|(pf & d3 & n & r & G & P & E1 & E)]];
    cbv zeta in *; rewrite E; cbn [fst snd]; clear E.
  - left. split; [reflexivity|]. left. cbn. auto.
  - left. split; [reflexivity|]. right. cbn. eauto.
  - right. split; [exact G|].
    destruct (itemLoop_frame _ _ _ _ _ _ _ _ _ _ _ E1) as (Hf & Hc & _).
    destruct (resolveCategory_cases d (fi_category info)) as (Rf & _ & _).
    cbn [appendFeed fst snd feeds categories f_id] in Hf, Hc.
    assert (U : map f_url (feeds d3)
                = map f_url (feeds d) ++ [fi_url info])
      by (rewrite Hf, map_app, Rf; reflexivity).
    destruct r as [msg|]; cbn [fst snd].
    + split; [exact U|]. split; [exact Hc|]. right. cbn. eauto.
    + rewrite urls_updateFeed. split; [exact U|]. split; [exact Hc|].
      left. cbn. auto.
Qed.


(** the references of a batch without errors are all in the store at its
    end, and the URLs of the store only grow *)
Lemma import_fold_urls (l : list feedInfo) :
  forall d t,
    let d' := fst (fold_left importOne l (d, t)) in
    let t' := snd (fold_left importOne l (d, t)) in
    (uniqueUrls d -> uniqueUrls d') /\
    (t_errors t' = [] ->
     t_errors t = [] /\
     (forall u, In u (map f_url (feeds d)) -> In u (map f_url (feeds d'))) /\
     (forall info, In info l -> In (fi_url info) (map f_url (feeds d')))).
Proof.
  induction l as [|info l IH]; intros d t; cbn [fold_left fst snd].
  - split; [tauto|]. intros E. split; [exact E|]. split; [tauto|].
    intros ? [].
  - destruct (importOne (d, t) info) as [dm tm] eqn:S1.
    pose proof (importOne_effect d t info) as Eff.
    cbv zeta in Eff. rewrite S1 in Eff. cbn [fst snd] in Eff.
    specialize (IH dm tm). cbv zeta in IH. destruct IH as [IHu IHe].
    split.
    + intros U. apply IHu.
      destruct Eff as [[-> _]|(G & Hu & _)]; [exact U|].
      unfold uniqueUrls. rewrite Hu. apply NoDup_snoc; [exact U|].
      now apply getFeedByUrl_None.
    + intros E. destruct (IHe E) as (Em & Hmono & Hall).
      destruct Eff as [[-> [(G & He & _)|[e He]]]
                      |(G & Hu & _ & [(He & _)|[e He]])];
        try (rewrite Em in He; symmetry in He;
             apply app_eq_nil in He; destruct He as [_ He]; discriminate He).
      * split; [congruence|]. split; [exact Hmono|].
        intros i [<-|Hin]; [|now apply Hall].
        apply Hmono.
        destruct (in_dec (list_eq_dec N.eq_dec) (fi_url info)
                         (map f_url (feeds d))) as [Hi|Hn]; [exact Hi|].
        apply getFeedByUrl_None in Hn. contradiction.
      * split; [congruence|]. split.
        -- intros u Hin. apply Hmono. rewrite Hu.
           apply in_or_app. now left.
        -- intros i [<-|Hin]; [|now apply Hall].
           apply Hmono. rewrite Hu. apply in_or_app. right. now left.
Qed.

(** what the import creates of categories: new ones at the end, each
    under a folder name of a reference and under a name that no category
    had in lower case, the others included *)
Lemma import_fold_categories (l : list feedInfo) :
  forall d t,
    let d' := fst (fold_left importOne l (d, t)) in
    exists new,
      categories d' = categories d ++ new /\
      Forall (fun c => exists info,
                  In info l /\ fi_category info = Some (c_name c)) new /\
      Forall (fun c => ~ In (lowerName c) (map lowerName (categories d)))
             new /\
      NoDup (map lowerName new).
Proof.
  induction l as [|info l IH]; intros d t; cbn [fold_left fst snd].
  - exists []. rewrite app_nil_r.
    repeat split; constructor.
  - destruct (importOne (d, t) info) as [dm tm] eqn:S1.
    pose proof (importOne_effect d t info) as Eff.
    cbv zeta in Eff. rewrite S1 in Eff. cbn [fst snd] in Eff.
    specialize (IH dm tm). cbv zeta in IH.
    assert (Hm : exists new,
                   categories dm = categories d ++ new /\
                   Forall (fun c => fi_category info = Some (c_name c)) new
                   /\
                   Forall (fun c => ~ In (lowerName c)
                                         (map lowerName (categories d)))
                          new /\
                   NoDup (map lowerName new)).
    { destruct Eff as [[-> _]|(_ & _ & Hc & _)].
      - exists []. rewrite app_nil_r. repeat split; constructor.
      - destruct (resolveCategory_cases d (fi_category info))
          as (_ & _ & [[R _]|(name & Hn & _ & Hnin & Hcat & _)]).
        + rewrite R in Hc. exists []. rewrite app_nil_r.
          repeat split; [exact Hc | constructor ..].
        + rewrite Hcat in Hc. eexists. split; [exact Hc|].
          split; [constructor; [exact Hn | constructor]|].
          split; [constructor; [exact Hnin | constructor]|].
          cbn [map]. constructor; [intros [] | constructor]. }
    destruct Hm as (new1 & C1 & F1 & G1 & N1).
    destruct IH as (new2 & C2 & F2 & G2 & N2).
    rewrite C1, map_app in G2.
    exists (new1 ++ new2).
    split; [rewrite C2, C1, app_assoc; reflexivity|]. split; [|split].
    + apply Forall_app. split.
      * eapply Forall_impl; [|exact F1]. intros c Hc. exists info.
        split; [now left | exact Hc].
      * eapply Forall_impl; [|exact F2]. intros c (i & Hi & Hc). exists i.
        split; [now right | exact Hc].
    + apply Forall_app. split; [exact G1|].
      eapply Forall_impl; [|exact G2]. intros c Hc Hin.
      apply Hc. apply in_or_app. now left.
    + rewrite map_app. apply NoDup_app; [exact N1 | exact N2 |].
      intros x Hx1 Hx2. apply in_map_iff in Hx2.
      destruct Hx2 as (c & <- & Hc).
      rewrite Forall_forall in G2. apply (G2 c Hc).
      apply in_or_app. now right.
Qed.

(** X10: an import keeps the categories it finds, in place, and appends a
    category only for a folder name of the document under which a feed is
    referenced, never for a name that a category has in lower case, and
    not twice for one name in lower case: so if no two categories had the
    same name in lower case before, none have after. *)
Theorem import_reuses_categories (opml : str) (d d' : db) (r : importResult) :
  importOpml opml d = Some (d', r) ->
  (exists new,
     categories d' = categories d ++ new /\
     Forall (fun c => exists info,
                 In info (parseOutlines opml) /\
                 fi_category info = Some (c_name c)) new /\
     Forall (fun c => ~ In (toLowerCase (c_name c))
                           (map (fun k => toLowerCase (c_name k))
                                (categories d))) new /\
     NoDup (map (fun c => toLowerCase (c_name c)) new)) /\
  (distinctNames toLowerCase d -> distinctNames toLowerCase d').
Proof.
  unfold Handlers.importOpml. destruct opml as [|x opml]; [discriminate|].
  set (refs := parseOutlines (x :: opml)).
  pose proof (import_fold_categories refs d
                {| t_imported := 0; t_skipped := 0; t_errors := [] |}) as H.
  cbv zeta in H.
  destruct (fold_left importOne refs _) as [d1 t1].
  intros E; inversion E; subst. cbn [fst] in H.
  split; [exact H|].
  destruct H as (new & C & _ & G & N). unfold distinctNames.
  rewrite C, map_app. intros D. apply NoDup_app; [exact D | exact N |].
  intros x0 Hx1 Hx2. apply in_map_iff in Hx2.
  destruct Hx2 as (c & <- & Hc).
  rewrite Forall_forall in G. now apply (G c Hc).
Qed.

End ImportStore.

Section ImportAgain.
Variable parseDate : str -> time.
Variable refuses : InsertArticle -> option str.

(** a batch whose references are all in the store skips them all *)
Lemma import_fold_skips (hostname : str -> option str)
      (parseFeed : str -> option parsedFeed) (toLowerCase : str -> str)
      (clock : nat -> time) (now : time) (collate : str -> str -> bool)
      (pgMessage : violation -> str) (l : list feedInfo) (d : db) :
  (forall info, In info l -> In (fi_url info) (map f_url (feeds d))) ->
  forall t,
    fold_left (importOne parseDate refuses hostname parseFeed toLowerCase
                         clock now collate pgMessage) l (d, t)
    = (d, {| t_imported := t_imported t;
             t_skipped := length l + t_skipped t;
             t_errors := t_errors t |}).
Proof.
  induction l as [|info l IH]; intros H t; cbn [fold_left length].
  - destruct t; reflexivity.
  - destruct (importOne_cases parseDate refuses hostname parseFeed
                toLowerCase clock now collate pgMessage d t info)
      as [[G E]|[(G & _)|(pf & d3 & n & r & G & _)]]; cbv zeta in *.
    + rewrite E, IH by (intros i Hi; apply H; now right).
      cbn [t_imported t_skipped t_errors]. do 2 f_equal. lia.
    + exfalso. apply getFeedByUrl_None in G. apply G, H. now left.
    + exfalso. apply getFeedByUrl_None in G. apply G, H. now left.
Qed.

(** X11: after an import that reported no error, importing the same
    document again, whatever the feeds answer then, imports nothing, skips
    every reference and leaves the store as it is. *)
Theorem import_again_skips
        (hostname : str -> option str) (parseFeed : str -> option parsedFeed)
        (toLowerCase : str -> str) (clock : nat -> time) (now : time)
        (collate : str -> str -> bool) (pgMessage : violation -> str)
        (opml : str) (d d1 : db) (r1 : importResult) :
  importOpml parseDate refuses hostname parseFeed toLowerCase clock now
             collate pgMessage opml d = Some (d1, r1) ->
  errors r1 = [] ->
  forall hostname' parseFeed' toLowerCase' clock' now' collate' pgMessage',
    importOpml parseDate refuses hostname' parseFeed' toLowerCase' clock'
               now' collate' pgMessage' opml d1
    = Some (d1, {| imported := 0; skipped := total r1; total := total r1;
                   errors := [] |}).
Proof.
  unfold importOpml. destruct opml as [|x opml]; [discriminate|].
  set (refs := parseOutlines (x :: opml)).
  pose proof (import_fold_urls parseDate refuses hostname parseFeed
                toLowerCase clock now collate pgMessage refs d
                {| t_imported := 0; t_skipped := 0; t_errors := [] |}) as H.
  cbv zeta in H.
  destruct (fold_left _ refs _) as [dd t1].
  intros E Herr; inversion E; subst d1 r1; clear E.
  cbn [errors total fst snd] in *.
  destruct H as [_ H]. destruct (H Herr) as (_ & _ & Hall).
  intros hostname' parseFeed' toLowerCase' clock' now' collate' pgMessage'.
  rewrite (import_fold_skips hostname' parseFeed' toLowerCase' clock' now'
             collate' pgMessage' refs dd Hall).
  cbn [t_imported t_skipped t_errors]. rewrite Nat.add_0_r. reflexivity.
Qed.

(** X12: no route makes a second feed of a URL: if the feeds of the store
    have distinct URLs, they still have after POST /api/feeds, after an
    OPML import and after the sync of a feed. *)
Theorem feed_urls_stay_unique (d : db) :
  uniqueUrls d ->
  (forall hostname parseFeed clock now url categoryId,
      uniqueUrls (fst (addFeed parseDate refuses hostname parseFeed clock
                               now url categoryId d))) /\
  (forall hostname parseFeed toLowerCase clock now collate pgMessage
          opml d' r,
      importOpml parseDate refuses hostname parseFeed toLowerCase clock now
                 collate pgMessage opml d = Some (d', r) -> uniqueUrls d') /\
  (forall clock now parsed feed,
      uniqueUrls (storeOf (syncFeed parseDate refuses clock now parsed feed
                                    d))).
Proof.
  intros U. split; [|split].
  - intros. now apply addFeed_urls.
  - intros hostname parseFeed toLowerCase clock now collate pgMessage
           opml d' r.
    unfold importOpml. destruct opml as [|x opml]; [discriminate|].
    set (refs := parseOutlines (x :: opml)).
    pose proof (import_fold_urls parseDate refuses hostname parseFeed
                  toLowerCase clock now collate pgMessage refs d
                  {| t_imported := 0; t_skipped := 0; t_errors := [] |}) as H.
    cbv zeta in H.
    destruct (fold_left _ refs _) as [dd t1].
    intros E; inversion E; subst. now apply H.
  - intros clock now parsed feed. rewrite syncFeed_eq. unfold uniqueUrls.
    destruct parsed as [pf|].
    + destruct (itemLoop parseDate refuses (f_id feed) clock 0
                         (itemsOf 50 pf) d 0) as [[d' n] r] eqn:E.
      destruct (itemLoop_frame _ _ _ _ _ _ _ _ _ _ _ E) as (Hf & _).
      destruct r as [e|].
      * destruct (catchFeedError_store feed d' n) as [_ [-> | ->]];
          rewrite ?urls_updateFeed, Hf; exact U.
      * unfold storeOf; cbn [fst]. rewrite urls_updateFeed, Hf. exact U.
    + destruct (catchFeedError_store feed d 0) as [_ [-> | ->]];
        rewrite ?urls_updateFeed; exact U.
Qed.

End ImportAgain.

(** an instance of X23: the sample document has one feed reference *)
Lemma import_handles_all_witness :
  exists d' r,
    importSample empty = Some (d', r) /\ total r = 1 /\
    imported r + skipped r + length (errors r) = total r.
Proof.
  destruct (importSample empty) as [[d' r]|] eqn:E;
    [|vm_compute in E; discriminate E].
  exists d', r. split; [reflexivity|].
  destruct (import_handles_all noDate accepts (fun _ => None) parsesAll
              (map lower) clock0 7%Z str_leb noMessage sampleOpml empty d' r
              E) as [H1 H2].
  split; [|exact H1]. rewrite H2. vm_compute. reflexivity.
Defined.

(** an instance of X11: the sample document imported twice *)
Lemma import_again_skips_witness :
  exists d1 r1,
    importSample empty = Some (d1, r1) /\ errors r1 = [] /\
    importSample d1
    = Some (d1, {| imported := 0; skipped := total r1; total := total r1;
                   errors := [] |}).
Proof.
  destruct (importSample empty) as [[d1 r1]|] eqn:E;
    [|vm_compute in E; discriminate E].
  assert (He : errors r1 = [])
    by (vm_compute in E; inversion E; reflexivity).
  exists d1, r1. split; [reflexivity|]. split; [exact He|].
  exact (import_again_skips noDate accepts (fun _ => None) parsesAll
           (map lower) clock0 7%Z str_leb noMessage sampleOpml empty d1 r1
           E He
           (fun _ => None) parsesAll (map lower) clock0 7%Z str_leb
           noMessage).
Defined.

(** an instance of X10: the store has the category tech, the document the
    folder Tech: the import puts its feed into the category there is and
    creates none *)
Lemma import_reuses_categories_witness :
  distinctNames (map lower) withTech /\
  exists d' r,
    importSample withTech = Some (d', r) /\
    categories d' = categories withTech /\
    map f_categoryId (feeds d') = [Some 0] /\
    distinctNames (map lower) d'.
Proof.
  assert (D : distinctNames (map lower) withTech)
    by (repeat constructor; intros []).
  split; [exact D|].
  destruct (importSample withTech) as [[d' r]|] eqn:E;
    [|vm_compute in E; discriminate E].
  exists d', r. split; [reflexivity|]. split; [|split].
  - vm_compute in E. inversion E. reflexivity.
  - vm_compute in E. inversion E. reflexivity.
  - exact (proj2 (import_reuses_categories noDate accepts (fun _ => None)
                    parsesAll (map lower) clock0 7%Z str_leb noMessage
                    sampleOpml withTech d' r E) D).
Defined.

(** an instance of X12: a second feed added to the sample store *)
Lemma feed_urls_stay_unique_witness :
  uniqueUrls oneFeed /\
  uniqueUrls (fst (addFeed noDate accepts (fun _ => None) parsesAll clock0
                           7%Z (lit "example.com") None oneFeed)).
Proof.
  assert (U : uniqueUrls oneFeed)
    by (repeat constructor; intros []).
  split; [exact U|].
  apply (proj1 (feed_urls_stay_unique noDate accepts oneFeed U)).
Defined.

(** ** What a sync adds *)

Section SyncAdds.
Variable parseDate : str -> time.
Variable refuses : InsertArticle -> option str.

Lemma getArticleByGuid_prefix (d d1 : db) (extra : list Article)
      (feedId : id) (g : str) :
  articles d1 = articles d ++ extra ->
  getArticleByGuid d1 feedId g = None ->
  getArticleByGuid d feedId g = None /\
  Forall (fun a => a_feedId a = feedId -> a_guid a <> g) extra.
Proof.
  unfold getArticleByGuid. intros -> H. split.
  - destruct (find _ (articles d)) as [a|] eqn:E; [|reflexivity].
    exfalso. apply find_some in E. destruct E as [E1 E2].
    eapply find_none in H; [|apply in_or_app; left; exact E1].
    cbv beta in H. congruence.
  - apply Forall_forall. intros a Ha Hf Hg.
    eapply find_none in H; [|apply in_or_app; right; exact Ha].
    cbv beta in H. rewrite Hf, Hg, Nat.eqb_refl, str_eqb_refl in H.
    discriminate.
Qed.

(** what the item loop adds: an article for every guid it meets first *)
Lemma itemLoop_adds (feedId : id) (clock : nat -> time) (items : list item) :
  forall k d n d' n' r,
    itemLoop parseDate refuses feedId clock k items d n = (d', n', r) ->
    exists new,
      articles d' = articles d ++ new /\
      n' = n + length new /\
      length new <= length items /\
      NoDup (map a_guid new) /\
      Forall (fun a =>
                getArticleByGuid d feedId (a_guid a) = None /\
                exists it t i,
                  In it items /\
                  a = row_of i (articleOf parseDate feedId t it)) new.
Proof.
  induction items as [|it items IH]; intros k d n d' n' r; cbn [itemLoop].
  - intros H; inversion H; subst. exists []. rewrite app_nil_r.
    repeat split; auto; constructor.
  - destruct (getArticleByGuid d feedId (guidOf it)) as [found|] eqn:G.
    + intros H. apply IH in H.
      destruct H as (new & Ha & Hn & Hl & Hd & Hall).
      exists new. cbn [length].
      split; [exact Ha|]. split; [exact Hn|]. split; [lia|].
      split; [exact Hd|].
      eapply Forall_impl; [|exact Hall].
      intros a (H4 & it' & t & i & Hi & Hg).
      split; [exact H4|]. exists it', t, i. split; [now right | exact Hg].
    + rewrite createArticle_thrownBy. unfold appendArticle.
      destruct (thrownBy _ _ _).
      * intros H; inversion H; subst. exists []. rewrite app_nil_r.
        cbn [length]. repeat split; auto; try constructor. lia.
      * intros H. apply IH in H. cbn [articles] in H.
        destruct H as (new & Ha & Hn & Hl & Hd & Hall).
        set (row := row_of (nextId d)
                      (articleOf parseDate feedId (clock k) it)) in *.
        exists (row :: new). rewrite Ha, <- app_assoc.
        cbn [app length map]. split; [reflexivity|].
        split; [lia|]. split; [lia|].
        assert (Hp : Forall (fun a =>
                       getArticleByGuid d feedId (a_guid a) = None /\
                       a_guid a <> guidOf it) new).
        { eapply Forall_impl; [|exact Hall].
          intros a (H4 & it' & t & i & _ & Ea).
          destruct (getArticleByGuid_prefix d
                      {| feeds := feeds d; articles := articles d ++ [row];
                         categories := categories d;
                         nextId := S (nextId d) |} [row] feedId (a_guid a)
                      eq_refl H4) as [H5 H6].
          split; [exact H5|]. inversion H6; subst.
          intros E. apply H1; [reflexivity | now symmetry]. }
        split.
        { constructor; [|exact Hd].
          intros Hin. apply in_map_iff in Hin.
          destruct Hin as (a & E & Hin).
          rewrite Forall_forall in Hp. destruct (Hp a Hin) as [_ Hne].
          apply Hne. exact E. }
        constructor.
        { split; [exact G|]. exists it, (clock k), (nextId d).
          split; [now left | reflexivity]. }
        rewrite Forall_forall in *. intros a Hin.
        destruct (Hall a Hin) as (_ & it' & t & i & Hi & Hg).
        destruct (Hp a Hin) as [H5 _].
        split; [exact H5|]. exists it', t, i. split; [now right | exact Hg].
Qed.

(** X13: what one sync adds.  The articles of the store are kept in place
    and the new ones appended; the number the sync reports is the number
    appended, also when the sync ended in its catch branch; there are at
    most 50, and none after a failed parse.  Each new article belongs to the
    feed, is unread and not bookmarked, has the guid of one of the first 50
    items, a guid the feed did not have before and no other new article has,
    and a summary, if any, of at most 203 units without a markup tag. *)
Theorem sync_counts_created (clock : nat -> time) (now : time)
        (parsed : option parsedFeed) (feed : Feed) (d : db) :
  let r := syncFeed parseDate refuses clock now parsed feed d in
  exists new,
    articles (storeOf r) = articles d ++ new /\
    countOf r = length new /\
    length new <= 50 /\
    NoDup (map a_guid new) /\
    (parsed = None -> new = []) /\
    Forall (fun a =>
              a_feedId a = f_id feed /\ a_isRead a = Some false /\
              a_isBookmarked a = Some false /\
              getArticleByGuid d (f_id feed) (a_guid a) = None /\
              (exists pf it, parsed = Some pf /\ In it (itemsOf 50 pf) /\
                             a_guid a = guidOf it) /\
              match a_summary a with
              | Some summary => length summary <= 203 /\ tagFree summary
              | None => True
              end) new.
Proof.
  intros r. subst r. rewrite syncFeed_eq. destruct parsed as [pf|].
  - destruct (itemLoop parseDate refuses (f_id feed) clock 0 (itemsOf 50 pf)
                       d 0) as [[d' n] res] eqn:E.
    destruct (itemLoop_adds _ _ _ _ _ _ _ _ _ E)
      as (new & Ha & Hn & Hl & Hd & Hall).
    exists new.
    assert (L : length new <= 50).
    { etransitivity; [exact Hl|]. unfold itemsOf. apply firstn_le_length. }
    assert (F : Forall (fun a =>
                  a_feedId a = f_id feed /\ a_isRead a = Some false /\
                  a_isBookmarked a = Some false /\
                  getArticleByGuid d (f_id feed) (a_guid a) = None /\
                  (exists pf0 it, Some pf = Some pf0 /\
                                  In it (itemsOf 50 pf0) /\
                                  a_guid a = guidOf it) /\
                  match a_summary a with
                  | Some summary => length summary <= 203 /\ tagFree summary
                  | None => True
                  end) new).
    { eapply Forall_impl; [|exact Hall].
      intros a (H4 & it & t & i & Hi & ->).
      cbn [row_of articleOf a_feedId a_isRead a_isBookmarked a_guid
           a_summary ia_feedId ia_isRead ia_isBookmarked ia_guid
           ia_summary] in *.
      repeat (split; [reflexivity|]). split; [exact H4|].
      split; [exists pf, it; auto|].
      pose proof (summary_bound
                    (or_else (i_contentSnippet it) (i_content it))
                    maxLengthDefault) as B.
      destruct (extractSummary _ maxLengthDefault); [exact B | exact I]. }
    destruct res as [e|];
      [destruct (catchFeedError_articles feed d' n) as [-> ->]
      |unfold storeOf, countOf; cbn [fst snd articles setFeed]];
      (split; [exact Ha|]); (split; [exact Hn|]); (split; [exact L|]);
      (split; [exact Hd|]); (split; [discriminate | exact F]).
  - exists []. destruct (catchFeedError_articles feed d 0) as [-> ->].
    cbn [map length]. rewrite app_nil_r.
    split; [reflexivity|]. split; [reflexivity|]. split; [lia|].
    split; [constructor|]. split; [reflexivity | constructor].
Qed.

End SyncAdds.

(** an instance of X22: the sample store was synced once with two items *)
Lemma resync_after_sync_witness :
  let pf := feedOf [itemWithGuid (lit "g1"); itemWithGuid (lit "g2")] in
  length (articles synced) = 2 /\
  countOf (syncFeed noDate accepts clock0 9%Z (Some pf) alpha synced) = 0.
Proof.
  split; [reflexivity|].
  refine (proj1 (resync_after_sync noDate accepts clock0 clock0 7%Z 9%Z
                   (feedOf [itemWithGuid (lit "g1"); itemWithGuid (lit "g2")])
                   alpha alpha oneFeed synced 2 None eq_refl _ _)).
  - vm_compute. reflexivity.
  - vm_compute. reflexivity.
Defined.

(** ** The article queries of the store *)

Section SortFacts.
Variable A : Type.
Variable leb : A -> A -> bool.

Lemma insert_sorted_perm (x : A) (l : list A) :
  Permutation (insert_sorted leb x l) (x :: l).
Proof.
  induction l as [|y l IH]; cbn [insert_sorted]; [reflexivity|].
  destruct (leb x y); [reflexivity|].
  rewrite IH. apply perm_swap.
Qed.

Lemma order_by_perm (l : list A) : Permutation (order_by leb l) l.
Proof.
  unfold order_by. induction l as [|x l IH]; cbn [fold_right]; [reflexivity|].
  rewrite insert_sorted_perm. now constructor.
Qed.

Hypothesis leb_total : forall a b, leb a b = true \/ leb b a = true.
Hypothesis leb_trans :
  forall a b c, leb a b = true -> leb b c = true -> leb a c = true.

Lemma insert_sorted_sorted (x : A) (l : list A) :
  StronglySorted (fun a b => leb a b = true) l ->
  StronglySorted (fun a b => leb a b = true) (insert_sorted leb x l).
Proof.
  induction 1 as [|y l S IH F]; cbn [insert_sorted].
  - repeat constructor.
  - destruct (leb x y) eqn:E.
    + constructor; [now constructor|].
      constructor; [exact E|].
      eapply Forall_impl; [|exact F]. intros z. now apply leb_trans.
    + constructor; [exact IH|].
      assert (Hyx : leb y x = true)
        by (destruct (leb_total x y); congruence).
      apply Forall_forall. intros z Hz.
      apply (Permutation_in _ (insert_sorted_perm x l)) in Hz.
      destruct Hz as [<-|Hz]; [exact Hyx|].
      rewrite Forall_forall in F. now apply F.
Qed.

Lemma order_by_sorted (l : list A) :
  StronglySorted (fun a b => leb a b = true) (order_by leb l).
Proof.
  unfold order_by. induction l as [|x l IH]; cbn [fold_right];
    [constructor | now apply insert_sorted_sorted].
Qed.

End SortFacts.

Lemma StronglySorted_skipn (A : Type) (R : A -> A -> Prop) (n : nat)
      (l : list A) :
  StronglySorted R l -> StronglySorted R (skipn n l).
Proof.
  revert l; induction n as [|n IH]; intros l S; [exact S|].
  destruct l as [|x l]; [constructor|]. cbn [skipn].
  apply IH. now inversion S.
Qed.

Lemma StronglySorted_firstn (A : Type) (R : A -> A -> Prop) (n : nat)
      (l : list A) :
  StronglySorted R l -> StronglySorted R (firstn n l).
Proof.
  revert l; induction n as [|n IH]; intros l S; [constructor|].
  destruct l as [|x l]; [constructor|]. cbn [firstn].
  inversion S; subst. constructor; [now apply IH|].
  apply Forall_forall. intros y Hy.
  match goal with H : Forall _ l |- _ => rewrite Forall_forall in H;
                                         apply H end.
  revert Hy. clear. revert l. induction n as [|n IH]; intros l Hy;
    [destruct Hy|].
  destruct l as [|z l]; [destruct Hy|].
  destruct Hy as [<-|Hy]; [now left | right; now apply IH].
Qed.

Lemma In_firstn (A : Type) (n : nat) (l : list A) (x : A) :
  In x (firstn n l) -> In x l.
Proof.
  intros H. rewrite <- (firstn_skipn n l). apply in_or_app. now left.
Qed.

Lemma In_skipn (A : Type) (n : nat) (l : list A) (x : A) :
  In x (skipn n l) -> In x l.
Proof.
  intros H. rewrite <- (firstn_skipn n l). apply in_or_app. now right.
Qed.

Section ListingFacts.
Variable ilike : str -> str -> bool.

(** X14: getArticles lists only rows of the table that satisfy the
    conditions asked for, newest first, each with the feed it belongs to;
    at most 100 without a limit, a limit of 0 counting as none, and at most
    the limit otherwise; with neither offset nor limit and no more than 100
    rows found, all of them are listed. *)
Theorem articles_listing (options : articleOptions) (d : db) :
  let rows := map fst (getArticles ilike options d) in
  let found := filter (whereClause ilike options) (articles d) in
  (forall a, In a rows -> In a (articles d)
                          /\ whereClause ilike options a = true) /\
  newestFirst rows /\
  (forall a feed, In (a, feed) (getArticles ilike options d) ->
                  feed = getFeed d (a_feedId a)) /\
  (o_limit options = None \/ o_limit options = Some 0 ->
   length rows <= 100) /\
  (forall n, o_limit options = Some (S n) -> length rows <= S n) /\
  (o_offset options = None -> o_limit options = None ->
   length found <= 100 -> Permutation rows found).
Proof.
  intros rows found. subst rows. unfold getArticles. cbv zeta.
  rewrite map_map. cbn [fst]. rewrite map_id. fold found.
  set (leb := fun a b : Article =>
                desc_nulls_first (a_publishedAt a) (a_publishedAt b)).
  set (limit := match o_limit options with Some (S n) => S n | _ => 100 end).
  set (offset := match o_offset options with Some n => n | None => 0 end).
  assert (Hs : StronglySorted (fun a b => leb a b = true)
                              (order_by leb found)).
  { apply order_by_sorted; unfold leb, desc_nulls_first.
    - intros a b.
      destruct (a_publishedAt a) as [x|], (a_publishedAt b) as [y|]; auto.
      destruct (Z.leb_spec y x); [now left|right]. apply Z.leb_le. lia.
    - intros a b c.
      destruct (a_publishedAt a) as [x|], (a_publishedAt b) as [y|],
               (a_publishedAt c) as [z|]; auto; try discriminate.
      intros H1 H2. apply Z.leb_le in H1, H2. apply Z.leb_le. lia. }
  split; [|split; [|split; [|split; [|split]]]].
  - intros a Ha. apply In_firstn, In_skipn in Ha.
    apply (Permutation_in _ (order_by_perm _ leb found)) in Ha.
    unfold found in Ha. apply filter_In in Ha. exact Ha.
  - unfold newestFirst.
    apply StronglySorted_firstn, StronglySorted_skipn.
    clear -Hs. induction Hs as [|a l S IH F]; constructor; [exact IH|].
    eapply Forall_impl; [|exact F]. intros b Hb.
    unfold leb, desc_nulls_first in Hb. unfold notOlder.
    destruct (a_publishedAt a) as [x|], (a_publishedAt b) as [y|];
      try exact I; [now apply Z.leb_le | discriminate].
  - intros a feed Hin. apply in_map_iff in Hin.
    destruct Hin as (a' & E & _). now inversion E.
  - intros H. rewrite length_firstn.
    assert (limit = 100) by (unfold limit; destruct H as [-> | ->];
                             reflexivity).
    lia.
  - intros n H. rewrite length_firstn.
    assert (limit = S n) by (unfold limit; now rewrite H).
    lia.
  - intros Ho Hl Hlen. unfold offset, limit. rewrite Ho, Hl.
    cbn [skipn].
    rewrite firstn_all2
      by (rewrite (Permutation_length (order_by_perm _ leb found)); exact Hlen).
    apply order_by_perm.
Qed.

End ListingFacts.

(** *** Read marks and counts *)

Lemma filter_map_length (A : Type) (g : A -> A) (p : A -> bool)
      (l : list A) :
  (forall a, p (g a) = p a) ->
  length (filter p (map g l)) = length (filter p l).
Proof.
  intros H. induction l as [|a l IH]; [reflexivity|].
  cbn [map filter]. rewrite H. destruct (p a); cbn [length]; lia.
Qed.

Lemma filter_none (A : Type) (p : A -> bool) (l : list A) :
  (forall a, In a l -> p a = false) -> filter p l = [].
Proof.
  induction l as [|a l IH]; intros H; [reflexivity|].
  cbn [filter]. rewrite (H a) by now left.
  apply IH. intros b Hb. apply H. now right.
Qed.

(** X15: markAllArticlesRead keeps the feeds, the rows and their
    bookmarks.  Without a feed every article is read afterwards and the
    unread total is 0.  With a feed its articles are read, the unread total
    drops by the number of its unread articles, and the articles of the
    other feeds are as they were. *)
Theorem mark_all_read (d : db) (feedId : option id) :
  let d' := markAllArticlesRead d feedId in
  feeds d' = feeds d /\
  map a_id (articles d') = map a_id (articles d) /\
  bookmarked (getArticleStats d') = bookmarked (getArticleStats d) /\
  match feedId with
  | None =>
      unread (getArticleStats d') = 0 /\
      Forall (fun a => a_isRead a = Some true) (articles d')
  | Some i =>
      unreadIn d' i = [] /\
      unread (getArticleStats d') + length (unreadIn d i)
      = unread (getArticleStats d) /\
      (forall j, j <> i -> unreadIn d' j = unreadIn d j) /\
      filter (fun a => negb (Nat.eqb (a_feedId a) i)) (articles d')
      = filter (fun a => negb (Nat.eqb (a_feedId a) i)) (articles d)
  end.
Proof.
  intros d'. subst d'. unfold markAllArticlesRead, getArticleStats, unreadIn.
  cbv zeta. cbn [feeds articles unread bookmarked].
  split; [reflexivity|]. split.
  { rewrite map_map. apply map_ext. intros a.
    destruct feedId as [i|]; [destruct (Nat.eqb (a_feedId a) i)|];
      reflexivity. }
  split.
  { apply filter_map_length. intros a.
    destruct feedId as [i|]; [destruct (Nat.eqb (a_feedId a) i)|];
      reflexivity. }
  destruct feedId as [i|].
  - split; [|split; [|split]].
    + apply filter_none. intros a Ha. apply in_map_iff in Ha.
      destruct Ha as (b & <- & _).
      destruct (Nat.eqb (a_feedId b) i) eqn:E; cbn [patchArticle a_feedId
        a_isRead ap_isRead]; rewrite E; [reflexivity|].
      reflexivity.
    + induction (articles d) as [|a l IH]; [reflexivity|].
      cbn [map filter].
      destruct (Nat.eqb (a_feedId a) i) eqn:E;
        cbn [patchArticle a_isRead ap_isRead is_false andb];
        destruct (a_isRead a) as [[|]|]; cbn [is_false andb length]; lia.
    + intros j Hj. induction (articles d) as [|a l IH]; [reflexivity|].
      cbn [map filter].
      destruct (Nat.eqb (a_feedId a) i) eqn:E.
      * apply Nat.eqb_eq in E.
        cbn [patchArticle a_feedId a_isRead ap_isRead].
        rewrite (proj2 (Nat.eqb_neq (a_feedId a) j)) by congruence.
        cbn [andb]. exact IH.
      * destruct (Nat.eqb (a_feedId a) j && is_false (a_isRead a));
          [f_equal|]; exact IH.
    + induction (articles d) as [|a l IH]; [reflexivity|].
      cbn [map filter].
      destruct (Nat.eqb (a_feedId a) i) eqn:E;
        cbn [patchArticle a_feedId]; rewrite E; cbn [negb];
        [|f_equal]; exact IH.
  - split.
    + rewrite filter_none; [reflexivity|].
      intros a Ha. apply in_map_iff in Ha. destruct Ha as (b & <- & _).
      reflexivity.
    + apply Forall_forall. intros a Ha. apply in_map_iff in Ha.
      destruct Ha as (b & <- & _). reflexivity.
Qed.

(** *** The unread counts of the feeds *)

Lemma unreadOf_countInto (k i : id) (m : list (id * nat)) :
  unreadOf (countInto k m) i
  = if Nat.eqb k i then S (unreadOf m i) else unreadOf m i.
Proof.
  unfold unreadOf. induction m as [|[k' n] m IH]; cbn [countInto find fst].
  - destruct (Nat.eqb k i); reflexivity.
  - destruct (Nat.eqb_spec k k') as [->|Hk]; cbn [find fst].
    + destruct (Nat.eqb k' i); reflexivity.
    + destruct (Nat.eqb_spec k' i) as [->|Hi].
      * rewrite (proj2 (Nat.eqb_neq k i)) by exact Hk. reflexivity.
      * exact IH.
Qed.

Lemma unreadOf_fold (i : id) (l : list Article) :
  forall m,
    unreadOf (fold_left (fun m a => countInto (a_feedId a) m) l m) i
    = unreadOf m i
      + length (filter (fun a => Nat.eqb (a_feedId a) i) l).
Proof.
  induction l as [|a l IH]; intros m; cbn [fold_left filter];
    [cbn [length]; lia|].
  rewrite IH, unreadOf_countInto.
  destruct (Nat.eqb (a_feedId a) i); cbn [length]; lia.
Qed.

Lemma unreadOf_counts (d : db) (i : id) :
  unreadOf (unreadCounts d) i = length (unreadIn d i).
Proof.
  unfold unreadCounts, unreadIn. rewrite unreadOf_fold.
  change (unreadOf [] i) with 0. cbn [Nat.add].
  induction (articles d) as [|a l IH]; [reflexivity|].
  cbn [filter].
  destruct (a_isRead a) as [[|]|]; cbn [is_false filter];
    destruct (Nat.eqb (a_feedId a) i); cbn [andb length]; lia.
Qed.

Lemma list_sum_cons (x : nat) (l : list nat) :
  list_sum (x :: l) = x + list_sum l.
Proof. reflexivity. Qed.

Lemma count_owner (fs : list Feed) (k : id) :
  NoDup (map f_id fs) -> In k (map f_id fs) ->
  list_sum (map (fun f => if Nat.eqb k (f_id f) then 1 else 0) fs) = 1.
Proof.
  induction fs as [|f fs IH]; cbn [map]; intros N Hin;
    [destruct Hin|].
  rewrite list_sum_cons.
  inversion N as [|? ? Hn N']; subst.
  destruct (Nat.eqb_spec k (f_id f)) as [->|Hk].
  - assert (Z : list_sum (map (fun g => if Nat.eqb (f_id f) (f_id g)
                                        then 1 else 0) fs) = 0).
    { clear -Hn. induction fs as [|g fs IH]; [reflexivity|].
      cbn [map]. rewrite list_sum_cons.
      destruct (Nat.eqb_spec (f_id f) (f_id g)) as [E|_].
      - exfalso. apply Hn. left. now symmetry.
      - apply IH. intros H. apply Hn. now right. }
    rewrite Z. reflexivity.
  - destruct Hin as [E|Hin]; [congruence|]. now rewrite IH.
Qed.

Lemma sum_unread (fs : list Feed) (l : list Article) :
  NoDup (map f_id fs) ->
  Forall (fun a => In (a_feedId a) (map f_id fs)) l ->
  list_sum (map (fun f =>
                   length (filter (fun a => Nat.eqb (a_feedId a) (f_id f)
                                            && is_false (a_isRead a)) l)) fs)
  = length (filter (fun a => is_false (a_isRead a)) l).
Proof.
  intros N. induction 1 as [|a l Ha _ IH].
  - cbn [filter length]. induction fs; [reflexivity|].
    cbn [map]. rewrite list_sum_cons. inversion N; subst. auto.
  - cbn [filter]. destruct (is_false (a_isRead a)) eqn:R.
    2:{ rewrite <- IH. f_equal. apply map_ext. intros f.
        now rewrite andb_false_r. }
    + transitivity
        (list_sum (map (fun f =>
                          length (filter (fun a => Nat.eqb (a_feedId a) (f_id f)
                                                   && is_false (a_isRead a)) l))
                       fs)
         + list_sum (map (fun f => if Nat.eqb (a_feedId a) (f_id f)
                                   then 1 else 0) fs)).
      * clear -R. induction fs as [|f fs IH]; [reflexivity|].
        cbn [map]. rewrite !list_sum_cons, IH, andb_true_r.
        destruct (Nat.eqb (a_feedId a) (f_id f)); cbn [length]; lia.
      * rewrite IH, (count_owner fs (a_feedId a) N Ha). cbn [length]. lia.
Qed.

Lemma list_sum_perm (l l' : list nat) :
  Permutation l l' -> list_sum l = list_sum l'.
Proof.
  induction 1; rewrite ?list_sum_cons; lia.
Qed.

(** X16: the unread count that getFeeds attaches to a feed is the number
    of its unread articles; and when every article belongs to a feed of the
    store and the feed identities are distinct, the counts of the feed list
    add up to the unread total of getArticleStats. *)
Theorem feed_unread_counts (collate : str -> str -> bool) (d : db) :
  map fw_feed (getFeedsWithCategory collate d) = getFeeds collate d /\
  (forall row, In row (getFeedsWithCategory collate d) ->
               fw_unreadCount row
               = length (unreadIn d (f_id (fw_feed row)))) /\
  (articlesOwned d ->
   list_sum (map fw_unreadCount (getFeedsWithCategory collate d))
   = unread (getArticleStats d)).
Proof.
  unfold getFeedsWithCategory. cbv zeta. split; [|split].
  - rewrite map_map. cbn [fw_feed]. apply map_id.
  - intros row Hin. apply in_map_iff in Hin.
    destruct Hin as (f & <- & _). cbn [fw_unreadCount fw_feed].
    apply unreadOf_counts.
  - intros [N O]. rewrite map_map. cbn [fw_unreadCount].
    erewrite map_ext by (intros f; apply unreadOf_counts).
    unfold unreadIn, getArticleStats. cbn [unread].
    rewrite <- (sum_unread (feeds d) (articles d) N O).
    apply list_sum_perm. apply Permutation_map.
    unfold getFeeds. apply order_by_perm.
Qed.

(** *** updateArticle *)

Lemma find_unique_id (l : list Article) (i : id) (a : Article) :
  NoDup (map a_id l) -> In a l -> a_id a = i ->
  find (fun b => Nat.eqb (a_id b) i) l = Some a.
Proof.
  induction l as [|b l IH]; cbn [map find]; intros N Hin E; [destruct Hin|].
  inversion N as [|? ? Hn N']; subst.
  destruct Hin as [->|Hin]; [now rewrite Nat.eqb_refl|].
  destruct (Nat.eqb_spec (a_id b) (a_id a)) as [Eb|_]; [|now apply IH].
  exfalso. apply Hn. rewrite Eb. now apply in_map.
Qed.

Section UpdateFacts.
Variable p : ArticlePatch.
Variable i : id.

Local Abbreviation upd :=
  (fun a => if Nat.eqb (a_id a) i then patchArticle p a else a).

Lemma upd_find (l : list Article) :
  find (fun a => Nat.eqb (a_id a) i) (map upd l)
  = option_map (patchArticle p) (find (fun a => Nat.eqb (a_id a) i) l).
Proof.
  induction l as [|b l IH]; [reflexivity|]. cbn [map find].
  destruct (Nat.eqb (a_id b) i) eqn:E.
  - cbn [patchArticle a_id]. now rewrite E.
  - now rewrite E.
Qed.

Lemma upd_find_other (j : id) (l : list Article) :
  j <> i ->
  find (fun a => Nat.eqb (a_id a) j) (map upd l)
  = find (fun a => Nat.eqb (a_id a) j) l.
Proof.
  intros Hj. induction l as [|b l IH]; [reflexivity|]. cbn [map find].
  destruct (Nat.eqb_spec (a_id b) i) as [E|E].
  - cbn [patchArticle a_id].
    rewrite (proj2 (Nat.eqb_neq (a_id b) j)) by congruence. exact IH.
  - destruct (Nat.eqb (a_id b) j); [reflexivity | exact IH].
Qed.

Lemma upd_absent (l : list Article) :
  ~ In i (map a_id l) -> map upd l = l.
Proof.
  intros H. rewrite <- (map_id l) at 2. apply map_ext_in. intros b Hb.
  destruct (Nat.eqb_spec (a_id b) i) as [E|_]; [|reflexivity].
  exfalso. apply H. rewrite <- E. now apply in_map.
Qed.

Lemma upd_unread (l : list Article) (a : Article) :
  NoDup (map a_id l) ->
  find (fun a => Nat.eqb (a_id a) i) l = Some a ->
  length (filter (fun a => is_false (a_isRead a)) (map upd l))
  + (if is_false (a_isRead a) then 1 else 0)
  = length (filter (fun a => is_false (a_isRead a)) l)
    + (if is_false (a_isRead (patchArticle p a)) then 1 else 0).
Proof.
  induction l as [|b l IH]; cbn [map find filter]; intros N F;
    [discriminate|].
  inversion N as [|? ? Hn N']; subst.
  destruct (Nat.eqb_spec (a_id b) i) as [E|E].
  - inversion F; subst b. rewrite upd_absent by (rewrite <- E; exact Hn).
    destruct (is_false (a_isRead a)),
             (is_false (a_isRead (patchArticle p a)));
      cbn [length]; lia.
  - specialize (IH N' F).
    destruct (is_false (a_isRead b)); cbn [length]; lia.
Qed.

End UpdateFacts.

(** X17: updateArticle with a patch that sets a field, the article
    identities being distinct.  An unknown id returns undefined and changes
    no article.  A known one returns the row with the fields of the patch,
    which getArticle returns from then on, every other article being as
    before; marking an unread article read lowers the unread total by
    exactly 1, and a patch without isRead leaves the total alone. *)
Theorem update_article (d : db) (i : id) (p : ArticlePatch) :
  ap_isRead p <> None \/ ap_isBookmarked p <> None ->
  uniqueArticleIds d ->
  let d' := fst (updateArticle d i p) in
  feeds d' = feeds d /\
  (forall j, j <> i -> getArticle d' j = getArticle d j) /\
  match getArticle d i with
  | None => snd (updateArticle d i p) = None /\ articles d' = articles d
  | Some (a, feed) =>
      snd (updateArticle d i p) = Some (patchArticle p a) /\
      getArticle d' i = Some (patchArticle p a, feed) /\
      (ap_isRead p = Some true -> a_isRead a = Some false ->
       unread (getArticleStats d') + 1 = unread (getArticleStats d)) /\
      (ap_isRead p = None ->
       unread (getArticleStats d') = unread (getArticleStats d))
  end.
Proof.
  intros _ U d'. subst d'. unfold uniqueArticleIds in U.
  set (d' := fst (updateArticle d i p)).
  assert (Hf : feeds d' = feeds d) by reflexivity.
  assert (Hg : forall j, getFeed d' j = getFeed d j)
    by (intros j; now apply getFeed_feeds).
  split; [exact Hf|]. split.
  { intros j Hj. unfold getArticle. cbn [d' updateArticle fst articles].
    rewrite (upd_find_other p i j _ Hj).
    destruct (find _ (articles d)); [now rewrite Hg | reflexivity]. }
  unfold getArticle at 1.
  destruct (find (fun a => Nat.eqb (a_id a) i) (articles d)) as [a|] eqn:F.
  - split; [cbn [updateArticle snd]; now rewrite F|].
    split.
    + unfold getArticle. cbn [d' updateArticle fst articles].
      rewrite upd_find, F. cbn [option_map patchArticle a_feedId].
      now rewrite Hg.
    + pose proof (upd_unread p i (articles d) a U F) as Hu.
      unfold getArticleStats. cbn [unread d' updateArticle fst articles].
      split.
      * intros Hp Hr. cbn [patchArticle a_isRead] in Hu.
        rewrite Hp, Hr in Hu. cbn [is_false] in Hu. lia.
      * intros Hp. cbn [patchArticle a_isRead] in Hu. rewrite Hp in Hu.
        destruct (is_false (a_isRead a)); lia.
  - split; [cbn [updateArticle snd]; now rewrite F|].
    cbn [d' updateArticle fst articles]. apply upd_absent.
    intros Hin. apply in_map_iff in Hin. destruct Hin as (b & E & Hb).
    eapply find_none in F; [|exact Hb]. cbv beta in F.
    rewrite E, Nat.eqb_refl in F. discriminate.
Qed.

(** an instance of X17: the first of two unread articles is marked read *)
Lemma update_article_witness :
  let p := {| ap_isRead := Some true; ap_isBookmarked := None |} in
  uniqueArticleIds synced /\
  unread (getArticleStats synced) = 2 /\
  unread (getArticleStats (fst (updateArticle synced 1 p))) + 1 = 2.
Proof.
  assert (U : uniqueArticleIds synced).
  { unfold uniqueArticleIds. vm_compute.
    repeat constructor; cbn; intuition discriminate. }
  split; [exact U|]. split; [reflexivity|].
  assert (P : ap_isRead {| ap_isRead := Some true; ap_isBookmarked := None |}
              <> None \/
              ap_isBookmarked {| ap_isRead := Some true;
                                 ap_isBookmarked := None |} <> None)
    by (left; discriminate).
  pose proof (update_article synced 1
                {| ap_isRead := Some true; ap_isBookmarked := None |} P U)
    as H.
  cbv zeta in H. destruct H as (_ & _ & H).
  destruct (getArticle synced 1) as [[a feed]|] eqn:G;
    [|vm_compute in G; discriminate G].
  destruct H as (_ & _ & H & _).
  assert (Ha : a_isRead a = Some false)
    by (vm_compute in G; inversion G; reflexivity).
  exact (H eq_refl Ha).
Defined.

(** ** mapConcurrency: the order of the results *)

Section OrderFacts.
Variables T R : Type.
Variable fn : T -> option R.
Variable limit : Z.

(** X18: mapConcurrency pushes the results as the operations complete, not
    in the order of the items: with a limit of 2 or more (the refresh uses
    5) and two items, the run in which the second operation completes first
    resolves with the second result before the first. *)
Theorem results_follow_completion (x y : T) (a b : R) :
  fn x = Some a -> fn y = Some b -> (2 <= limit)%Z ->
  exists st,
    reachable fn limit [x; y] st /\ pc st = Resolved [b; a] /\
    calls st = [x; y].
Proof.
  intros Hx Hy Hl.
  destruct (Z.ltb_spec 2 limit) as [Hgt|Hle].
  - (* both admitted, then Promise.all *)
    eexists. split.
    + exists [Start 0; Start 1; Finish 1; Push 1; Finish 0; Push 0;
              Splice 1; Splice 0; Resume].
      assert (E1 : (1 >=? limit)%Z = false)
        by (rewrite Z.geb_leb; apply Z.leb_gt; lia).
      assert (E2 : (2 >=? limit)%Z = false)
        by (rewrite Z.geb_leb; apply Z.leb_gt; lia).
      unfold mapConcurrency.
      cbn [loop length app Z.of_nat Pos.of_succ_nat Pos.succ].
      rewrite E1.
      cbn [loop length app Z.of_nat Pos.of_succ_nat Pos.succ].
      rewrite E2.
      cbn. rewrite Hy. cbn. rewrite Hx. cbn. reflexivity.
    + split; reflexivity.
  - assert (limit = 2%Z) by lia. subst limit.
    eexists. split.
    + exists [Start 0; Start 1; Finish 1; Push 1; Finish 0; Push 0;
              Splice 1; Resume; Splice 0; Resume].
      cbn. rewrite Hy. cbn. rewrite Hx. cbn. reflexivity.
    + split; reflexivity.
Qed.

End OrderFacts.

(** an instance of X18 at the limit of the refresh *)
Lemma results_follow_completion_witness :
  tenfold 1 = Some 10 /\ tenfold 2 = Some 20 /\
  exists st, reachable tenfold 5 [1; 2] st /\ pc st = Resolved [20; 10].
Proof.
  split; [reflexivity|]. split; [reflexivity|].
  destruct (results_follow_completion nat nat tenfold 5 1 2 10 20
              eq_refl eq_refl) as (st & H1 & H2 & _); [lia|].
  exists st. split; assumption.
Defined.

(** ** The refresh, its callbacks interleaved *)

Import Refresh.

Section RefreshFacts.
Variable parseDate : str -> time.
Variable refuses : InsertArticle -> option str.
Variable parseFeed : str -> option parsedFeed.
Variable clock : id -> nat -> time.
Variable now : id -> time.
Variable collate : str -> str -> bool.

Local Abbreviation advance :=
  (Refresh.advance parseDate refuses parseFeed clock now).
Local Abbreviation step :=
  (Refresh.step parseDate refuses parseFeed clock now).
Local Abbreviation run :=
  (Refresh.run parseDate refuses parseFeed clock now).
Local Abbreviation alone :=
  (Refresh.alone parseDate refuses parseFeed clock now).
Local Abbreviation cbs := (list (Feed * phase)).

Lemma set_phase_fst (cs : cbs) (j : nat) (ph : phase) :
  map fst (set_phase cs j ph) = map fst cs.
Proof.
  revert j; induction cs as [|[f p] cs IH]; intros [|j]; cbn [set_phase map];
    try reflexivity.
  now rewrite IH.
Qed.

Lemma set_phase_ids (cs : cbs) (j : nat) (ph : phase) :
  feedIds (set_phase cs j ph) = feedIds cs.
Proof.
  unfold feedIds. rewrite <- !(map_map fst f_id). now rewrite set_phase_fst.
Qed.

Lemma nth_set_phase_same (cs : cbs) (j : nat) (f : Feed) (p ph : phase) :
  nth_error cs j = Some (f, p) ->
  nth_error (set_phase cs j ph) j = Some (f, ph).
Proof.
  revert j; induction cs as [|[g q] cs IH]; intros [|j]; cbn; try discriminate.
  - intros H; inversion H; reflexivity.
  - apply IH.
Qed.

Lemma nth_set_phase_other (cs : cbs) (i j : nat) (ph : phase) :
  i <> j -> nth_error (set_phase cs i ph) j = nth_error cs j.
Proof.
  revert i j; induction cs as [|[g q] cs IH]; intros [|i] [|j] H; cbn;
    try reflexivity; try lia.
  apply IH. lia.
Qed.

Lemma nth_ids (cs : cbs) (j : nat) (f : Feed) (p : phase) :
  nth_error cs j = Some (f, p) -> nth_error (feedIds cs) j = Some (f_id f).
Proof.
  intros H. unfold feedIds. now rewrite nth_error_map, H.
Qed.

Lemma ids_distinct (cs : cbs) (i j : nat) (f g : Feed) (p q : phase) :
  NoDup (feedIds cs) -> i <> j ->
  nth_error cs i = Some (f, p) -> nth_error cs j = Some (g, q) ->
  f_id f <> f_id g.
Proof.
  intros N Hij Hi Hj E. apply nth_ids in Hi, Hj. rewrite E in Hi.
  apply Hij. eapply NoDup_nth_error; eauto.
  - apply nth_error_Some. congruence.
  - congruence.
Qed.

(** the lookup by guid sees the articles of the feed only *)
Lemma getArticleByGuid_view (d : db) (f : id) (g : str) :
  getArticleByGuid d f g = None
  <-> ~ In g (map ia_guid (articlesOf d f)).
Proof.
  unfold getArticleByGuid, articlesOf. split.
  - intros H Hin. apply in_map_iff in Hin. destruct Hin as (x & <- & Hin).
    apply in_map_iff in Hin. destruct Hin as (a & <- & Hin).
    apply filter_In in Hin. destruct Hin as [Hin Hf].
    eapply find_none in H; [|exact Hin]. cbv beta in H.
    cbn [insertOf ia_guid] in H. rewrite Hf, str_eqb_refl in H.
    discriminate.
  - intros H. destruct (find _ (articles d)) as [a|] eqn:E; [|reflexivity].
    exfalso. apply find_some in E. destruct E as [Hin E].
    apply andb_prop in E. destruct E as [E1 E2]. apply str_eqb_eq in E2.
    apply H. apply in_map_iff. exists (insertOf a).
    split; [exact E2|]. apply in_map. apply filter_In. split; assumption.
Qed.

Lemma insertOf_row (n : id) (a : InsertArticle) : insertOf (row_of n a) = a.
Proof. destruct a; reflexivity. Qed.

Lemma articlesOf_updateFeed (d : db) (i f : id) (p : FeedPatch) :
  articlesOf (setFeed d i p) f = articlesOf d f.
Proof. reflexivity. Qed.

(** a step of the callback of another feed leaves the articles and the
    row of a feed alone *)
Lemma advance_frame (feed : Feed) (ph ph' : phase) (d d' : db)
      (t t' : nat) (f : id) :
  advance feed ph d t = Some (ph', d', t') ->
  f_id feed <> f ->
  articlesOf d' f = articlesOf d f /\ getFeed d' f = getFeed d f.
Proof.
  assert (U : forall p d1,
             updateFeed d (f_id feed) p = inr d1 -> f_id feed <> f ->
             articlesOf d1 f = articlesOf d f /\ getFeed d1 f = getFeed d f).
  { intros p d1 E Hne.
    destruct (updateFeed_cases d (f_id feed) p) as [[v Ev]|Ev];
      rewrite Ev in E; inversion E; subst.
    split; [reflexivity|]. apply getFeed_updateFeed_other. congruence. }
  intros H Hne. destruct ph as [|k it rest|k it rest| | | | |e];
    cbn [Refresh.advance] in H.
  - destruct (parseFeed _); inversion H; subst; auto.
  - destruct (getArticleByGuid _ _ _); inversion H; subst; auto.
  - rewrite createArticle_thrownBy in H. destruct (thrownBy _ _ _);
      inversion H; subst; auto.
    split; [|reflexivity]. unfold articlesOf, appendArticle. cbn [articles].
    rewrite filter_app. cbn [filter row_of a_feedId articleOf ia_feedId].
    rewrite (proj2 (Nat.eqb_neq _ _) Hne). now rewrite app_nil_r.
  - destruct (updateFeed d _ _) as [v|d1] eqn:E; inversion H; subst; eauto.
  - destruct (updateFeed d _ _) as [v|d1] eqn:E; inversion H; subst; eauto.
  - destruct (updateFeed d _ _) as [v|d1] eqn:E; inversion H; subst; eauto.
  - discriminate.
  - discriminate.
Qed.

(** a step of a callback depends on the articles and the row of its feed
    only, and so does what it leaves of them *)
Lemma advance_view (feed : Feed) (ph : phase) (d1 d2 : db) (t1 t2 : nat) :
  articlesOf d1 (f_id feed) = articlesOf d2 (f_id feed) ->
  getFeed d1 (f_id feed) = getFeed d2 (f_id feed) ->
  match advance feed ph d1 t1, advance feed ph d2 t2 with
  | Some (p1, e1, u1), Some (p2, e2, u2) =>
      p1 = p2 /\
      articlesOf e1 (f_id feed) = articlesOf e2 (f_id feed) /\
      getFeed e1 (f_id feed) = getFeed e2 (f_id feed) /\
      u1 + t2 = u2 + t1
  | None, None => True
  | _, _ => False
  end.
Proof.
  intros Hv Hg.
  assert (U : forall (p : FeedPatch) (ok : phase)
                    (bad : violation -> phase),
             match
               match updateFeed d1 (f_id feed) p with
               | inr d' => Some (ok, d', t1)
               | inl v => Some (bad v, d1, t1)
               end,
               match updateFeed d2 (f_id feed) p with
               | inr d' => Some (ok, d', t2)
               | inl v => Some (bad v, d2, t2)
               end
             with
             | Some (p1, e1, u1), Some (p2, e2, u2) =>
                 p1 = p2 /\
                 articlesOf e1 (f_id feed) = articlesOf e2 (f_id feed) /\
                 getFeed e1 (f_id feed) = getFeed e2 (f_id feed) /\
                 u1 + t2 = u2 + t1
             | None, None => True
             | _, _ => False
             end).
  { intros p ok bad. unfold updateFeed.
    destruct (p_errorCount p) as [n|]; [destruct (int4 n)|];
      (split; [reflexivity|]); (split; [exact Hv|]);
      (split; [|lia]); rewrite ?getFeed_updateFeed_same, ?Hg; reflexivity. }
  destruct ph as [|k it rest|k it rest| | | | |e];
    cbn [Refresh.advance].
  - destruct (parseFeed _); repeat split; auto; lia.
  - destruct (getArticleByGuid d1 _ _) eqn:G1;
      destruct (getArticleByGuid d2 _ _) eqn:G2;
      try (repeat split; auto; lia); exfalso.
    + apply getArticleByGuid_view in G2. rewrite <- Hv in G2.
      apply getArticleByGuid_view in G2. congruence.
    + apply getArticleByGuid_view in G1. rewrite Hv in G1.
      apply getArticleByGuid_view in G1. congruence.
  - rewrite !createArticle_thrownBy, !thrownBy_eq.
    cbn [articleOf ia_feedId]. rewrite Hg.
    destruct (refuses _); [repeat split; auto; lia|].
    destruct (getFeed d2 (f_id feed)) eqn:G2;
      [|repeat split; auto; try lia; congruence].
    split; [reflexivity|]. split; [|split; [|lia]].
    2:{ change (getFeed d1 (f_id feed) = getFeed d2 (f_id feed)).
        congruence. }
    unfold articlesOf, appendArticle in *. cbn [articles].
    rewrite !filter_app, !map_app.
    rewrite Hv. f_equal.
    cbn [filter row_of a_feedId articleOf ia_feedId].
    rewrite Nat.eqb_refl. cbn [map].
    fold (articleOf parseDate (f_id feed) (clock (f_id feed) k) it).
    now rewrite !insertOf_row.
  - apply (U _ Done (fun _ => Counting)).
  - apply (U _ Done (fun _ => Counting)).
  - apply (U _ Done (fun v => Threw (Violation v))).
  - exact I.
  - exact I.
Qed.


Lemma find_app_none (A : Type) (p : A -> bool) (l l' : list A) :
  find p l = None -> find p (l ++ l') = find p l'.
Proof.
  induction l as [|x l IH]; cbn [app find]; [reflexivity|].
  destruct (p x); [discriminate | exact IH].
Qed.

Lemma filter_NoDup_map (A B : Type) (key : A -> B) (keep : A -> bool) :
  forall rows : list A,
    NoDup (map key rows) -> NoDup (map key (filter keep rows)).
Proof.
  intros rows. induction rows as [|x rows IH]; cbn [map filter]; intros N.
  - constructor.
  - inversion N as [|? ? Hn N']; subst.
    destruct (keep x); cbn [map]; [|now apply IH].
    constructor; [|now apply IH].
    intros Hin. apply Hn. apply in_map_iff in Hin.
    destruct Hin as (y & E & Hy). apply filter_In in Hy.
    apply in_map_iff. exists y. tauto.
Qed.

(** the callbacks of a refresh are those of the active feeds, each once *)
Lemma begin_callbacks (d : db) :
  uniqueFeedIds d ->
  NoDup (feedIds (callbacks (begin collate d))) /\
  (forall c, In c (callbacks (begin collate d)) ->
             In (fst c) (feeds d) /\ is_true (f_isActive (fst c)) = true
             /\ snd c = Parsing) /\
  (forall feed, In feed (feeds d) -> is_true (f_isActive feed) = true ->
                In (feed, Parsing) (callbacks (begin collate d))).
Proof.
  intros U. unfold begin, feedIds. cbn [callbacks].
  assert (P : Permutation (getFeeds collate d) (feeds d)) by apply order_by_perm.
  split; [|split].
  - rewrite map_map. cbn [fst]. apply filter_NoDup_map.
    eapply Permutation_NoDup; [|exact U].
    apply Permutation_map. now symmetry.
  - intros c Hc. apply in_map_iff in Hc. destruct Hc as (f & <- & Hf).
    apply filter_In in Hf. destruct Hf as [Hf Ha]. cbn [fst snd].
    split; [|tauto]. eapply Permutation_in; eauto.
  - intros feed Hin Ha. apply in_map_iff. exists feed.
    split; [reflexivity|]. apply filter_In. split; [|exact Ha].
    eapply Permutation_in; [symmetry|]; eauto.
Qed.

Lemma getFeed_unique (d : db) (feed : Feed) :
  uniqueFeedIds d -> In feed (feeds d) -> getFeed d (f_id feed) = Some feed.
Proof.
  unfold uniqueFeedIds, getFeed.
  induction (feeds d) as [|g l IH]; cbn [map find]; intros N Hin;
    [destruct Hin|].
  inversion N as [|? ? Hn N']; subst.
  destruct Hin as [->|Hin]; [now rewrite Nat.eqb_refl|].
  destruct (Nat.eqb_spec (f_id g) (f_id feed)) as [E|_]; [|now apply IH].
  exfalso. apply Hn. rewrite E. now apply in_map.
Qed.

Lemma feedIds_eq (cs : cbs) :
  feedIds cs = map (fun c => f_id (fst c)) cs.
Proof. reflexivity. Qed.

(** one step keeps the invariant *)
Lemma step_refreshInv (d0 : db) (j : nat) (st st' : state) :
  step j st = Some st' -> refreshInv d0 st -> refreshInv d0 st'.
Proof.
  unfold Refresh.step.
  destruct (nth_error (callbacks st) j) as [[feed ph]|] eqn:Hj;
    [|discriminate].
  destruct (advance feed ph (store st) (totalNewArticles st))
    as [[[ph' d'] t']|] eqn:A; [|discriminate].
  intros H; inversion H; subst st'; clear H.
  intros (N & U & C & (new & Ha & Ht & Hn) & F & K).
  unfold refreshInv. cbn [store callbacks totalNewArticles].
  rewrite <- !feedIds_eq in *. rewrite set_phase_ids.
  assert (Hid : In (f_id feed) (feedIds (callbacks st))).
  { apply nth_ids in Hj. eapply nth_error_In; eauto. }
  (* what stays of the callbacks that are creating *)
  assert (Cother : forall d2,
             (forall i g k it rest,
                 nth_error (callbacks st) i = Some (g, Creating k it rest) ->
                 i <> j ->
                 getArticleByGuid d2 (f_id g) (guidOf it) = None) ->
             (forall k it rest, ph' = Creating k it rest ->
                 getArticleByGuid d2 (f_id feed) (guidOf it) = None) ->
             forall i g k it rest,
               nth_error (set_phase (callbacks st) j ph') i
               = Some (g, Creating k it rest) ->
               getArticleByGuid d2 (f_id g) (guidOf it) = None).
  { intros d2 H1 H2 i g k it rest Hi.
    destruct (Nat.eq_dec i j) as [->|Hne].
    - rewrite (nth_set_phase_same _ _ _ _ _ Hj) in Hi.
      inversion Hi; subst. eapply H2; eauto.
    - rewrite nth_set_phase_other in Hi by congruence. eapply H1; eauto. }
  (* an update of the row of the feed *)
  assert (Upd : forall (p : FeedPatch) (ok : phase)
                       (bad : violation -> phase),
             (forall k it rest, ok <> Creating k it rest) ->
             (forall v k it rest, bad v <> Creating k it rest) ->
             match updateFeed (store st) (f_id feed) p with
             | inr d2 => Some (ok, d2, totalNewArticles st)
             | inl v => Some (bad v, store st, totalNewArticles st)
             end = Some (ph', d', t') ->
             NoDup (feedIds (callbacks st)) /\
             uniqueGuids d' /\
             (forall i g k it rest,
                 nth_error (set_phase (callbacks st) j ph') i
                 = Some (g, Creating k it rest) ->
                 getArticleByGuid d' (f_id g) (guidOf it) = None) /\
             (exists new0,
                 articles d' = articles d0 ++ new0 /\
                 t' = length new0 /\
                 Forall (fun a => In (a_feedId a) (feedIds (callbacks st)))
                        new0) /\
             (forall i, ~ In i (feedIds (callbacks st)) ->
                        getFeed d' i = getFeed d0 i) /\
             categories d' = categories d0).
  { intros p ok bad Hok Hbad E.
    destruct (updateFeed_cases (store st) (f_id feed) p) as [[v Ev]|Ev];
      rewrite Ev in E; inversion E; subst; clear E;
      (split; [exact N|]); (split; [exact U|]); split.
    - apply Cother; [intros; eapply C; eauto|].
      intros k it rest E. now apply Hbad in E.
    - split; [exists new; auto|]. split; [exact F | exact K].
    - apply Cother; [intros; eapply C; eauto|].
      intros k it rest E. now apply Hok in E.
    - split; [exists new; auto|]. split; [|exact K].
      intros i Hi. rewrite getFeed_updateFeed_other by congruence.
      now apply F. }
  destruct ph as [|k it rest|k it rest| | | | |e];
    cbn [Refresh.advance] in A.
  - (* the feed is parsed *)
    assert (E : d' = store st /\ t' = totalNewArticles st /\
                forall k it rest, ph' <> Creating k it rest).
    { destruct (parseFeed _) as [pf|]; inversion A; subst;
        repeat split; try discriminate.
      intros k it rest. destruct (itemsOf 50 pf); discriminate. }
    destruct E as (-> & -> & Hph).
    split; [exact N|]. split; [exact U|]. split.
    + apply Cother; [intros; eapply C; eauto|].
      intros k it rest E. now apply Hph in E.
    + split; [exists new; auto|]. split; [exact F | exact K].
  - (* the guid is looked up *)
    assert (E : d' = store st /\ t' = totalNewArticles st /\
                forall k' it' rest', ph' = Creating k' it' rest' ->
                  getArticleByGuid (store st) (f_id feed) (guidOf it')
                  = None).
    { destruct (getArticleByGuid _ _ _) eqn:G; inversion A; subst;
        repeat split.
      - intros k' it' rest'. destruct rest; discriminate.
      - intros k' it' rest' E. inversion E; subst. exact G. }
    destruct E as (-> & -> & Hph).
    split; [exact N|]. split; [exact U|]. split.
    + apply Cother; [intros; eapply C; eauto | exact Hph].
    + split; [exists new; auto|]. split; [exact F | exact K].
  - (* the article is created, or refused *)
    pose proof (C j feed k it rest Hj) as G.
    rewrite createArticle_thrownBy in A. unfold appendArticle in A.
    destruct (thrownBy _ _ _) as [msg|]; inversion A; subst; clear A.
    + split; [exact N|]. split; [exact U|]. split.
      * apply Cother; [intros; eapply C; eauto | discriminate].
      * split; [exists new; auto|]. split; [exact F | exact K].
    + split; [exact N|]. split.
      { unfold uniqueGuids in *. cbn [articles]. rewrite map_app.
        cbn [map row_of a_feedId a_guid articleOf ia_feedId ia_guid].
        apply getArticleByGuid_None_notin in G.
        rewrite <- (rev_involutive (map _ (articles (store st)) ++ _)).
        apply NoDup_rev. rewrite rev_app_distr. cbn [rev app].
        constructor; [now rewrite <- in_rev | now apply NoDup_rev]. }
      split.
      { assert (Hnew : forall g x,
                   f_id g <> f_id feed ->
                   getArticleByGuid (store st) (f_id g) x = None ->
                   getArticleByGuid
                     {| feeds := feeds (store st);
                        articles :=
                          articles (store st)
                          ++ [row_of (nextId (store st))
                                (articleOf parseDate (f_id feed)
                                   (clock (f_id feed) k) it)];
                        categories := categories (store st);
                        nextId := S (nextId (store st)) |} (f_id g) x
                   = None).
        { intros g x Hne Hx. unfold getArticleByGuid in *. cbn [articles].
          rewrite (find_app_none _ _ _ _ Hx).
          cbn [find row_of a_feedId articleOf ia_feedId].
          rewrite (proj2 (Nat.eqb_neq _ _)) by congruence. reflexivity. }
        apply Cother.
        - intros i g k' it' rest' Hi Hne. apply Hnew; [|eapply C; eauto].
          eapply ids_distinct; eauto.
        - intros k' it' rest' E. destruct rest; discriminate. }
      split.
      { exists (new ++ [row_of (nextId (store st))
                          (articleOf parseDate (f_id feed)
                             (clock (f_id feed) k) it)]).
        cbn [articles]. rewrite Ha, <- app_assoc.
        split; [reflexivity|]. rewrite length_app. cbn [length].
        split; [lia|]. apply Forall_app. split; [exact Hn|].
        constructor; [exact Hid | constructor]. }
      split; [|exact K].
      intros i Hi. rewrite <- F by exact Hi. reflexivity.
  - match type of A with
    | context [updateFeed _ _ ?p] =>
        exact (Upd p Done (fun _ => Counting)
                   ltac:(discriminate) ltac:(discriminate) A)
    end.
  - match type of A with
    | context [updateFeed _ _ ?p] =>
        exact (Upd p Done (fun _ => Counting)
                   ltac:(discriminate) ltac:(discriminate) A)
    end.
  - match type of A with
    | context [updateFeed _ _ ?p] =>
        exact (Upd p Done (fun v => Threw (Violation v))
                   ltac:(discriminate) ltac:(discriminate) A)
    end.
  - discriminate.
  - discriminate.
Qed.

Lemma begin_refreshInv (d : db) :
  uniqueFeedIds d -> uniqueGuids d -> refreshInv d (begin collate d).
Proof.
  intros Uf Ug. destruct (begin_callbacks d Uf) as (N & Hc & _).
  split; [exact N|]. split; [exact Ug|]. split.
  - intros j feed k it rest Hj. apply nth_error_In in Hj.
    apply Hc in Hj. cbn [snd] in Hj. destruct Hj as (_ & _ & Hj).
    discriminate.
  - split; [|split; reflexivity].
    exists []. rewrite app_nil_r. repeat split. constructor.
Qed.

Lemma run_refreshInv (d0 : db) (schedule : list nat) :
  forall st st', run schedule st = Some st' ->
                 refreshInv d0 st -> refreshInv d0 st'.
Proof.
  induction schedule as [|j sch IH]; intros st st'; cbn [Refresh.run].
  - intros H; inversion H; subst; auto.
  - destruct (step j st) as [st1|] eqn:E; [|discriminate].
    intros H I. eapply IH; eauto. eapply step_refreshInv; eauto.
Qed.


Lemma refresh_step_ids (j : nat) (st st' : state) :
  step j st = Some st' ->
  map fst (callbacks st') = map fst (callbacks st).
Proof.
  unfold Refresh.step.
  destruct (nth_error (callbacks st) j) as [[feed ph]|]; [|discriminate].
  destruct (advance feed ph _ _) as [[[ph' d'] t']|]; [|discriminate].
  intros H; inversion H; subst. cbn [callbacks]. apply set_phase_fst.
Qed.

Lemma refresh_run_ids (schedule : list nat) :
  forall st st', run schedule st = Some st' ->
                 map fst (callbacks st') = map fst (callbacks st).
Proof.
  induction schedule as [|j sch IH]; intros st st'; cbn [Refresh.run].
  - intros H; inversion H; reflexivity.
  - destruct (step j st) as [st1|] eqn:E; [|discriminate].
    intros H. rewrite (IH _ _ H). eapply refresh_step_ids; eauto.
Qed.

Lemma feedIds_fst (cs : cbs) : feedIds cs = map f_id (map fst cs).
Proof. unfold feedIds. now rewrite map_map. Qed.

(** *** Every feed as if synced alone *)

Lemma alone_ended (feed : Feed) (n : nat) (ph : phase) (d : db) (t : nat) :
  ended ph = true -> alone feed n ph d t = (ph, d, t).
Proof. destruct n, ph; try discriminate; reflexivity. Qed.

(** the catch branch, step by step *)
Lemma alone_counting (feed : Feed) (n : nat) (d : db) (t : nat)
      (ph' : phase) (d' : db) (t' : nat) :
  alone feed n Counting d t = (ph', d', t') -> ended ph' = true ->
  (d', t', endOf ph') = catchFeedError feed d t.
Proof.
  destruct n as [|n]; cbn [Refresh.alone Refresh.advance].
  - intros H; inversion H; subst. discriminate.
  - unfold catchFeedError.
    destruct (updateFeed d (f_id feed) (oneMoreError feed)) as [v|d1];
      rewrite alone_ended by reflexivity;
      intros H _; inversion H; reflexivity.
Qed.

Lemma alone_items (feed : Feed) (items : list item) :
  forall n k d created ph' d' t',
    alone feed n (toItems k items) d created = (ph', d', t') ->
    ended ph' = true ->
    (d', t', endOf ph')
    = afterItems now feed (itemLoop parseDate refuses (f_id feed)
                             (clock (f_id feed)) k items d created).
Proof.
  induction items as [|it items IH]; intros n k d created ph' d' t';
    cbn [toItems itemLoop].
  - destruct n as [|n]; cbn [Refresh.alone Refresh.advance];
      [intros H; inversion H; subst; discriminate|].
    unfold afterItems. rewrite updateFeed_zero.
    rewrite alone_ended by reflexivity.
    intros H _; inversion H; reflexivity.
  - destruct n as [|n]; cbn [Refresh.alone Refresh.advance];
      [intros H; inversion H; subst; discriminate|].
    destruct (getArticleByGuid d (f_id feed) (guidOf it)); [apply IH|].
    destruct n as [|n]; cbn [Refresh.alone Refresh.advance];
      [intros H; inversion H; subst; discriminate|].
    destruct (createArticle refuses d _) as [msg|d1]; [|apply IH].
    unfold afterItems. apply alone_counting.
Qed.

Lemma alone_syncFeed (feed : Feed) (n : nat) (d d' : db) (ph' : phase)
      (t' : nat) :
  alone feed n Parsing d 0 = (ph', d', t') -> ended ph' = true ->
  (d', t', endOf ph')
  = syncFeed parseDate refuses (clock (f_id feed)) (now (f_id feed))
             (parseFeed (f_url feed)) feed d.
Proof.
  destruct n as [|n]; cbn [Refresh.alone Refresh.advance];
    [intros H; inversion H; subst; discriminate|].
  unfold syncFeed. destruct (parseFeed (f_url feed)) as [pf|].
  - intros H He. rewrite (alone_items _ _ _ _ _ _ _ _ _ H He).
    unfold afterItems.
    destruct (itemLoop _ _ _ _ _ _ _ _) as [[d1 n1] [msg|]]; reflexivity.
  - destruct n as [|n]; cbn [Refresh.alone Refresh.advance];
      [intros H; inversion H; subst; discriminate|].
    destruct (updateFeed d (f_id feed) (oneMoreError feed)) as [v|d1].
    + apply alone_counting.
    + rewrite alone_ended by reflexivity.
      intros H _; inversion H; reflexivity.
Qed.

(** in a run, the callback of a feed sees and leaves what it would alone *)
Lemma run_alone (schedule : list nat) (j : nat) (feed : Feed) :
  forall st st' ph d t,
    run schedule st = Some st' ->
    NoDup (feedIds (callbacks st)) ->
    nth_error (callbacks st) j = Some (feed, ph) ->
    articlesOf (store st) (f_id feed) = articlesOf d (f_id feed) ->
    getFeed (store st) (f_id feed) = getFeed d (f_id feed) ->
    let r := alone feed (count_occ Nat.eq_dec schedule j) ph d t in
    nth_error (callbacks st') j = Some (feed, fst (fst r)) /\
    articlesOf (store st') (f_id feed)
    = articlesOf (snd (fst r)) (f_id feed) /\
    getFeed (store st') (f_id feed) = getFeed (snd (fst r)) (f_id feed).
Proof.
  induction schedule as [|i sch IH]; intros st st' ph d t;
    cbn [Refresh.run count_occ].
  - intros H _ Hj Hv Hg; inversion H; subst. cbn. auto.
  - destruct (step i st) as [st1|] eqn:E; [|discriminate].
    intros H N Hj Hv Hg.
    assert (N1 : NoDup (feedIds (callbacks st1))).
    { rewrite feedIds_fst, (refresh_step_ids _ _ _ E), <- feedIds_fst. exact N. }
    unfold Refresh.step in E.
    destruct (nth_error (callbacks st) i) as [[g q]|] eqn:Hi;
      [|discriminate].
    destruct (advance g q (store st) (totalNewArticles st))
      as [[[q' d1] t1]|] eqn:A; [|discriminate].
    inversion E; subst st1; clear E. cbn [callbacks] in *.
    destruct (Nat.eq_dec i j) as [->|Hne].
    + rewrite Hj in Hi. inversion Hi; subst g q; clear Hi.
      cbn [Refresh.alone].
      pose proof (advance_view feed ph (store st) d
                    (totalNewArticles st) t Hv Hg) as V.
      rewrite A in V.
      destruct (advance feed ph d t) as [[[p2 e2] u2]|]; [|destruct V].
      destruct V as (-> & V1 & V2 & _).
      apply (IH _ _ _ e2 u2 H N1); cbn [callbacks store];
        [exact (nth_set_phase_same _ _ _ _ _ Hj) | exact V1 | exact V2].
    + assert (Hfg : f_id g <> f_id feed)
        by exact (ids_distinct _ _ _ _ _ _ _ N Hne Hi Hj).
      destruct (advance_frame g q q' (store st) d1 (totalNewArticles st) t1
                  (f_id feed) A Hfg) as [F1 F2].
      apply (IH _ _ _ d t H N1); cbn [callbacks store].
      * rewrite nth_set_phase_other by exact Hne. exact Hj.
      * now rewrite F1.
      * now rewrite F2.
Qed.

(** *** The refresh ends *)

Lemma stepsLeft_toItems (k : nat) (items : list item) :
  stepsLeft (toItems k items) <= 2 * length items + 1.
Proof. destruct items; cbn [toItems stepsLeft length]; lia. Qed.

Lemma advance_decreases (feed : Feed) (ph ph' : phase) (d d' : db)
      (t t' : nat) :
  advance feed ph d t = Some (ph', d', t') -> stepsLeft ph' < stepsLeft ph.
Proof.
  destruct ph as [|k it rest|k it rest| | | | |e]; cbn [Refresh.advance].
  - destruct (parseFeed _) as [pf|]; intros H; inversion H; subst;
      cbn [stepsLeft]; [|lia].
    pose proof (stepsLeft_toItems 0 (itemsOf 50 pf)) as L.
    assert (length (itemsOf 50 pf) <= 50)
      by (unfold itemsOf; apply firstn_le_length).
    lia.
  - destruct (getArticleByGuid _ _ _); intros H; inversion H; subst;
      cbn [stepsLeft]; [|lia].
    pose proof (stepsLeft_toItems (S k) rest). lia.
  - destruct (createArticle _ _ _); intros H; inversion H; subst;
      cbn [stepsLeft]; [lia|].
    pose proof (stepsLeft_toItems (S k) rest). lia.
  - rewrite updateFeed_zero.
    intros H; inversion H; subst. cbn [stepsLeft]. lia.
  - destruct (updateFeed _ _ _); intros H; inversion H; subst;
      cbn [stepsLeft]; lia.
  - destruct (updateFeed _ _ _); intros H; inversion H; subst;
      cbn [stepsLeft]; lia.
  - discriminate.
  - discriminate.
Qed.

Lemma sum_set_phase (cs : cbs) (j : nat) (f : Feed) (ph ph' : phase) :
  nth_error cs j = Some (f, ph) ->
  list_sum (map (fun c => stepsLeft (snd c)) (set_phase cs j ph'))
  + stepsLeft ph
  = list_sum (map (fun c => stepsLeft (snd c)) cs) + stepsLeft ph'.
Proof.
  revert j; induction cs as [|[g q] cs IH]; intros [|j]; cbn [nth_error];
    try discriminate.
  - intros H; inversion H; subst. cbn [set_phase map snd].
    rewrite !list_sum_cons. cbn [snd]. lia.
  - intros H. specialize (IH j H). cbn [set_phase map snd].
    rewrite !list_sum_cons. lia.
Qed.

Lemma refresh_step_decreases (j : nat) (st st' : state) :
  step j st = Some st' -> allStepsLeft st' < allStepsLeft st.
Proof.
  unfold Refresh.step, allStepsLeft.
  destruct (nth_error (callbacks st) j) as [[feed ph]|] eqn:Hj;
    [|discriminate].
  destruct (advance feed ph _ _) as [[[ph' d'] t']|] eqn:A; [|discriminate].
  intros H; inversion H; subst; clear H. cbn [callbacks].
  pose proof (sum_set_phase _ _ _ _ ph' Hj).
  pose proof (advance_decreases _ _ _ _ _ _ _ A). lia.
Qed.

Lemma refresh_run_decreases (schedule : list nat) :
  forall st st', run schedule st = Some st' ->
                 length schedule + allStepsLeft st' <= allStepsLeft st.
Proof.
  induction schedule as [|j sch IH]; intros st st'; cbn [Refresh.run length].
  - intros H; inversion H; lia.
  - destruct (step j st) as [st1|] eqn:E; [|discriminate].
    intros H. apply IH in H. apply refresh_step_decreases in E. lia.
Qed.

Lemma begin_steps (d : db) :
  allStepsLeft (begin collate d) = 102 * length (callbacks (begin collate d)).
Proof.
  unfold allStepsLeft, begin. cbn [callbacks].
  induction (filter (fun f => is_true (f_isActive f)) (getFeeds collate d))
    as [|f l IH]; [reflexivity|].
  cbn [map length snd]. rewrite list_sum_cons, IH. cbn [stepsLeft]. lia.
Qed.

Lemma refresh_step_enabled (st : state) (c : Feed * phase) :
  In c (callbacks st) -> ended (snd c) = false ->
  exists j st', step j st = Some st'.
Proof.
  intros Hin Hd. apply In_nth_error in Hin. destruct Hin as [j Hj].
  exists j. unfold Refresh.step. rewrite Hj. destruct c as [feed ph].
  cbn [snd] in Hd.
  destruct ph as [|k it rest|k it rest| | | | |e]; cbn [Refresh.advance];
    try discriminate Hd.
  - destruct (parseFeed _); eexists; reflexivity.
  - destruct (getArticleByGuid _ _ _); eexists; reflexivity.
  - destruct (createArticle _ _ _); eexists; reflexivity.
  - destruct (updateFeed _ _ _); eexists; reflexivity.
  - destruct (updateFeed _ _ _); eexists; reflexivity.
  - destruct (updateFeed _ _ _); eexists; reflexivity.
Qed.

Lemma same_id_same_row (l : list Feed) (a b : Feed) :
  NoDup (map f_id l) -> In a l -> In b l -> f_id a = f_id b -> a = b.
Proof.
  induction l as [|x l IH]; cbn [map]; intros N Ha Hb E; [destruct Ha|].
  inversion N as [|? ? Hn N']; subst.
  destruct Ha as [->|Ha], Hb as [->|Hb]; auto.
  - exfalso. apply Hn. rewrite E. now apply in_map.
  - exfalso. apply Hn. rewrite <- E. now apply in_map.
Qed.

(** X19: POST /api/feeds/refresh with its callbacks interleaved in any
    order.  If the feed identities are distinct and no two articles share
    feed and guid, none do in any state the refresh reaches; the articles
    are kept and new ones appended, all of active feeds, totalNewArticles
    being their number; the rows of the inactive feeds and the categories
    are not touched. *)
Theorem refresh_keeps_guids_unique (d : db) (schedule : list nat)
        (st : state) :
  uniqueFeedIds d -> uniqueGuids d ->
  run schedule (begin collate d) = Some st ->
  uniqueGuids (store st) /\
  (exists new, articles (store st) = articles d ++ new /\
               totalNewArticles st = length new /\
               Forall (fun a => exists feed,
                           In feed (feeds d) /\
                           is_true (f_isActive feed) = true /\
                           a_feedId a = f_id feed) new) /\
  (forall feed, In feed (feeds d) -> is_true (f_isActive feed) = false ->
                getFeed (store st) (f_id feed) = Some feed) /\
  categories (store st) = categories d.
Proof.
  intros Uf Ug H.
  pose proof (run_refreshInv d schedule _ _ H (begin_refreshInv d Uf Ug)) as I.
  destruct I as (N & U & _ & (new & Ha & Ht & Hn) & F & K).
  destruct (begin_callbacks d Uf) as (_ & Hc & _).
  pose proof (refresh_run_ids schedule _ _ H) as Hids.
  rewrite <- feedIds_eq, feedIds_fst, Hids, <- feedIds_fst in *.
  split; [exact U|]. split; [|split; [|exact K]].
  - exists new. split; [exact Ha|]. split; [exact Ht|].
    eapply Forall_impl; [|exact Hn]. intros a Hin.
    unfold feedIds in Hin. apply in_map_iff in Hin.
    destruct Hin as (c & E & Hin). destruct (Hc c Hin) as (H1 & H2 & _).
    exists (fst c). auto.
  - intros feed Hin Hoff. rewrite F; [now apply getFeed_unique|].
    intros Hi. unfold feedIds in Hi. apply in_map_iff in Hi.
    destruct Hi as (c & E & Hi). destruct (Hc c Hi) as (H1 & H2 & _).
    assert (fst c = feed) by (eapply same_id_same_row; eauto).
    congruence.
Qed.

(** X20: however the callbacks of a refresh interleave, once the callback
    of a feed has ended, returned or thrown, the feed has the articles
    (identities aside) and the row it would have had if it had been synced
    alone on the store the refresh began with, and the callback ended as it
    would have alone: what is proved of the sync of one feed holds of every
    feed of a refresh. *)
Theorem refresh_as_if_alone (d : db) (schedule : list nat) (st : state)
        (j : nat) (feed : Feed) (ph : phase) :
  uniqueFeedIds d ->
  run schedule (begin collate d) = Some st ->
  nth_error (callbacks st) j = Some (feed, ph) ->
  ended ph = true ->
  let single :=
    syncFeed parseDate refuses (clock (f_id feed)) (now (f_id feed))
             (parseFeed (f_url feed)) feed d in
  In feed (feeds d) /\ is_true (f_isActive feed) = true /\
  articlesOf (store st) (f_id feed)
  = articlesOf (storeOf single) (f_id feed) /\
  getFeed (store st) (f_id feed) = getFeed (storeOf single) (f_id feed) /\
  endOf ph = snd single.
Proof.
  intros Uf H Hj He single. subst single.
  destruct (begin_callbacks d Uf) as (N & Hc & _).
  pose proof (refresh_run_ids schedule _ _ H) as Hids.
  assert (Hj0 : nth_error (callbacks (begin collate d)) j
                = Some (feed, Parsing)).
  { assert (E : nth_error (map fst (callbacks (begin collate d))) j
                = Some feed).
    { rewrite <- Hids, nth_error_map, Hj. reflexivity. }
    rewrite nth_error_map in E.
    destruct (nth_error (callbacks (begin collate d)) j) as [[g q]|] eqn:E0;
      [|discriminate].
    cbn in E. inversion E; subst g.
    apply nth_error_In in E0. destruct (Hc _ E0) as (_ & _ & Hq).
    cbn [snd] in Hq. now subst q. }
  pose proof (nth_error_In _ _ Hj0) as Hin. apply Hc in Hin.
  cbn [fst] in Hin. destruct Hin as (Hin & Hact & _).
  split; [exact Hin|]. split; [exact Hact|].
  pose proof (run_alone schedule j feed _ _ Parsing d 0 H N Hj0
                eq_refl eq_refl) as R.
  cbv zeta in R.
  destruct (alone feed (count_occ Nat.eq_dec schedule j) Parsing d 0)
    as [[ph' d'] t'] eqn:A.
  cbn [fst snd] in R. destruct R as (R1 & R2 & R3).
  rewrite Hj in R1. inversion R1; subst ph'.
  apply alone_syncFeed in A; [|exact He]. rewrite <- A.
  unfold storeOf. cbn [fst snd]. auto.
Qed.

(** X21: a refresh ends.  A run has at most 102 steps for every active
    feed (the parse, a lookup and an insert for each of at most 50 items,
    the last update), every step leaves fewer steps to take, and as long as
    a callback has neither returned nor thrown a step can be taken. *)
Theorem refresh_ends (d : db) (schedule : list nat) (st : state) :
  run schedule (begin collate d) = Some st ->
  length schedule + allStepsLeft st
  <= 102 * length (callbacks (begin collate d)) /\
  ((exists c, In c (callbacks st) /\ ended (snd c) = false) ->
   exists j st', step j st = Some st') /\
  (forall j st', step j st = Some st' ->
                 allStepsLeft st' < allStepsLeft st).
Proof.
  intros H. split; [|split].
  - rewrite <- begin_steps. now apply refresh_run_decreases.
  - intros (c & Hin & Hd). eapply refresh_step_enabled; eauto.
  - intros j st'. apply refresh_step_decreases.
Qed.

End RefreshFacts.

(** an instance of X19: the refresh of two feeds, each with one new item,
    the steps of their callbacks interleaved *)
Lemma refresh_keeps_guids_unique_witness :
  uniqueFeedIds twoActive /\ uniqueGuids twoActive /\
  exists st,
    Refresh.run noDate accepts parsesOne clocks nows interleaved
                (Refresh.begin str_leb twoActive) = Some st /\
    Refresh.totalNewArticles st = 2 /\
    uniqueGuids (Refresh.store st).
Proof.
  assert (Uf : uniqueFeedIds twoActive).
  { unfold uniqueFeedIds. vm_compute.
    repeat constructor; cbn; intuition discriminate. }
  assert (Ug : uniqueGuids twoActive) by constructor.
  split; [exact Uf|]. split; [exact Ug|].
  destruct (Refresh.run noDate accepts parsesOne clocks nows interleaved
                        (Refresh.begin str_leb twoActive)) as [st|] eqn:E;
    [|vm_compute in E; discriminate E].
  exists st. split; [reflexivity|]. split.
  - vm_compute in E. inversion E. reflexivity.
  - exact (proj1 (refresh_keeps_guids_unique noDate accepts parsesOne clocks
                    nows str_leb twoActive interleaved st Uf Ug E)).
Defined.

(** an instance of X20: in that run the callback of the first feed has
    returned, as it does alone *)
Lemma refresh_as_if_alone_witness :
  uniqueFeedIds twoActive /\
  exists st feed,
    Refresh.run noDate accepts parsesOne clocks nows interleaved
                (Refresh.begin str_leb twoActive) = Some st /\
    nth_error (Refresh.callbacks st) 0 = Some (feed, Refresh.Done) /\
    f_title feed = lit "Alpha" /\
    getFeed (Refresh.store st) (f_id feed)
    = getFeed (storeOf (syncFeed noDate accepts (clocks (f_id feed))
                                 (nows (f_id feed))
                                 (parsesOne (f_url feed)) feed twoActive))
              (f_id feed).
Proof.
  assert (Uf : uniqueFeedIds twoActive).
  { unfold uniqueFeedIds. vm_compute.
    repeat constructor; cbn; intuition discriminate. }
  split; [exact Uf|].
  destruct (Refresh.run noDate accepts parsesOne clocks nows interleaved
                        (Refresh.begin str_leb twoActive)) as [st|] eqn:E;
    [|vm_compute in E; discriminate E].
  assert (Hd : exists feed,
             nth_error (Refresh.callbacks st) 0 = Some (feed, Refresh.Done)
             /\ f_title feed = lit "Alpha").
  { vm_compute in E. inversion E. eexists. split; reflexivity. }
  destruct Hd as (feed & Hd & Ht).
  exists st, feed. split; [reflexivity|]. split; [exact Hd|].
  split; [exact Ht|].
  exact (proj1 (proj2 (proj2 (proj2
           (refresh_as_if_alone noDate accepts parsesOne clocks nows str_leb
              twoActive interleaved st 0 feed Refresh.Done Uf E Hd
              eq_refl))))).
Defined.

(** an instance of X21: the eight steps of that run *)
Lemma refresh_ends_witness :
  exists st,
    Refresh.run noDate accepts parsesOne clocks nows interleaved
                (Refresh.begin str_leb twoActive) = Some st /\
    8 + Refresh.allStepsLeft st <= 204.
Proof.
  destruct (Refresh.run noDate accepts parsesOne clocks nows interleaved
                        (Refresh.begin str_leb twoActive)) as [st|] eqn:E;
    [|vm_compute in E; discriminate E].
  exists st. split; [reflexivity|].
  exact (proj1 (refresh_ends noDate accepts parsesOne clocks nows str_leb
                  twoActive interleaved st E)).
Defined.

Import Executor.

(* ===================================================================== *)
(** ** mapConcurrency: the sliding window *)
(* ===================================================================== *)

Section WindowFacts.
Variables T R : Type.
Variable fn : T -> option R.
Variable limit : Z.

Local Abbreviation xstate := (Executor.state T R).
Local Abbreviation xstep := (Executor.step fn limit).
Local Abbreviation xrun := (Executor.run fn limit).
Local Abbreviation xloop := (@Executor.loop T R limit).
Local Abbreviation tasklist := (list (T * status R)).

(** a race among promises none of which has settled is pending on all of
    them *)
Lemma race_of_unsettled (ts : tasklist) (l all : list nat) :
  (forall i, In i l -> is_spliced ts i = false /\ is_rejected ts i = false) ->
  race_of ts l all = Pending all.
Proof.
  induction l as [|i l IH]; simpl; intros H; [reflexivity|].
  destruct (H i (or_introl eq_refl)) as [-> ->].
  apply IH. intros j Hj. apply H. now right.
Qed.

(** the loop stops to wait only with the window full *)
Lemma loop_window (items : list T) :
  forall (ts : tasklist) (ex : list nat) (res : list R) (cs : list T),
    windowFull limit (xloop items ts ex res cs).
Proof.
  induction items as [|x items IH]; intros ts ex res cs; simpl.
  - exact I.
  - destruct (Z.of_nat (length (ex ++ [length ts])) >=? limit)%Z eqn:E.
    + unfold windowFull; simpl.
      destruct (race_of _ _ _) as [a|ok] eqn:Er; [|exact I].
      apply race_of_pending in Er. destruct Er as [-> _].
      split; [reflexivity|]. apply Z.geb_le in E. exact E.
    + apply IH.
Qed.

(** an item whose [e] has not settled is in [executing] *)
Lemma live_in_executing (items : list T) (st : xstate) (i : nat) (x : T)
      (s : status R) :
  invariant fn limit items st ->
  nth_error (tasks st) i = Some (x, s) -> s <> Spliced ->
  In i (executing st).
Proof.
  intros ((_ & Hin & _) & _) Hn Hs. apply Hin. split.
  - apply nth_error_Some. congruence.
  - unfold is_spliced, status_of. rewrite Hn. simpl.
    destruct s; congruence.
Qed.

Lemma step_window (items : list T) (ev : event) (st st' : xstate) :
  invariant fn limit items st -> windowFull limit st ->
  xstep ev st = Some st' -> windowFull limit st'.
Proof.
  intros Inv W H.
  destruct ev as [i|i|i|i|i|]; simpl in H.
  - destruct (nth_error (tasks st) i) as [[x []]|] eqn:Hn;
      try discriminate H. inversion H; subst st'. exact W.
  - destruct (nth_error (tasks st) i) as [[x []]|] eqn:Hn;
      try discriminate H. inversion H; subst st'. exact W.
  - destruct (nth_error (tasks st) i) as [[x []]|] eqn:Hn;
      try discriminate H. inversion H; subst st'. exact W.
  - destruct (nth_error (tasks st) i) as [[x []]|] eqn:Hn;
      try discriminate H. inversion H; subst st'. clear H.
    assert (Hi : In i (executing st))
      by (eapply live_in_executing; eauto; discriminate).
    unfold windowFull in *; simpl.
    destruct (pc st) as [rest [snap|ok]|[snap|ok]| |]; simpl; try exact I.
    + destruct W as [<- _].
      rewrite (proj2 (existsb_eqb_In i (executing st)) Hi). exact I.
    + destruct (existsb (Nat.eqb i) snap); [|exact I].
      destruct (forallb _ snap); exact I.
  - destruct (nth_error (tasks st) i) as [[x []]|] eqn:Hn;
      try discriminate H. inversion H; subst st'. clear H.
    assert (Hi : In i (executing st))
      by (eapply live_in_executing; eauto; discriminate).
    unfold windowFull in *; simpl.
    destruct (pc st) as [rest [snap|ok]|[snap|ok]| |]; simpl; try exact I.
    + destruct W as [<- _].
      rewrite (proj2 (existsb_eqb_In i (executing st)) Hi). exact I.
    + destruct (existsb (Nat.eqb i) snap); exact I.
  - destruct (pc st) as [rest [snap|[]]|[snap|[]]| |] eqn:Hpc;
      try discriminate H; inversion H; subst st'; try exact I.
    apply loop_window.
Qed.

Lemma run_window (items : list T) (evs : list event) :
  forall st st' : xstate,
    invariant fn limit items st -> windowFull limit st ->
    xrun evs st = Some st' -> windowFull limit st'.
Proof.
  induction evs as [|ev evs IH]; simpl; intros st st' Inv W H.
  - inversion H; subst; exact W.
  - destruct (xstep ev st) as [st1|] eqn:E; [|discriminate].
    apply (IH st1 st'); [| |exact H].
    + exact (step_invariant T R fn limit items ev st st1 Inv E).
    + exact (step_window items ev st st1 Inv W E).
Qed.

Lemma reachable_window (items : list T) (st : xstate) :
  reachable fn limit items st -> windowFull limit st.
Proof.
  intros [evs H].
  apply (run_window items evs (mapConcurrency R limit items) st);
    [apply start_invariant | apply loop_window | exact H].
Qed.

(** what the body waits on in the loop: all of [executing], of the size of
    the window, none of it settled *)
Lemma waiting_facts (items : list T) (st : xstate) (rest : list T)
      (snap : list nat) :
  reachable fn limit items st ->
  pc st = AwaitRace rest (Pending snap) ->
  executing st = snap /\
  Z.of_nat (length snap) = Z.max limit 1 /\
  forall i, In i snap ->
            is_spliced (tasks st) i = false /\
            is_rejected (tasks st) i = false.
Proof.
  intros Hr Hpc.
  pose proof (reachable_window items st Hr) as W.
  pose proof (reachable_invariant T R fn limit items st Hr)
    as ((_ & _ & _ & Hle & _) & _ & Ha).
  unfold windowFull in W. unfold inv_await in Ha.
  rewrite Hpc in W, Ha. destruct W as [He Hl]. destruct Ha as [Hne Hs].
  split; [exact He|]. split.
  - rewrite He in Hle. unfold ceiling in Hle.
    destruct snap as [|k snap]; [congruence|].
    simpl length in *. lia.
  - intros i Hi. destruct (Hs i Hi) as (_ & H1 & H2). auto.
Qed.

(** X24: whenever mapConcurrency is suspended in its loop on a race that
    has not settled, the promises the race was given are exactly those of
    [executing], there are max(limit, 1) of them, and none of them has
    been spliced or rejected: the body waits only with the window full. *)
Theorem waits_on_full_window (items : list T) (st : xstate)
        (rest : list T) (snap : list nat) :
  reachable fn limit items st ->
  pc st = AwaitRace rest (Pending snap) ->
  executing st = snap /\
  Z.of_nat (length snap) = Z.max limit 1 /\
  forall i, In i snap ->
            is_spliced (tasks st) i = false /\
            is_rejected (tasks st) i = false.
Proof. apply waiting_facts. Qed.

(** X25: while the body waits in the loop with items to go, the splice of
    any one item whose result was pushed settles the race, and the body,
    resumed next, admits exactly the next item and waits again, on the
    promises left and the new one: one out, one in. *)
Theorem completion_admits_next (items : list T) (st : xstate) (x : T)
        (rest : list T) (snap : list nat) (i : nat) (y : T) :
  reachable fn limit items st ->
  pc st = AwaitRace (x :: rest) (Pending snap) ->
  nth_error (tasks st) i = Some (y, Pushed) ->
  exists st',
    xrun [Splice i; Resume] st = Some st' /\
    tasks st' = set_status (tasks st) i Spliced ++ [(x, Queued)] /\
    executing st' = remove_first i snap ++ [length (tasks st)] /\
    pc st' = AwaitRace rest (Pending (executing st')) /\
    results st' = results st.
Proof.
  intros Hr Hpc Hn.
  destruct (waiting_facts items st (x :: rest) snap Hr Hpc)
    as (He & Hl & Hs).
  pose proof (reachable_invariant T R fn limit items st Hr) as Inv.
  assert (Hi : In i snap).
  { rewrite <- He. eapply live_in_executing; eauto. discriminate. }
  assert (ND : NoDup snap).
  { rewrite <- He. exact (proj1 (proj1 Inv)). }
  destruct (remove_first_spec i snap ND Hi) as (_ & Hlen & Hmem).
  simpl. rewrite Hn. simpl. rewrite Hpc. simpl.
  rewrite (proj2 (existsb_eqb_In i snap) Hi). simpl.
  rewrite He, (splice_out_In i snap Hi).
  rewrite set_status_length.
  assert (G : (Z.of_nat (length (remove_first i snap
                                  ++ [length (tasks st)])) >=? limit)%Z
              = true).
  { apply Z.geb_le. rewrite length_app. simpl length. lia. }
  rewrite G.
  eexists. split; [reflexivity|]. simpl.
  split; [reflexivity|]. split; [reflexivity|]. split; [|reflexivity].
  f_equal. apply race_of_unsettled.
  intros j Hj. apply in_app_or in Hj.
  rewrite is_spliced_app, is_rejected_app, set_status_length.
  destruct Hj as [Hj|[<-|[]]].
  - apply Hmem in Hj. destruct Hj as [Hj Hne].
    assert (Hlt : j < length (tasks st)).
    { rewrite <- He in Hj.
      apply (proj1 (proj2 (proj1 Inv))) in Hj. tauto. }
    replace (Nat.eqb j (length (tasks st))) with false
      by (symmetry; apply Nat.eqb_neq; lia).
    rewrite is_spliced_set_other, is_rejected_set_other by congruence.
    apply Hs. exact Hj.
  - rewrite Nat.eqb_refl. simpl. auto.
Qed.

End WindowFacts.

(** an instance of X24: three items under limit 2, before any job ran *)
Lemma waits_on_full_window_witness :
  reachable tenfold 2 [1; 2; 3] (mapConcurrency nat 2 [1; 2; 3]) /\
  executing (mapConcurrency nat 2 [1; 2; 3]) = [0; 1].
Proof.
  assert (H : reachable tenfold 2 [1; 2; 3] (mapConcurrency nat 2 [1; 2; 3]))
    by (exists []; reflexivity).
  split; [exact H|].
  exact (proj1 (waits_on_full_window nat nat tenfold 2 [1; 2; 3]
                  (mapConcurrency nat 2 [1; 2; 3]) [3] [0; 1] H eq_refl)).
Defined.

(** an instance of X25: the first of three items under limit 2 completes *)
Lemma completion_admits_next_witness :
  reachable tenfold 2 [1; 2; 3] firstPushed /\
  exists st',
    Executor.run tenfold 2 [Splice 0; Resume] firstPushed = Some st' /\
    tasks st' = [(1, Spliced); (2, Queued); (3, Queued)].
Proof.
  assert (H : reachable tenfold 2 [1; 2; 3] firstPushed)
    by (exists [Start 0; Finish 0; Push 0]; reflexivity).
  split; [exact H|].
  destruct (completion_admits_next nat nat tenfold 2 [1; 2; 3] firstPushed
              3 [] [0; 1] 0 1 H eq_refl eq_refl) as (st' & E & Ht & _).
  exists st'. split; [exact E | exact Ht].
Defined.
